(** * linked-issue-jql: a shallow embedding of the resolver and its properties

    The development follows the JavaScript source of the Forge JQL function:
    the argument mini-language ([parseArg]), the relationship extractors, the
    paginated seed retrieval ([searchSeedIssues]), the fragment builder
    ([buildIssueKeySetJql]) and the entry point ([issuesWithText]).

    Conventions of the embedding.
    - A JavaScript string is a [string]: a sequence of code units, of which the
      model covers those below 256.
    - A JavaScript number that the code uses as a count or a status is an
      integer ([Z], or [nat] for the loop bound).  The offset of the legacy
      pagination is the sum of numbers that the server reports: it is a
      binary64 number ([Number]), added and compared as IEEE 754 has it.
    - An absent ([undefined]/[null]) property is [None]; the elements of the
      arrays of a response (issues, links, subtasks) are objects.
    - A [Set] is the list of its elements in insertion order.
    - Network calls go through an explicit service and are recorded in a log;
      exceptions are the [Throw] case of [Result]. *)

From Stdlib Require Import String Ascii List ZArith NArith Bool Arith Lia.
From Stdlib Require Import DecimalString SpecFloat.
Import ListNotations.

Open Scope list_scope.
Open Scope string_scope.

(* ================================================================= *)
(** ** JavaScript string primitives *)

(** WhiteSpace and LineTerminator code units (TAB, LF, VT, FF, CR, SP, NBSP):
    the characters removed by [String.prototype.trim] and matched by [\s]. *)
Definition isWhiteSpace (c : ascii) : bool :=
  let n := N_of_ascii c in
  ((9 <=? n) && (n <=? 13) || (n =? 32) || (n =? 160))%N.

(** LineTerminator code units (LF, CR): the characters [.] does not match. *)
Definition isLineTerminator (c : ascii) : bool :=
  let n := N_of_ascii c in
  ((n =? 10) || (n =? 13))%N.

(** [String.prototype.toLowerCase] on one code unit: A-Z and the Latin-1
    capitals (all of U+00C0..U+00DE but the multiplication sign). *)
Definition toLowerCaseChar (c : ascii) : ascii :=
  let n := N_of_ascii c in
  if ((65 <=? n) && (n <=? 90) || (192 <=? n) && (n <=? 222) && negb (n =? 215))%N
  then ascii_of_N (n + 32) else c.

Fixpoint toLowerCase (s : string) : string :=
  match s with
  | EmptyString => EmptyString
  | String c s' => String (toLowerCaseChar c) (toLowerCase s')
  end.

Fixpoint trimStart (s : string) : string :=
  match s with
  | EmptyString => EmptyString
  | String c s' => if isWhiteSpace c then trimStart s' else s
  end.

Fixpoint trimEnd (s : string) : string :=
  match s with
  | EmptyString => EmptyString
  | String c s' =>
      match trimEnd s' with
      | EmptyString => if isWhiteSpace c then EmptyString else String c EmptyString
      | t => String c t
      end
  end.

(** [String.prototype.trim] *)
Definition trim (s : string) : string := trimEnd (trimStart s).

(** [String.prototype.includes] *)
Fixpoint includes (s needle : string) : bool :=
  prefix needle s ||
  match s with
  | EmptyString => false
  | String _ s' => includes s' needle
  end.

(** [s.replace(/c/g, by)] for a one-character pattern [c]. *)
Fixpoint replaceAll (c : ascii) (by_ : string) (s : string) : string :=
  match s with
  | EmptyString => EmptyString
  | String a s' =>
      if Ascii.eqb a c then by_ ++ replaceAll c by_ s'
      else String a (replaceAll c by_ s')
  end.

(** [Array.prototype.join] *)
Definition join (sep : string) (l : list string) : string := String.concat sep l.

(** [String(n)] for an integer [n]. *)
Definition stringOfNumber (z : Z) : string := NilZero.string_of_int (Z.to_int z).

(** Truthiness of an optional string: present and not empty. *)
Definition truthy (o : option string) : bool :=
  match o with
  | Some s => negb (s =? "")
  | None => false
  end.

(** [o || ''] *)
Definition orEmpty (o : option string) : string :=
  match o with
  | Some s => s
  | None => ""
  end.

(** [o || []] *)
Definition orNil {A : Type} (o : option (list A)) : list A :=
  match o with
  | Some l => l
  | None => []
  end.

(** The double quote, for the sentinel clauses. *)
Definition dquote : string := String "034"%char EmptyString.

(* ================================================================= *)
(** ** Regular expressions

    The backtracking semantics of ECMAScript (section "Pattern Semantics"):
    a matcher takes a state and a continuation, and the first complete match
    in priority order is the result.  The state keeps the index reached, the
    input that is left, and the captures. *)

Record MatchState := mkState {
  endIndex : nat;
  remaining : string;
  captures : list (option string)
}.

Definition Continuation := MatchState -> option MatchState.
Definition Matcher := MatchState -> Continuation -> option MatchState.

Inductive regex : Type :=
| Empty                                   (* the empty pattern *)
| CharSet (p : ascii -> bool)             (* a character, class or [.] *)
| Seq (r1 r2 : regex)                     (* r1 r2 *)
| Alt (r1 r2 : regex)                     (* r1|r2 *)
| Star (greedy : bool) (r : regex)        (* r* and r*? *)
| Opt (r : regex)                         (* r? *)
| Group (n : nat) (r : regex)             (* the n-th capturing group *)
| AssertStart                             (* ^ *)
| AssertEnd.                              (* $ *)

Fixpoint setCapture (n : nat) (v : string) (caps : list (option string))
  : list (option string) :=
  match n, caps with
  | _, [] => []
  | O, _ :: t => Some v :: t
  | S n', h :: t => h :: setCapture n' v t
  end.

Definition advance (x : MatchState) (rest : string) : MatchState :=
  mkState (S (endIndex x)) rest (captures x).

Definition capture (n : nat) (x y : MatchState) : MatchState :=
  mkState (endIndex y) (remaining y)
          (setCapture n (substring 0 (endIndex y - endIndex x) (remaining x))
                      (captures y)).

(** RepeatMatcher with min 0 and no max: an iteration that matched the empty
    string is rejected.  [fuel] bounds the number of iterations; the length of
    the input left, plus one, is always enough.  The pattern of this program
    has no capturing group under a star, so the reset of the captures at each
    iteration is the identity and is left out. *)
Fixpoint repeatMatcher (m : Matcher) (greedy : bool) (fuel : nat) : Matcher :=
  fun x c =>
    match fuel with
    | O => c x
    | S fuel' =>
        let d : Continuation := fun y =>
          if (endIndex y =? endIndex x)%nat then None
          else repeatMatcher m greedy fuel' y c in
        if greedy then
          match m x d with
          | Some z => Some z
          | None => c x
          end
        else
          match c x with
          | Some z => Some z
          | None => m x d
          end
    end.

Fixpoint compile (r : regex) : Matcher :=
  match r with
  | Empty => fun x c => c x
  | CharSet p => fun x c =>
      match remaining x with
      | String ch rest => if p ch then c (advance x rest) else None
      | EmptyString => None
      end
  | Seq r1 r2 => fun x c => compile r1 x (fun y => compile r2 y c)
  | Alt r1 r2 => fun x c =>
      match compile r1 x c with
      | Some z => Some z
      | None => compile r2 x c
      end
  | Star greedy r1 => fun x c =>
      repeatMatcher (compile r1) greedy (S (String.length (remaining x))) x c
  | Opt r1 => fun x c =>
      match compile r1 x (fun y => if (endIndex y =? endIndex x)%nat then None else c y) with
      | Some z => Some z
      | None => c x
      end
  | Group n r1 => fun x c => compile r1 x (fun y => c (capture n x y))
  | AssertStart => fun x c => if (endIndex x =? 0)%nat then c x else None
  | AssertEnd => fun x c =>
      match remaining x with
      | EmptyString => c x
      | String _ _ => None
      end
  end.

(** RegExpBuiltinExec for a pattern without the g and y flags: the match is
    tried at index 0, then 1, and so on. *)
Fixpoint regExpExecFrom (m : Matcher) (ncap : nat) (i : nat) (s : string)
  : option MatchState :=
  match m (mkState i s (repeat None ncap)) (fun y => Some y) with
  | Some y => Some y
  | None =>
      match s with
      | EmptyString => None
      | String _ s' => regExpExecFrom m ncap (S i) s'
      end
  end.

(** [s.match(r)]: the array of the captures (index 0 is the whole match),
    or [None] for [null]. *)
Definition stringMatch (r : regex) (ncap : nat) (s : string)
  : option (list (option string)) :=
  option_map captures (regExpExecFrom (compile (Group 0 r)) ncap 0 s).

(** Canonicalize of the i flag, on the code units of the model: only a-z have
    an upper case below 128, and a code unit from 128 on never canonicalizes
    to one below. *)
Definition canonicalize (c : ascii) : ascii :=
  let n := N_of_ascii c in
  if ((97 <=? n) && (n <=? 122))%N then ascii_of_N (n - 32) else c.

Declare Scope regex_scope.
Delimit Scope regex_scope with re.
Bind Scope regex_scope with regex.
Notation "r1 ++ r2" := (Seq r1 r2) (at level 60, right associativity) : regex_scope.
Notation "r1 <|> r2" := (Alt r1 r2) (at level 62, right associativity) : regex_scope.

(** A pattern character under the i flag. *)
Definition chr (a : ascii) : regex :=
  CharSet (fun ch => Ascii.eqb (canonicalize ch) (canonicalize a)).

(** A literal word under the i flag. *)
Fixpoint lit (s : string) : regex :=
  match s with
  | EmptyString => Empty
  | String a EmptyString => chr a
  | String a s' => Seq (chr a) (lit s')
  end.

(** [\s], [.], and the class [[^\]\-]]; none of them holds a letter, so the
    i flag leaves them as they are. *)
Definition space : regex := CharSet isWhiteSpace.
Definition dot : regex := CharSet (fun ch => negb (isLineTerminator ch)).
Definition notBracketDash : regex :=
  CharSet (fun ch => negb (Ascii.eqb ch "]" || Ascii.eqb ch "-")).

(** r+ and r+? *)
Definition plus (greedy : bool) (r : regex) : regex := Seq r (Star greedy r).

(* ================================================================= *)
(** ** The argument parser (src/unnamed/part_000, parseArg) *)

Inductive Direction := Inward | Outward.

Record LinkFilter := mkLinkFilter {
  typeHint : option string;
  direction : option Direction
}.

Record ParsedArg := mkParsedArg {
  mode : string;
  linkFilter : option LinkFilter;
  innerJql : string
}.

(** The pattern of the argument,

      /^(parent|epic-of|linked|subtask|substask)
        (?:\s*\[\s*([^\]\-]+?)(?:\s*->\s*(inward|outward))?\s*\])?
        \s*:\s*(.+)$/i

    part by part. *)

(** [(parent|epic-of|linked|subtask|substask)] *)
Definition modePart : regex :=
  Group 1 (lit "parent" <|> lit "epic-of" <|> lit "linked" <|> lit "subtask"
           <|> lit "substask").

(** [(?:\s*->\s*(inward|outward))?] *)
Definition arrowPart : regex :=
  Opt (Star true space ++ chr "-" ++ chr ">" ++ Star true space ++
       Group 3 (lit "inward" <|> lit "outward")).

(** [(?:\s*\[\s*([^\]\-]+?)(?:\s*->\s*(inward|outward))?\s*\])?] *)
Definition filterPart : regex :=
  Opt (Star true space ++ chr "[" ++ Star true space ++
       Group 2 (plus false notBracketDash) ++
       arrowPart ++
       Star true space ++ chr "]").

(** [\s*:\s*(.+)$] *)
Definition queryPart : regex :=
  Star true space ++ chr ":" ++ Star true space ++
  Group 4 (plus true dot) ++
  AssertEnd.

Definition argPattern : regex :=
  AssertStart ++ modePart ++ filterPart ++ queryPart.

(** [m[n]] *)
Definition group (m : list (option string)) (n : nat) : option string :=
  nth n m None.

Definition parseArg (raw : option string) : ParsedArg :=
  let s := trim (orEmpty raw) in
  if s =? "" then mkParsedArg "linked" None ""
  else
    match stringMatch argPattern 5 s with
    | Some m =>
        let modeRaw := toLowerCase (orEmpty (group m 1)) in
        let mode := if modeRaw =? "substask" then "subtask" else modeRaw in
        let typeHint := trim (orEmpty (group m 2)) in
        let direction := toLowerCase (orEmpty (group m 3)) in
        let innerJql := trim (orEmpty (group m 4)) in
        let linkFilter :=
          if (mode =? "linked") && (negb (typeHint =? "") || negb (direction =? ""))
          then Some (mkLinkFilter (Some typeHint)
                       (if direction =? "inward" then Some Inward
                        else if direction =? "outward" then Some Outward
                        else None))
          else None in
        mkParsedArg mode linkFilter innerJql
    | None => mkParsedArg "linked" None s
    end.

(* ================================================================= *)
(** ** Sets of keys

    A JavaScript [Set] of strings enumerates its elements in insertion order
    and holds each of them once. *)

Definition JSet := list string.

Definition setHas (s : JSet) (k : string) : bool := existsb (String.eqb k) s.

(** [s.add(k)] *)
Definition setAdd (s : JSet) (k : string) : JSet :=
  if setHas s k then s else (s ++ [k])%list.

(** [new Set(l)] *)
Definition newSet (l : list string) : JSet := fold_left setAdd l [].

(** [Array.from(s)] *)
Definition arrayFrom (s : JSet) : list string := s.

(** [s.size] *)
Definition size (s : JSet) : nat := List.length s.

(** [a.slice(0, n)] *)
Definition slice0 (n : nat) (a : list string) : list string := firstn n a.

(* ================================================================= *)
(** ** The fragment builder (buildIssueKeySetJql, the same text in both files) *)

Definition SAFE_NO_MATCH : string :=
  "issuekey = " ++ dquote ++ "__NO_MATCH__" ++ dquote.

(** [`issuekey != "__NO_MATCH__"`], the clause for the empty set negated; the
    source writes it in place. *)
Definition MATCH_ALL : string :=
  "issuekey != " ++ dquote ++ "__NO_MATCH__" ++ dquote.

(** [k.replace(/'/g, "\\'")] *)
Definition escapeKey (k : string) : string := replaceAll "'" "\'" k.

(** [`'${...}'`] *)
Definition quoteKey (k : string) : string := "'" ++ escapeKey k ++ "'".

Definition buildIssueKeySetJql (keys : option JSet) (negate : bool) : string :=
  match keys with
  | None => if negate then MATCH_ALL else SAFE_NO_MATCH
  | Some ks =>
      if (size ks =? 0)%nat then (if negate then MATCH_ALL else SAFE_NO_MATCH)
      else
        let list := join ", " (map quoteKey (arrayFrom ks)) in
        "issuekey " ++ (if negate then "not in" else "in") ++ " (" ++ list ++ ")"
  end.

(* ================================================================= *)
(** ** Seed items, as the search service returns them *)

Record IssueRef := mkRef {
  ref_key : option string
}.

Record LinkType := mkLinkType {
  lt_name : option string;
  lt_inward : option string;
  lt_outward : option string
}.

Record IssueLink := mkLink {
  link_type : option LinkType;
  outwardIssue : option IssueRef;
  inwardIssue : option IssueRef
}.

Record IssueType := mkIssueType {
  hierarchyLevel : option Z;
  it_name : option string
}.

Record ParentFields := mkParentFields {
  issuetype : option IssueType
}.

Record ParentRef := mkParent {
  parent_key : option string;
  parent_fields : option ParentFields
}.

Record IssueFields := mkFields {
  issuelinks : option (list IssueLink);
  parent : option ParentRef;
  subtasks : option (list IssueRef)
}.

Record Issue := mkIssue {
  issue_key : option string;
  fields : option IssueFields
}.

(** [i?.fields?.issuelinks || []] *)
Definition linksOf (i : Issue) : list IssueLink :=
  match fields i with
  | Some f => orNil (issuelinks f)
  | None => []
  end.

(** [i?.fields?.parent] *)
Definition parentOf (i : Issue) : option ParentRef :=
  match fields i with
  | Some f => parent f
  | None => None
  end.

(** [i?.fields?.subtasks || []] *)
Definition subtasksOf (i : Issue) : list IssueRef :=
  match fields i with
  | Some f => orNil (subtasks f)
  | None => []
  end.

(** [r?.key] *)
Definition refKey (r : option IssueRef) : option string :=
  match r with
  | Some x => ref_key x
  | None => None
  end.

(** [p?.fields?.issuetype] *)
Definition parentType (p : ParentRef) : option IssueType :=
  match parent_fields p with
  | Some pf => issuetype pf
  | None => None
  end.

(* ================================================================= *)
(** ** The relationship extractors (src/unnamed/part_000) *)

(** [String(x || '').toLowerCase().trim()] *)
Definition normLabel (o : option string) : string :=
  trim (toLowerCase (orEmpty o)).

Definition isInward (d : option Direction) : bool :=
  match d with Some Inward => true | _ => false end.

Definition isOutward (d : option Direction) : bool :=
  match d with Some Outward => true | _ => false end.

Definition extractLinkedIssueKeys (issues : list Issue)
  (linkFilter : option LinkFilter) : JSet :=
  let needFilter :=
    match linkFilter with
    | Some lf => truthy (typeHint lf) ||
                 match direction lf with Some _ => true | None => false end
    | None => false
    end in
  let typeHint :=
    trim (toLowerCase
            (orEmpty (match linkFilter with Some lf => typeHint lf | None => None end))) in
  let wantInward :=
    isInward (match linkFilter with Some lf => direction lf | None => None end) in
  let wantOutward :=
    isOutward (match linkFilter with Some lf => direction lf | None => None end) in
  fold_left (fun out i =>
    fold_left (fun out l =>
      let typeObj :=
        match link_type l with Some t => t | None => mkLinkType None None None end in
      let tName := normLabel (lt_name typeObj) in
      let tIn := normLabel (lt_inward typeObj) in
      let tOut := normLabel (lt_outward typeObj) in
      let pass :=
        if needFilter then
          if negb (typeHint =? "") then
            let matchesType :=
              (tName =? typeHint) || (tIn =? typeHint) || (tOut =? typeHint) in
            if negb matchesType then false else true
          else true
        else true in
      if pass then
        let out :=
          if truthy (refKey (outwardIssue l)) &&
             (negb needFilter || wantOutward || (negb wantInward && negb wantOutward))
          then setAdd out (orEmpty (refKey (outwardIssue l))) else out in
        let out :=
          if truthy (refKey (inwardIssue l)) &&
             (negb needFilter || wantInward || (negb wantInward && negb wantOutward))
          then setAdd out (orEmpty (refKey (inwardIssue l))) else out in
        out
      else out) (linksOf i) out) issues [].

Definition extractParentKeys (issues : list Issue) : JSet :=
  fold_left (fun out i =>
    let p := parentOf i in
    let k := match p with Some p' => parent_key p' | None => None end in
    if truthy k then setAdd out (orEmpty k) else out) issues [].

Definition extractParentEpicKeys (issues : list Issue) : JSet :=
  fold_left (fun out i =>
    match parentOf i with
    | None => out
    | Some p =>
        if negb (truthy (parent_key p)) then out
        else
          let t := parentType p in
          if match t with
             | Some t' => match hierarchyLevel t' with
                          | Some n => (n =? 1)%Z
                          | None => false
                          end
             | None => false
             end
             || (toLowerCase
                   (orEmpty (match t with Some t' => it_name t' | None => None end))
                 =? "epic")
             || match t with Some _ => false | None => true end
          then setAdd out (orEmpty (parent_key p))
          else out
    end) issues [].

Definition extractSubtaskKeys (issues : list Issue) : JSet :=
  fold_left (fun out i =>
    fold_left (fun out s =>
      if truthy (ref_key s) then setAdd out (orEmpty (ref_key s)) else out)
      (subtasksOf i) out) issues [].

(* ================================================================= *)
(** ** Exceptions, state and the search service *)

Record JsError := mkError {
  message : string
}.

Inductive Result (A : Type) : Type :=
| Ok (a : A)
| Throw (e : JsError).

Arguments Ok {A} a.
Arguments Throw {A} e.

(** JavaScript numbers are binary64 floating-point numbers; [prec = 53] and
    [emax = 1024] in the operations of the specification of IEEE 754. *)
Definition Number := spec_float.

(** The number that an integer literal denotes: the nearest binary64 number,
    ties to even, and an infinity from 2^1024 - 2^970 on. *)
Definition numOfZ (z : Z) : Number := binary_normalize 53 1024 z 0 false.

(** [x + y] *)
Definition numAdd (x y : Number) : Number := SFadd 53 1024 x y.

(** [x >= y]; false when one of the two is NaN. *)
Definition numGe (x y : Number) : bool := SFleb y x.

(** Truthiness of a number: any but 0, -0 and NaN. *)
Definition numTruthy (x : Number) : bool :=
  match x with
  | S754_zero _ | S754_nan => false
  | _ => true
  end.

(** The body of a search response, [res.json()].  The fields [maxResults] and
    [total] hold the integer that the text of the body writes; the code reads
    them as numbers ([numOfZ]). *)
Record SearchData := mkData {
  data_issues : option (list Issue);
  data_nextPageToken : option string;
  data_isLast : option bool;
  data_maxResults : option Z;
  data_total : option Z
}.

(** A response of [requestJira]; [json] throws when the body does not parse. *)
Record Response := mkResponse {
  status : Z;
  ok : bool;
  text : string;
  json : Result SearchData
}.

(** The two calls the retriever makes: POST /rest/api/3/search/jql with its
    body, and GET /rest/api/3/search with its query parameters. *)
Inductive Request : Type :=
| PostSearchJql (jql : string) (maxResults : Z) (fields : list string)
                (nextPageToken : option string)
| GetSearch (jql : string) (startAt : Number) (maxResults : Z)
            (fields : list string).

(** The service answers a request knowing the requests made before it; a
    rejected promise is a [Throw]. *)
Definition Service := list Request -> Request -> Result Response.

(** Computations that read and write a state and may throw.  The state
    outlives an exception, as the heap of the program does. *)
Definition M (St A : Type) : Type := St -> Result A * St.

Definition ret {St A : Type} (a : A) : M St A := fun st => (Ok a, st).

Definition bind {St A B : Type} (m : M St A) (k : A -> M St B) : M St B :=
  fun st =>
    match m st with
    | (Ok a, st') => k a st'
    | (Throw e, st') => (Throw e, st')
    end.

Definition throw {St A : Type} (e : JsError) : M St A := fun st => (Throw e, st).

Definition tryCatch {St A : Type} (m : M St A) (handler : JsError -> M St A)
  : M St A :=
  fun st =>
    match m st with
    | (Ok a, st') => (Ok a, st')
    | (Throw e, st') => handler e st'
    end.

Definition liftResult {St A : Type} (r : Result A) : M St A := fun st => (r, st).

Declare Scope monad_scope.
Delimit Scope monad_scope with monad.
Notation "x <- m ;; k" := (bind m (fun x => k))
  (at level 100, m at next level, right associativity) : monad_scope.
Notation "m ;; k" := (bind m (fun _ => k))
  (at level 100, right associativity) : monad_scope.

(** The state of one call of [searchSeedIssues]: the requests made so far and
    the array [issues]. *)
Record SearchState := mkSearchState {
  net : list Request;
  acc : list Issue
}.

(* ================================================================= *)
(** ** The seed retriever (searchSeedIssues, the same text in both files) *)

Section Retriever.

Variable svc : Service.
Variable jql : string.
Variable wantedFields : list string.
Variable pageCap : nat.
Variable pageSize : Z.

Open Scope monad_scope.

(** [await api.asApp().requestJira(...)] *)
Definition requestJira (r : Request) : M SearchState Response :=
  fun st => (svc (net st) r, mkSearchState (net st ++ [r]) (acc st)).

(** [issues.push(...l)] *)
Definition pushIssues (l : list Issue) : M SearchState unit :=
  fun st => (Ok tt, mkSearchState (net st) (acc st ++ l)).

(** [return issues] *)
Definition returnIssues : M SearchState (list Issue) :=
  fun st => (Ok (acc st), st).

(** The loop over the pages of the enhanced search; [n] pages are left. *)
Fixpoint enhancedLoop (n : nat) (nextPageToken : option string)
  : M SearchState unit :=
  match n with
  | O => ret tt
  | S n' =>
      res <- requestJira
               (PostSearchJql jql pageSize wantedFields
                  (if truthy nextPageToken then nextPageToken else None)) ;;
      if (status res =? 404)%Z then
        throw (mkError "ENHANCED_JQL_NOT_AVAILABLE")
      else if negb (ok res) then
        throw (mkError ("Enhanced search failed: " ++ stringOfNumber (status res)
                        ++ " " ++ text res))
      else
        data <- liftResult (json res) ;;
        pushIssues (orNil (data_issues data)) ;;
        if negb (truthy (data_nextPageToken data)) ||
           match data_isLast data with Some true => true | _ => false end
        then ret tt
        else enhancedLoop n' (data_nextPageToken data)
  end.

(** [data.maxResults || pageSize] *)
Definition pageStep (data : SearchData) : Number :=
  match data_maxResults data with
  | Some m => if numTruthy (numOfZ m) then numOfZ m else numOfZ pageSize
  | None => numOfZ pageSize
  end.

(** [data.total || 0] *)
Definition totalOf (data : SearchData) : Number :=
  match data_total data with
  | Some t => if numTruthy (numOfZ t) then numOfZ t else numOfZ 0
  | None => numOfZ 0
  end.

(** The loop over the pages of the legacy search; [n] pages are left.
    [startAt += ...] is an addition of numbers. *)
Fixpoint legacyLoop (n : nat) (startAt : Number) : M SearchState unit :=
  match n with
  | O => ret tt
  | S n' =>
      res <- requestJira (GetSearch jql startAt pageSize wantedFields) ;;
      if negb (ok res) then
        throw (mkError ("Legacy search failed: " ++ stringOfNumber (status res)
                        ++ " " ++ text res))
      else
        data <- liftResult (json res) ;;
        pushIssues (orNil (data_issues data)) ;;
        let startAt' := numAdd startAt (pageStep data) in
        if numGe startAt' (totalOf data) then ret tt
        else legacyLoop n' startAt'
  end.

Definition searchSeedIssuesBody : M SearchState (list Issue) :=
  r <- tryCatch
         (enhancedLoop pageCap None ;;
          issues <- returnIssues ;;
          ret (Some issues))
         (fun e =>
            if negb (includes (message e) "ENHANCED_JQL_NOT_AVAILABLE")
            then throw e
            else ret None) ;;
  match r with
  | Some issues => ret issues
  | None => legacyLoop pageCap (numOfZ 0) ;; returnIssues
  end.

End Retriever.

(** [searchSeedIssues({ jql, wantedFields, pageCap = 4, pageSize = 100 })]: the
    array [issues] is local to the call, the requests go to the log. *)
Definition searchSeedIssues (svc : Service) (jql : string)
  (wantedFields : list string) (pageCap : option nat) (pageSize : option Z)
  : M (list Request) (list Issue) :=
  fun log =>
    let pageCap := match pageCap with Some n => n | None => 4 end in
    let pageSize := match pageSize with Some z => z | None => 100%Z end in
    let '(r, st) :=
      searchSeedIssuesBody svc jql wantedFields pageCap pageSize
        (mkSearchState log []) in
    (r, net st).

(* ================================================================= *)
(** ** The resolver entry point (src/unnamed/part_000, issuesWithText) *)

Record Clause := mkClause {
  operator : option string;
  arguments : option (list string)
}.

Record Invocation := mkInvocation {
  clause : option Clause
}.

Record Fragment := mkFragment {
  jql : string
}.

(** [new Set(Array.from(keys).slice(0, 1000))] *)
Definition limitedKeys (keys : JSet) : JSet :=
  newSet (slice0 1000 (arrayFrom keys)).

(** [Array.from(new Set(['issuelinks', 'parent', 'issuetype', 'subtasks']))] *)
Definition wantedFields : list string :=
  arrayFrom (newSet ["issuelinks"; "parent"; "issuetype"; "subtasks"]).

(** [clause?.operator || 'in'] *)
Definition operatorOf (c : option Clause) : string :=
  match c with
  | Some c' => if truthy (operator c') then orEmpty (operator c') else "in"
  | None => "in"
  end.

(** [const [arg0] = clause?.arguments || []] *)
Definition arg0Of (c : option Clause) : option string :=
  match c with
  | Some c' => hd_error (orNil (arguments c'))
  | None => None
  end.

Section Resolver.

Variable svc : Service.

Open Scope monad_scope.

(** The body of the [try] block. *)
Definition resolve (args : option Invocation) : M (list Request) Fragment :=
  let clause := match args with Some a => clause a | None => None end in
  let operator := operatorOf clause in
  let arg0 := arg0Of clause in
  let p := parseArg arg0 in
  if innerJql p =? "" then ret (mkFragment SAFE_NO_MATCH)
  else
    seedIssues <- searchSeedIssues svc (innerJql p) wantedFields
                    (Some 4) (Some 100%Z) ;;
    let keys :=
      if mode p =? "parent" then extractParentKeys seedIssues
      else if mode p =? "epic-of" then extractParentEpicKeys seedIssues
      else if mode p =? "subtask" then extractSubtaskKeys seedIssues
      else extractLinkedIssueKeys seedIssues (linkFilter p) in
    let limitedKeys := limitedKeys keys in
    let negate := negb (operator =? "in") in
    let jqlFragment := buildIssueKeySetJql (Some limitedKeys) negate in
    ret (mkFragment jqlFragment).

(** [try { ... } catch (err) { return { jql: SAFE_NO_MATCH } }]; the result
    comes with the log of the requests made. *)
Definition issuesWithText (args : option Invocation) (log : list Request)
  : Fragment * list Request :=
  match resolve args log with
  | (Ok r, log') => (r, log')
  | (Throw _, log') => (mkFragment SAFE_NO_MATCH, log')
  end.

End Resolver.

(* ================================================================= *)
(** ** The earlier variant of the resolver (src/src/index.js)

    It has no link filter and other mode names; the builder, the retriever
    and the parent, epic and subtask extractors are the ones above. *)

Module IndexJs.

Record ParsedArg := mkParsedArg {
  mode : string;
  innerJql : string
}.

(** /^(epic-of|linked|subtasks-of|parent-of)\s*:\s*(.+)$/i *)
Definition argPattern : regex :=
  (AssertStart ++
   Group 1 (lit "epic-of" <|> lit "linked" <|> lit "subtasks-of"
            <|> lit "parent-of") ++
   Star true space ++ chr ":" ++ Star true space ++
   Group 2 (plus true dot) ++
   AssertEnd)%re.

Definition parseArg (raw : option string) : ParsedArg :=
  let s := trim (orEmpty raw) in
  if s =? "" then mkParsedArg "linked" ""
  else
    match stringMatch argPattern 3 s with
    | Some m => mkParsedArg (toLowerCase (orEmpty (group m 1)))
                            (trim (orEmpty (group m 2)))
    | None => mkParsedArg "linked" s
    end.

Definition extractLinkedIssueKeys (issues : list Issue) : JSet :=
  fold_left (fun out i =>
    fold_left (fun out l =>
      let out :=
        if truthy (refKey (outwardIssue l))
        then setAdd out (orEmpty (refKey (outwardIssue l))) else out in
      let out :=
        if truthy (refKey (inwardIssue l))
        then setAdd out (orEmpty (refKey (inwardIssue l))) else out in
      out) (linksOf i) out) issues [].

Section Resolver.

Variable svc : Service.

Open Scope monad_scope.

Definition resolve (args : option Invocation) : M (list Request) Fragment :=
  let clause := match args with Some a => clause a | None => None end in
  let operator := operatorOf clause in
  let arg0 := arg0Of clause in
  let p := parseArg arg0 in
  if innerJql p =? "" then ret (mkFragment SAFE_NO_MATCH)
  else
    seedIssues <- searchSeedIssues svc (innerJql p) wantedFields
                    (Some 4) (Some 100%Z) ;;
    let keys :=
      if mode p =? "epic-of" then extractParentEpicKeys seedIssues
      else if mode p =? "subtasks-of" then extractSubtaskKeys seedIssues
      else if mode p =? "parent-of" then extractParentKeys seedIssues
      else extractLinkedIssueKeys seedIssues in
    let limitedKeys := limitedKeys keys in
    let negate := negb (operator =? "in") in
    let jqlFragment := buildIssueKeySetJql (Some limitedKeys) negate in
    ret (mkFragment jqlFragment).

Definition issuesWithText (args : option Invocation) (log : list Request)
  : Fragment * list Request :=
  match resolve args log with
  | (Ok r, log') => (r, log')
  | (Throw _, log') => (mkFragment SAFE_NO_MATCH, log')
  end.

End Resolver.

End IndexJs.


(* ================================================================= *)
(** ** Notions used to state the properties *)

(** Every character of the string satisfies [p]. *)
Fixpoint allChars (p : ascii -> bool) (s : string) : bool :=
  match s with
  | EmptyString => true
  | String c s' => p c && allChars p s'
  end.

(** A string made of white space only (the empty string included). *)
Definition isBlank (s : string) : bool := allChars isWhiteSpace s.

(** The last character of the string satisfies [p]. *)
Fixpoint lastChar (p : ascii -> bool) (s : string) : bool :=
  match s with
  | EmptyString => false
  | String c EmptyString => p c
  | String _ s' => lastChar p s'
  end.

(** The first character of the string satisfies [p]. *)
Definition firstChar (p : ascii -> bool) (s : string) : bool :=
  match s with
  | EmptyString => false
  | String c _ => p c
  end.

(** A string that [trim] leaves as it is, and that is not empty. *)
Definition isTrimmed (s : string) : bool :=
  firstChar (fun c => negb (isWhiteSpace c)) s &&
  lastChar (fun c => negb (isWhiteSpace c)) s.

(** Every single quote of the text comes right after a backslash;
    [afterBackslash] tells whether the character before the text is one. *)
Fixpoint quotesEscaped (afterBackslash : bool) (s : string) : bool :=
  match s with
  | EmptyString => true
  | String c s' =>
      (if Ascii.eqb c "'" then afterBackslash else true) &&
      quotesEscaped (Ascii.eqb c "\") s'
  end.

(** The link filter in the words of the specification. *)
Definition hintOf (lf : option LinkFilter) : string :=
  match lf with
  | Some f => trim (toLowerCase (orEmpty (typeHint f)))
  | None => ""
  end.

Definition directionOf (lf : option LinkFilter) : option Direction :=
  match lf with
  | Some f => direction f
  | None => None
  end.

(** A link passes when there is no hint, or the hint is the display name, the
    inward label or the outward label of its type, compared trimmed and
    without case. *)
Definition linkPasses (lf : option LinkFilter) (l : IssueLink) : Prop :=
  hintOf lf = "" \/
  exists t, link_type l = Some t /\
    (hintOf lf = trim (toLowerCase (orEmpty (lt_name t))) \/
     hintOf lf = trim (toLowerCase (orEmpty (lt_inward t))) \/
     hintOf lf = trim (toLowerCase (orEmpty (lt_outward t)))).

(** A side is wanted when no direction is asked for, or it is the one. *)
Definition sideWanted (lf : option LinkFilter) (side : Direction) : Prop :=
  match directionOf lf with
  | Some d => d = side
  | None => True
  end.

(** The key on one side of a link. *)
Definition targetKey (l : IssueLink) (side : Direction) : option string :=
  match side with
  | Outward => refKey (outwardIssue l)
  | Inward => refKey (inwardIssue l)
  end.

(** The parent counts as an epic: its type descriptor is absent, or has
    hierarchy level 1, or is named "epic" in any case. *)
Definition epicParent (p : ParentRef) : Prop :=
  match parentType p with
  | None => True
  | Some t =>
      hierarchyLevel t = Some 1%Z \/ toLowerCase (orEmpty (it_name t)) = "epic"
  end.

(** An invocation that lacks the clause, the operator or the arguments. *)
Definition lacksPart (args : option Invocation) : Prop :=
  match args with
  | None => True
  | Some a =>
      match clause a with
      | None => True
      | Some c => operator c = None \/ arguments c = None
      end
  end.

(** An invocation that lacks the clause or the arguments. *)
Definition lacksArgument (args : option Invocation) : Prop :=
  match args with
  | None => True
  | Some a =>
      match clause a with
      | None => True
      | Some c => arguments c = None
      end
  end.

(** The same invocation with the operator set. *)
Definition withOperator (op : string) (args : option Invocation)
  : option Invocation :=
  match args with
  | Some (mkInvocation (Some c)) =>
      Some (mkInvocation (Some (mkClause (Some op) (arguments c))))
  | other => other
  end.




(** The requests of a run of the legacy protocol, for a given rule [step] of
    the offset: [legacyRun n a log reqs] when, with [n] pages left, the offset
    [a] and the requests [log] made so far, the run makes the requests [reqs].
    It ends at the page cap, at a failed page, or when the offset reaches the
    total the server reports. *)
Section LegacyRun.

Variable svc : Service.
Variable jql : string.
Variable wantedFields : list string.
Variable pageSize : Z.
Variable step : SearchData -> Number.


End LegacyRun.

(** A list of keys without repetition, as a check. *)
Fixpoint distinct (l : list string) : bool :=
  match l with
  | [] => true
  | k :: t => negb (existsb (String.eqb k) t) && distinct t
  end.

(** Sample data: the keys K-1, K-2, ... *)
Definition sampleKey (n : nat) : string :=
  "K-" ++ NilZero.string_of_uint (Nat.to_uint n).

Definition sampleKeys (n : nat) : JSet := map sampleKey (seq 1 n).

(** Sample services.  One answers every request with a server error; one
    finds no issue. *)
Definition serviceDown : Service :=
  fun _ _ =>
    Ok (mkResponse 500 false "Internal Server Error"
          (Throw (mkError "Unexpected token I in JSON at position 0"))).

Definition serviceEmpty : Service :=
  fun _ _ =>
    Ok (mkResponse 200 true "" (Ok (mkData (Some []) None None None None))).

(** An invocation with one argument. *)
Definition invoke (op : option string) (arg : string) : option Invocation :=
  Some (mkInvocation (Some (mkClause op (Some [arg])))).

(** A seed item with a key and one outward link. *)
Definition seedWithLink (k target : string) : Issue :=
  mkIssue (Some k)
    (Some (mkFields
             (Some [mkLink (Some (mkLinkType (Some "Blocks") (Some "is blocked by")
                                             (Some "blocks")))
                           (Some (mkRef (Some target))) None])
             None None)).

(** A service whose enhanced search answers the first page and then reports
    404, and whose legacy search has one page. *)
Definition serviceSwitching : Service :=
  fun _ r =>
    match r with
    | PostSearchJql _ _ _ None =>
        Ok (mkResponse 200 true ""
              (Ok (mkData (Some [seedWithLink "ABC-1" "XYZ-9"]) (Some "page2")
                          (Some false) None None)))
    | PostSearchJql _ _ _ (Some _) =>
        Ok (mkResponse 404 false "Not Found" (Throw (mkError "no body")))
    | GetSearch _ _ _ _ =>
        Ok (mkResponse 200 true ""
              (Ok (mkData (Some [seedWithLink "ABC-2" "XYZ-7"]) None None
                          (Some 100%Z) (Some 1%Z))))
    end.


(** A service whose enhanced search rejects the query with an error text that
    quotes it, and whose legacy search has one page. *)
Definition serviceEchoing : Service :=
  fun _ r =>
    match r with
    | PostSearchJql q _ _ _ =>
        Ok (mkResponse 400 false ("Field '" ++ q ++ "' does not exist")
              (Throw (mkError "no body")))
    | GetSearch _ _ _ _ =>
        Ok (mkResponse 200 true ""
              (Ok (mkData (Some [seedWithLink "ABC-2" "XYZ-7"]) None None
                          (Some 100%Z) (Some 1%Z))))
    end.

(** The words of the argument mini-language, in the terms of the grammar. *)

(** The token is the word, in any letter case. *)
Definition sameWord (token word : string) : bool := toLowerCase token =? word.

(** A type hint the pattern takes: trimmed, not empty, and free of the
    closing bracket and of the hyphen. *)
Definition isHint (h : string) : bool :=
  isTrimmed h && allChars (fun ch => negb (Ascii.eqb ch "]" || Ascii.eqb ch "-")) h.

(** An inner query: trimmed, not empty, on one line. *)
Definition isQuery (q : string) : bool :=
  isTrimmed q && allChars (fun ch => negb (isLineTerminator ch)) q.

(** The direction a token names. *)
Definition directionNamed (token : string) : option Direction :=
  if sameWord token "inward" then Some Inward
  else if sameWord token "outward" then Some Outward
  else None.

(** The text of an argument in the linked mode with a filter between
    brackets; [w0] ... [w4] are the runs of white space around the tokens. *)
Definition linkedArg (w0 token w1 filter w2 w3 query w4 : string) : string :=
  w0 ++ token ++ w1 ++ "[" ++ filter ++ "]" ++ w2 ++ ":" ++ w3 ++ query ++ w4.

(** The three forms of the filter, with the white space around their
    tokens. *)
Definition hintOnly (v0 hint v1 : string) : string := v0 ++ hint ++ v1.

Definition hintAndDirection (v0 hint v1 v2 dir v3 : string) : string :=
  v0 ++ hint ++ v1 ++ "->" ++ v2 ++ dir ++ v3.

Definition directionOnly (v0 v2 dir v3 : string) : string :=
  v0 ++ "->" ++ v2 ++ dir ++ v3.

(** The token has the letters of the word, compared as the i flag does. *)
Fixpoint sameLetters (token word : string) : bool :=
  match token, word with
  | EmptyString, EmptyString => true
  | String a t, String b w =>
      Ascii.eqb (canonicalize a) (canonicalize b) && sameLetters t w
  | _, _ => false
  end.

(** A lower-case letter of the pattern's words, or the hyphen. *)
Definition isWordChar (c : ascii) : bool :=
  let n := N_of_ascii c in
  ((97 <=? n) && (n <=? 122) || (n =? 45))%N.

(** A service whose enhanced search has one page, with one seed item. *)
Definition serviceOneSeed : Service :=
  fun _ _ =>
    Ok (mkResponse 200 true ""
          (Ok (mkData (Some [seedWithLink "ABC-1" "XYZ-9"]) None (Some true)
                      None None))).

(** A link filter that asks for nothing: absent, or with neither a hint nor a
    direction. *)
Definition asksNothing (lf : option LinkFilter) : Prop :=
  match lf with
  | None => True
  | Some f => truthy (typeHint f) = false /\ direction f = None
  end.

(** A request of the enhanced search, or of the legacy search, for a given
    query, page size and list of fields. *)
Definition isEnhancedFor (jql : string) (size : Z) (wf : list string)
  (r : Request) : Prop :=
  match r with
  | PostSearchJql q m f _ => q = jql /\ m = size /\ f = wf
  | GetSearch _ _ _ _ => False
  end.

Definition isLegacyFor (jql : string) (size : Z) (wf : list string)
  (r : Request) : Prop :=
  match r with
  | PostSearchJql _ _ _ _ => False
  | GetSearch q _ m f => q = jql /\ m = size /\ f = wf
  end.

(** The pages of a run of the enhanced search: [enhancedRun n token log reqs
    items finished] when, with [n] pages left, the continuation token [token]
    and the requests [log] made so far, the run makes the requests [reqs] and
    collects [items]; [finished] tells whether it ends without an error: at
    the page cap, or on a page that is the last or gives no token. *)
Section EnhancedRun.

Variable svc : Service.
Variable jql : string.
Variable wantedFields : list string.
Variable pageSize : Z.

Inductive enhancedRun :
nat -> option string -> list Request -> list Request -> list Issue -> bool
-> Prop :=
| cursor_cap : forall token log,
  enhancedRun 0 token log [] [] true
| cursor_rejected : forall n token log e,
  svc log (PostSearchJql jql pageSize wantedFields token) = Throw e ->
  enhancedRun (S n) token log
    [PostSearchJql jql pageSize wantedFields token] [] false
| cursor_failed : forall n token log res,
  svc log (PostSearchJql jql pageSize wantedFields token) = Ok res ->
  status res = 404%Z \/ ok res = false ->
  enhancedRun (S n) token log
    [PostSearchJql jql pageSize wantedFields token] [] false
| cursor_bad_body : forall n token log res e,
  svc log (PostSearchJql jql pageSize wantedFields token) = Ok res ->
  status res <> 404%Z -> ok res = true ->
  json res = Throw e ->
  enhancedRun (S n) token log
    [PostSearchJql jql pageSize wantedFields token] [] false
| cursor_last : forall n token log res data,
  svc log (PostSearchJql jql pageSize wantedFields token) = Ok res ->
  status res <> 404%Z -> ok res = true ->
  json res = Ok data ->
  truthy (data_nextPageToken data) = false \/ data_isLast data = Some true ->
  enhancedRun (S n) token log
    [PostSearchJql jql pageSize wantedFields token]
    (orNil (data_issues data)) true
| cursor_next : forall n token log res data reqs items finished,
  svc log (PostSearchJql jql pageSize wantedFields token) = Ok res ->
  status res <> 404%Z -> ok res = true ->
  json res = Ok data ->
  truthy (data_nextPageToken data) = true ->
  data_isLast data <> Some true ->
  enhancedRun n (data_nextPageToken data)
    (log ++ [PostSearchJql jql pageSize wantedFields token])%list
    reqs items finished ->
  enhancedRun (S n) token log
    (PostSearchJql jql pageSize wantedFields token :: reqs)
    (orNil (data_issues data) ++ items)%list finished.

End EnhancedRun.

(** A service whose enhanced search is not there and whose legacy search
    fails. *)
Definition serviceLegacyDown : Service :=
  fun _ r =>
    match r with
    | PostSearchJql _ _ _ _ =>
        Ok (mkResponse 404 false "Not Found" (Throw (mkError "no body")))
    | GetSearch _ _ _ _ =>
        Ok (mkResponse 503 false "Service Unavailable"
              (Throw (mkError "no body")))
    end.

(** A service whose enhanced search has two pages. *)
Definition serviceTwoPages : Service :=
  fun _ r =>
    match r with
    | PostSearchJql _ _ _ None =>
        Ok (mkResponse 200 true ""
              (Ok (mkData (Some [seedWithLink "ABC-1" "XYZ-9"]) (Some "page2")
                          (Some false) None None)))
    | _ =>
        Ok (mkResponse 200 true ""
              (Ok (mkData (Some [seedWithLink "ABC-2" "XYZ-7"]) None
                          (Some true) None None)))
    end.

(** The text of a key, read back from its escaped form: a backslash and a
    single quote stand for the quote. *)
Fixpoint unescapeKey (s : string) : string :=
  match s with
  | EmptyString => EmptyString
  | String c s' =>
      match s' with
      | String c' s'' =>
          if Ascii.eqb c "\" && Ascii.eqb c' "'"
          then String "'" (unescapeKey s'')
          else String c (unescapeKey s')
      | EmptyString => String c EmptyString
      end
  end.

(** The shape of a fragment for a negate flag: a sentinel, or a clause of
    membership over at most 1000 keys without repetition, taken from
    [keys]. *)
Definition fragmentShape (negate : bool) (keys : JSet) (j : string) : Prop :=
  (negate = false /\ j = SAFE_NO_MATCH) \/
  (negate = true /\ j = MATCH_ALL) \/
  exists ks,
    ks <> [] /\ NoDup ks /\ List.length ks <= 1000 /\ incl ks keys /\
    j = "issuekey " ++ (if negate then "not in" else "in") ++ " ("
          ++ join ", " (map quoteKey ks) ++ ")".

(** The capturing groups of a pattern. *)
Fixpoint groupsOf (r : regex) : list nat :=
  match r with
  | Empty | CharSet _ | AssertStart | AssertEnd => []
  | Seq r1 r2 | Alt r1 r2 => groupsOf r1 ++ groupsOf r2
  | Star _ r1 | Opt r1 => groupsOf r1
  | Group n r1 => n :: groupsOf r1
  end.

(** The string holds the character. *)
Fixpoint hasChar (c : ascii) (s : string) : bool :=
  match s with
  | EmptyString => false
  | String a s' => Ascii.eqb a c || hasChar c s'
  end.

(** [y] is reached from [x] by reading some of the input, with no change to
    the captures of the groups outside [gs]. *)
Definition reaches (gs : list nat) (x y : MatchState) : Prop :=
  (exists u, remaining x = u ++ remaining y /\
             endIndex y = endIndex x + String.length u) /\
  List.length (captures y) = List.length (captures x) /\
  (forall n, ~ In n gs ->
             nth n (captures y) None = nth n (captures x) None).

(** The words of the modes, in the pattern of each variant. *)
Definition modeWords : list string :=
  ["parent"; "epic-of"; "linked"; "subtask"; "substask"].

Definition earlierModeWords : list string :=
  ["epic-of"; "linked"; "subtasks-of"; "parent-of"].

(** The end of both patterns, [\s*:\s*(.+)$], with the query in group [n]. *)
Definition tailPart (n : nat) : regex :=
  Star true space ++ chr ":" ++ Star true space ++
  Group n (plus true dot) ++
  AssertEnd.

(** The text of an argument with a mode and no filter; [w0] ... [w3] are the
    runs of white space around the tokens. *)
Definition plainArg (w0 token w1 w2 query w3 : string) : string :=
  w0 ++ token ++ w1 ++ ":" ++ w2 ++ query ++ w3.

(** The keys an extractor meets, in the order in which it visits them, with
    their repetitions: a key counts when it is present and not empty. *)
Definition keyOf (o : option string) : list string :=
  if truthy o then [orEmpty o] else [].

Definition parentCandidates (issues : list Issue) : list string :=
  flat_map (fun i =>
    keyOf (match parentOf i with Some p => parent_key p | None => None end))
    issues.

Definition subtaskCandidates (issues : list Issue) : list string :=
  flat_map (fun i => flat_map (fun s => keyOf (ref_key s)) (subtasksOf i))
    issues.

(** Of each link, the outward issue comes before the inward one. *)
Definition linkCandidates (issues : list Issue) : list string :=
  flat_map (fun i =>
    flat_map (fun l => keyOf (refKey (outwardIssue l)) ++
                       keyOf (refKey (inwardIssue l)))%list
      (linksOf i)) issues.

(** A service without the enhanced search, whose legacy search reports pages
    of 2^53 - 1 items and no total that the offset could reach. *)
Definition serviceHugePages : Service :=
  fun _ r =>
    match r with
    | PostSearchJql _ _ _ _ =>
        Ok (mkResponse 404 false "Not Found" (Throw (mkError "no body")))
    | GetSearch _ _ _ _ =>
        Ok (mkResponse 200 true ""
              (Ok (mkData (Some []) None None (Some 9007199254740991%Z)
                          (Some (10 ^ 30)%Z))))
    end.





(* ================================================================= *)
(** ** Facts on strings *)

Lemma append_nil_r (s : string) : s ++ "" = s.
Proof. induction s as [|c s IH]; simpl; [reflexivity | now rewrite IH]. Qed.

Lemma append_assoc (s1 s2 s3 : string) : (s1 ++ s2) ++ s3 = s1 ++ (s2 ++ s3).
Proof. induction s1 as [|c s1 IH]; simpl; [reflexivity | now rewrite IH]. Qed.

Lemma length_append (s1 s2 : string) :
  String.length (s1 ++ s2) = String.length s1 + String.length s2.
Proof. induction s1 as [|c s1 IH]; simpl; [reflexivity | now rewrite IH]. Qed.

Lemma trimStart_blank (s : string) : isBlank s = true -> trimStart s = "".
Proof.
  induction s as [|c s IH]; simpl; [reflexivity|].
  intros H. apply andb_prop in H as [Hc Hs]. rewrite Hc. auto.
Qed.

Lemma trim_blank (s : string) : isBlank s = true -> trim s = "".
Proof. intros H. unfold trim. now rewrite trimStart_blank. Qed.

Lemma trimStart_app_blank (w s : string) :
  isBlank w = true -> trimStart (w ++ s) = trimStart s.
Proof.
  induction w as [|c w IH]; simpl; [reflexivity|].
  intros H. apply andb_prop in H as [Hc Hw]. rewrite Hc. auto.
Qed.

Lemma trimStart_first (s : string) :
  firstChar (fun c => negb (isWhiteSpace c)) s = true -> trimStart s = s.
Proof.
  destruct s as [|c s]; simpl; [discriminate|].
  intros H. apply negb_true_iff in H. now rewrite H.
Qed.

Lemma trimEnd_blank (s : string) : isBlank s = true -> trimEnd s = "".
Proof.
  induction s as [|c s IH]; simpl; [reflexivity|].
  intros H. apply andb_prop in H as [Hc Hs]. rewrite (IH Hs). now rewrite Hc.
Qed.

Lemma trimEnd_last (s : string) :
  lastChar (fun c => negb (isWhiteSpace c)) s = true -> trimEnd s = s.
Proof.
  induction s as [|c s IH]; [discriminate|].
  destruct s as [|c' s'].
  - simpl. intros H. apply negb_true_iff in H. now rewrite H.
  - intros H. change (lastChar (fun c => negb (isWhiteSpace c)) (String c' s') = true) in H.
    specialize (IH H).
    change (trimEnd (String c (String c' s')))
      with (match trimEnd (String c' s') with
            | EmptyString => if isWhiteSpace c then EmptyString else String c EmptyString
            | t => String c t
            end).
    rewrite IH. reflexivity.
Qed.

Lemma lastChar_app (p : ascii -> bool) (s t : string) :
  lastChar p t = true -> lastChar p (s ++ t) = true.
Proof.
  intros H. induction s as [|c s IH]; simpl; [exact H|].
  destruct (s ++ t) eqn:E; [|exact IH].
  destruct s; simpl in E; [subst t; discriminate | discriminate].
Qed.

Lemma trimEnd_app_blank (s w : string) :
  lastChar (fun c => negb (isWhiteSpace c)) s = true ->
  isBlank w = true -> trimEnd (s ++ w) = s.
Proof.
  intros Hs Hw. induction s as [|c s IH]; [discriminate|].
  destruct s as [|c' s'].
  - simpl in *. rewrite (trimEnd_blank w Hw).
    apply negb_true_iff in Hs. now rewrite Hs.
  - change (lastChar (fun c => negb (isWhiteSpace c)) (String c' s') = true) in Hs.
    specialize (IH Hs).
    change (trimEnd (String c (String c' s' ++ w)) = String c (String c' s')).
    change (trimEnd (String c (String c' s' ++ w)))
      with (match trimEnd (String c' s' ++ w) with
            | EmptyString => if isWhiteSpace c then EmptyString else String c EmptyString
            | t => String c t
            end).
    rewrite IH. reflexivity.
Qed.

(** [trim] removes the white space around a trimmed text. *)
Lemma trim_around (w1 s w2 : string) :
  isBlank w1 = true -> isBlank w2 = true -> isTrimmed s = true ->
  trim (w1 ++ s ++ w2) = s.
Proof.
  intros H1 H2 Hs. unfold isTrimmed in Hs. apply andb_prop in Hs as [Hf Hl].
  unfold trim. rewrite trimStart_app_blank by assumption.
  destruct s as [|c s]; [discriminate|].
  simpl in Hf. apply negb_true_iff in Hf.
  change (String c s ++ w2) with (String c (s ++ w2)).
  simpl trimStart. rewrite Hf.
  change (String c (s ++ w2)) with (String c s ++ w2).
  now apply trimEnd_app_blank.
Qed.

Lemma trim_trimmed (s : string) : isTrimmed s = true -> trim s = s.
Proof.
  intros H. rewrite <- (trim_around "" s "") at 2 by (reflexivity || assumption).
  simpl. now rewrite append_nil_r.
Qed.

(* ================================================================= *)
(** ** Facts on sets of keys *)

Lemma setHas_In (s : JSet) (k : string) : setHas s k = true <-> In k s.
Proof.
  unfold setHas. rewrite existsb_exists. split.
  - intros (x & Hx & E). apply String.eqb_eq in E. now subst.
  - intros H. exists k. split; [assumption | apply String.eqb_refl].
Qed.

Lemma setAdd_In (s : JSet) (k x : string) :
  In x (setAdd s k) <-> In x s \/ x = k.
Proof.
  unfold setAdd. destruct (setHas s k) eqn:E.
  - apply setHas_In in E. split; [tauto|]. intros [H|H]; [assumption | now subst].
  - rewrite in_app_iff. simpl. intuition.
Qed.

Lemma setAdd_NoDup (s : JSet) (k : string) : NoDup s -> NoDup (setAdd s k).
Proof.
  intros H. unfold setAdd. destruct (setHas s k) eqn:E; [assumption|].
  assert (Hk : ~ In k s).
  { intros Hin. apply setHas_In in Hin. congruence. }
  clear E. induction H as [|a l Ha Hl IH]; simpl.
  - constructor; [intros []| constructor].
  - constructor.
    + rewrite in_app_iff. simpl. intros [H1|[H1|[]]]; [tauto|].
      subst. apply Hk. now left.
    + apply IH. intros Hin. apply Hk. now right.
Qed.

Lemma fold_setAdd_NoDup (l : list string) (acc : JSet) :
  NoDup acc -> NoDup (fold_left setAdd l acc).
Proof.
  revert acc. induction l as [|k l IH]; intros acc H; simpl; [assumption|].
  apply IH. now apply setAdd_NoDup.
Qed.

Lemma fold_setAdd_fresh (l : list string) (acc : JSet) :
  NoDup (acc ++ l)%list -> fold_left setAdd l acc = (acc ++ l)%list.
Proof.
  revert acc. induction l as [|k l IH]; intros acc H; simpl.
  - now rewrite app_nil_r.
  - assert (Hk : setHas acc k = false).
    { destruct (setHas acc k) eqn:E; [|reflexivity].
      apply setHas_In in E. apply NoDup_remove_2 in H.
      exfalso. apply H. rewrite in_app_iff. now left. }
    unfold setAdd at 2. rewrite Hk.
    rewrite IH; rewrite <- app_assoc; simpl; [reflexivity | assumption].
Qed.

(** Building a set from a list without repetition gives the list back. *)
Lemma newSet_NoDup (l : list string) : NoDup l -> newSet l = l.
Proof. intros H. unfold newSet. now rewrite fold_setAdd_fresh. Qed.

Lemma NoDup_firstn {A : Type} (n : nat) (l : list A) :
  NoDup l -> NoDup (firstn n l).
Proof.
  revert n. induction l as [|a l IH]; intros [|n] H; simpl; try constructor.
  - inversion H; subst. intros Hin. apply H2.
    rewrite <- (firstn_skipn n l). rewrite in_app_iff. now left.
  - inversion H; subst. now apply IH.
Qed.

(* ================================================================= *)
(** ** The fragment builder *)

Lemma escapeKey_cons (a : ascii) (s : string) :
  escapeKey (String a s) =
  if Ascii.eqb a "'" then String "\" (String "'" (escapeKey s))
  else String a (escapeKey s).
Proof. unfold escapeKey. simpl. destruct (Ascii.eqb a "'"); reflexivity. Qed.

Lemma escapeKey_head (s : string) (t : string) :
  escapeKey s <> String "'" t.
Proof.
  destruct s as [|a s]; [discriminate|].
  rewrite escapeKey_cons. destruct (Ascii.eqb a "'") eqn:E; [discriminate|].
  intros H. injection H as H1 H2. subst a. discriminate.
Qed.

Lemma escapeKey_inj (s1 s2 : string) : escapeKey s1 = escapeKey s2 -> s1 = s2.
Proof.
  revert s2. induction s1 as [|a s1 IH]; intros [|b s2].
  - reflexivity.
  - rewrite escapeKey_cons. unfold escapeKey at 1. simpl.
    destruct (Ascii.eqb b "'"); discriminate.
  - rewrite escapeKey_cons. unfold escapeKey at 2. simpl.
    destruct (Ascii.eqb a "'"); discriminate.
  - rewrite !escapeKey_cons.
    destruct (Ascii.eqb a "'") eqn:Ea, (Ascii.eqb b "'") eqn:Eb; intros H.
    + apply Ascii.eqb_eq in Ea, Eb. subst.
      injection H as H. f_equal. now apply IH.
    + injection H as H1 H2. symmetry in H2. now apply escapeKey_head in H2.
    + injection H as H1 H2. now apply escapeKey_head in H2.
    + injection H as H1 H2. subst. f_equal. now apply IH.
Qed.

Lemma append_inj_r (p s t : string) : p ++ s = p ++ t -> s = t.
Proof.
  induction p as [|c p IH]; simpl; intros H; [assumption|].
  injection H as H. auto.
Qed.

Lemma append_inj_l (s t q : string) :
  String.length s = String.length t -> s ++ q = t ++ q -> s = t.
Proof.
  revert t. induction s as [|c s IH]; intros [|d t] Hl H; simpl in *;
    try discriminate; [reflexivity|].
  injection H as H1 H2. subst. f_equal. apply IH; [lia | assumption].
Qed.

Lemma quoteKey_inj (k1 k2 : string) : quoteKey k1 = quoteKey k2 -> k1 = k2.
Proof.
  unfold quoteKey. intros H. apply append_inj_r in H.
  apply escapeKey_inj.
  assert (Hlen : String.length (escapeKey k1) = String.length (escapeKey k2)).
  { apply (f_equal String.length) in H. rewrite !length_append in H.
    simpl in H. lia. }
  now apply append_inj_l in H.
Qed.

Lemma escapeKey_escaped (s : string) (b : bool) :
  quotesEscaped b (escapeKey s) = true.
Proof.
  revert b. induction s as [|a s IH]; intros b; [reflexivity|].
  rewrite escapeKey_cons. destruct (Ascii.eqb a "'") eqn:E.
  - simpl. apply IH.
  - simpl. rewrite E. simpl. apply IH.
Qed.

Lemma count_occ_map_inj {A B : Type}
  (decA : forall x y : A, {x = y} + {x <> y})
  (decB : forall x y : B, {x = y} + {x <> y})
  (f : A -> B) (l : list A) (x : A) :
  (forall a b, f a = f b -> a = b) ->
  count_occ decB (map f l) (f x) = count_occ decA l x.
Proof.
  intros Hinj. induction l as [|a l IH]; simpl; [reflexivity|].
  destruct (decB (f a) (f x)) as [E|E], (decA a x) as [E'|E'].
  - now rewrite IH.
  - apply Hinj in E. contradiction.
  - subst. contradiction.
  - assumption.
Qed.

(** C2. For every key set and negate flag the builder returns the
    nothing-matches sentinel for the empty set not negated, the
    everything-matches sentinel for the empty set negated, and otherwise the
    clause "issuekey in (...)", or "issuekey not in (...)" when negated, that
    lists every key of the set exactly once, each between single quotes and
    with each of its single quotes escaped by a backslash. *)
Theorem buildIssueKeySetJql_spec (S : JSet) (negate : bool) :
  NoDup S ->
  buildIssueKeySetJql None negate = (if negate then MATCH_ALL else SAFE_NO_MATCH) /\
  buildIssueKeySetJql (Some S) negate =
    match S with
    | [] => if negate then MATCH_ALL else SAFE_NO_MATCH
    | _ :: _ =>
        "issuekey " ++ (if negate then "not in" else "in") ++ " ("
          ++ join ", " (map quoteKey S) ++ ")"
    end /\
  List.length (map quoteKey S) = size S /\
  (forall k, In k S -> count_occ string_dec (map quoteKey S) (quoteKey k) = 1) /\
  (forall k, quoteKey k = "'" ++ escapeKey k ++ "'" /\
             quotesEscaped false (escapeKey k) = true).
Proof.
  intros HS. repeat split.
  - destruct S; reflexivity.
  - apply length_map.
  - intros k Hk.
    rewrite (count_occ_map_inj string_dec string_dec quoteKey S k quoteKey_inj).
    apply NoDup_count_occ' with (decA := string_dec); assumption.
  - apply escapeKey_escaped.
Qed.

Lemma buildIssueKeySetJql_witness :
  NoDup ["ABC-1"; "it's"] /\
  buildIssueKeySetJql (Some ["ABC-1"; "it's"]) true
  = "issuekey not in ('ABC-1', 'it\'s')".
Proof.
  assert (H : NoDup ["ABC-1"; "it's"]).
  { repeat constructor; simpl; intros H;
      repeat (destruct H as [H|H]; [discriminate|]); exact H. }
  split; [exact H|].
  destruct (buildIssueKeySetJql_spec ["ABC-1"; "it's"] true H) as (_ & E & _).
  etransitivity; [exact E | reflexivity].
Defined.

(* ================================================================= *)
(** ** The cap on the result *)

(** The cap is the first 1000 keys. *)
Lemma limitedKeys_capped (keys : JSet) :
  NoDup keys ->
  limitedKeys keys = firstn 1000 keys /\
  size (limitedKeys keys) = Nat.min 1000 (size keys).
Proof.
  intros H.
  assert (E : limitedKeys keys = firstn 1000 keys).
  { unfold limitedKeys, slice0, arrayFrom. apply newSet_NoDup.
    now apply NoDup_firstn. }
  split; [exact E|]. rewrite E. unfold size. apply length_firstn.
Qed.

(** C8. The cap keeps the first 1000 keys of the extracted set in the order
    of its enumeration: a set of more than 1000 keys is cut to exactly its
    first 1000 keys, which are the keys the fragment lists, and a set of at
    most 1000 keys is left as it is. *)
Theorem limitedKeys_spec (keys : JSet) (negate : bool) :
  NoDup keys ->
  limitedKeys keys = firstn 1000 keys /\
  size (limitedKeys keys) = Nat.min 1000 (size keys) /\
  (1000 < size keys ->
     size (limitedKeys keys) = 1000 /\
     buildIssueKeySetJql (Some (limitedKeys keys)) negate =
       "issuekey " ++ (if negate then "not in" else "in") ++ " ("
         ++ join ", " (map quoteKey (firstn 1000 keys)) ++ ")" /\
     List.length (map quoteKey (firstn 1000 keys)) = 1000) /\
  (size keys <= 1000 -> limitedKeys keys = keys).
Proof.
  intros H. destruct (limitedKeys_capped keys H) as [E L].
  split; [exact E|]. split; [exact L|]. split.
  - intros Hbig. assert (L' : size (limitedKeys keys) = 1000) by lia.
    split; [exact L'|]. split.
    + unfold buildIssueKeySetJql. rewrite L'. simpl Nat.eqb. cbv iota.
      unfold arrayFrom. now rewrite E.
    + rewrite length_map, <- E. exact L'.
  - intros Hsmall. rewrite E. apply firstn_all2. exact Hsmall.
Qed.

Lemma distinct_NoDup (l : list string) : distinct l = true -> NoDup l.
Proof.
  induction l as [|k l IH]; simpl; intros H; constructor.
  - apply andb_prop in H as [H _]. apply negb_true_iff in H.
    intros Hin. assert (E : existsb (String.eqb k) l = true).
    { apply existsb_exists. exists k. split; [assumption | apply String.eqb_refl]. }
    congruence.
  - apply andb_prop in H as [_ H]. auto.
Qed.

Lemma limitedKeys_witness :
  NoDup (sampleKeys 1001) /\
  1000 < size (sampleKeys 1001) /\
  size (limitedKeys (sampleKeys 1001)) = 1000.
Proof.
  assert (H : NoDup (sampleKeys 1001)).
  { apply distinct_NoDup. vm_compute. reflexivity. }
  assert (L : 1000 < size (sampleKeys 1001)).
  { vm_compute. repeat constructor. }
  split; [exact H|]. split; [exact L|].
  destruct (limitedKeys_spec (sampleKeys 1001) false H) as (_ & _ & Hbig & _).
  exact (proj1 (Hbig L)).
Defined.

(* ================================================================= *)
(** ** The relationship extractors *)

Section FoldSet.

Context {X : Type}.
Variable step : JSet -> X -> JSet.
Variable yields : X -> string -> Prop.
Hypothesis step_In :
  forall out x k, In k (step out x) <-> In k out \/ yields x k.
Hypothesis step_NoDup : forall out x, NoDup out -> NoDup (step out x).

Lemma fold_step_In (l : list X) (acc : JSet) (k : string) :
  In k (fold_left step l acc) <->
  In k acc \/ exists x, In x l /\ yields x k.
Proof.
  revert acc. induction l as [|x l IH]; intros acc; simpl.
  - split; [tauto|]. intros [H|(x & [] & _)]. exact H.
  - rewrite IH, step_In. split.
    + intros [[H|H]|(y & Hy & Hk)].
      * now left.
      * right. exists x. auto.
      * right. exists y. auto.
    + intros [H|(y & [Hy|Hy] & Hk)].
      * left. now left.
      * subst. left. now right.
      * right. exists y. auto.
Qed.

Lemma fold_step_NoDup (l : list X) (acc : JSet) :
  NoDup acc -> NoDup (fold_left step l acc).
Proof.
  revert acc. induction l as [|x l IH]; intros acc H; simpl; auto.
Qed.

End FoldSet.

Lemma truthy_Some (o : option string) (k : string) :
  truthy o = true /\ orEmpty o = k <-> o = Some k /\ k <> "".
Proof.
  destruct o as [s|]; simpl.
  - split.
    + intros [H E]. subst. split; [reflexivity|].
      apply negb_true_iff in H. now apply String.eqb_neq in H.
    + intros [E H]. injection E as E. subst. split; [|reflexivity].
      apply negb_true_iff. now apply String.eqb_neq.
  - split; intros [H _]; discriminate.
Qed.

Ltac same_parent :=
  match goal with
  | E : Some _ = Some _ |- _ => injection E as E; subst
  end.

(** C7. The epic extractor collects the parent key of a seed item if and only
    if the parent is there with its key and its issue-type descriptor has
    hierarchy level 1, or is named "epic" in any case, or is absent; a parent
    whose descriptor is there and says neither is left out. *)
Theorem extractParentEpicKeys_spec (issues : list Issue) (k : string) :
  In k (extractParentEpicKeys issues) <->
  exists i p,
    In i issues /\ parentOf i = Some p /\
    parent_key p = Some k /\ k <> "" /\
    match parentType p with
    | None => True
    | Some t =>
        hierarchyLevel t = Some 1%Z \/ toLowerCase (orEmpty (it_name t)) = "epic"
    end.
Proof.
  unfold extractParentEpicKeys.
  rewrite (fold_step_In _
             (fun i k => exists p, parentOf i = Some p /\ parent_key p = Some k /\
                                   k <> "" /\ epicParent p)).
  { split.
    - intros [[]|(i & Hi & p & H)]. exists i, p. tauto.
    - intros (i & p & Hi & H). right. exists i. split; [assumption|].
      exists p. exact H. }
  clear k. intros out i k. cbv beta.
  destruct (parentOf i) as [p|].
  2:{ split; [tauto|]. intros [H|(p & E & _)]; [exact H | discriminate]. }
  destruct (truthy (parent_key p)) eqn:Ek; simpl.
  2:{ split; [tauto|]. intros [H|(p' & E & Hk & Hne & _)]; [exact H|].
      same_parent.
      assert (T : truthy (parent_key p') = true /\ orEmpty (parent_key p') = k).
      { apply truthy_Some. auto. }
      destruct T as [T _]. congruence. }
  assert (Hkey : forall k', parent_key p = Some k' /\ k' <> "" <->
                            k' = orEmpty (parent_key p)).
  { intros k'. rewrite <- truthy_Some. split; [intros [_ E]; now subst|].
    intros E. split; [assumption | now subst]. }
  unfold epicParent. destruct (parentType p) as [t|] eqn:Et; simpl.
  - rewrite orb_false_r.
    assert (Hiff : (match hierarchyLevel t with
                    | Some n => (n =? 1)%Z
                    | None => false
                    end || (toLowerCase (orEmpty (it_name t)) =? "epic")) = true
                   <-> hierarchyLevel t = Some 1%Z \/
                       toLowerCase (orEmpty (it_name t)) = "epic").
    { rewrite orb_true_iff, String.eqb_eq.
      destruct (hierarchyLevel t) as [n|].
      - rewrite Z.eqb_eq. split; intros [H|H]; auto.
        + left. now subst.
        + left. now injection H.
      - split; intros [H|H]; auto; discriminate. }
    destruct (match hierarchyLevel t with
              | Some n => (n =? 1)%Z
              | None => false
              end || (toLowerCase (orEmpty (it_name t)) =? "epic")) eqn:Eb.
    + rewrite setAdd_In. split.
      * intros [H|H]; [now left|]. right. exists p.
        apply Hkey in H. destruct H as [H1 H2]. rewrite Et.
        repeat split; auto. now apply Hiff.
      * intros [H|(p' & E & Hk & Hne & _)]; [now left|]. right.
        same_parent. now apply Hkey.
    + split; [tauto|]. intros [H|(p' & E & Hk & Hne & Hep)]; [exact H|].
      same_parent. rewrite Et in Hep. apply Hiff in Hep. discriminate.
  - rewrite setAdd_In. split.
    + intros [H|H]; [now left|]. right. exists p.
      apply Hkey in H. destruct H as [H1 H2]. rewrite Et. repeat split; auto.
    + intros [H|(p' & E & Hk & Hne & _)]; [now left|]. right.
      same_parent. now apply Hkey.
Qed.

(** The filter of the code, read as the filter of the specification. *)
Lemma needFilter_false_hint (lf : option LinkFilter) :
  match lf with
  | Some f => truthy (typeHint f) ||
              match direction f with Some _ => true | None => false end
  | None => false
  end = false ->
  hintOf lf = "" /\ directionOf lf = None.
Proof.
  destruct lf as [[h d]|]; simpl; [|auto].
  intros H. apply orb_false_iff in H as [Hh Hd].
  split.
  - destruct h as [s|]; simpl in *; [|reflexivity].
    apply negb_false_iff in Hh. apply String.eqb_eq in Hh. now subst.
  - destruct d; [discriminate | reflexivity].
Qed.

Lemma wanted_sides (lf : option LinkFilter) (side : Direction) :
  let needFilter :=
    match lf with
    | Some f => truthy (typeHint f) ||
                match direction f with Some _ => true | None => false end
    | None => false
    end in
  let wantInward := isInward (match lf with Some f => direction f | None => None end) in
  let wantOutward := isOutward (match lf with Some f => direction f | None => None end) in
  (negb needFilter ||
   match side with Outward => wantOutward | Inward => wantInward end ||
   (negb wantInward && negb wantOutward)) = true
  <-> sideWanted lf side.
Proof.
  unfold sideWanted, directionOf.
  destruct lf as [[h [[|]|]]|], side; simpl;
    rewrite ?orb_true_r, ?orb_false_r; simpl;
    split; intros H; try reflexivity; try discriminate; try exact I.
Qed.

Lemma link_passes (lf : option LinkFilter) (l : IssueLink) :
  let needFilter :=
    match lf with
    | Some f => truthy (typeHint f) ||
                match direction f with Some _ => true | None => false end
    | None => false
    end in
  let hint :=
    trim (toLowerCase
            (orEmpty (match lf with Some f => typeHint f | None => None end))) in
  let typeObj :=
    match link_type l with Some t => t | None => mkLinkType None None None end in
  (if needFilter then
     if negb (hint =? "") then
       if negb ((normLabel (lt_name typeObj) =? hint)
                || (normLabel (lt_inward typeObj) =? hint)
                || (normLabel (lt_outward typeObj) =? hint))
       then false else true
     else true
   else true) = true
  <-> linkPasses lf l.
Proof.
  intros needFilter hint typeObj.
  assert (Hh : hintOf lf = hint).
  { unfold hint, hintOf. destruct lf; reflexivity. }
  unfold linkPasses. rewrite Hh.
  destruct needFilter eqn:En.
  2:{ apply needFilter_false_hint in En as [E _]. rewrite Hh in E.
      split; auto. }
  destruct (String.eqb_spec hint "") as [E|E]; simpl.
  { split; auto. }
  destruct ((normLabel (lt_name typeObj) =? hint)
            || (normLabel (lt_inward typeObj) =? hint)
            || (normLabel (lt_outward typeObj) =? hint)) eqn:Em; simpl.
  - split; [|reflexivity]. intros _. right.
    unfold typeObj in Em. destruct (link_type l) as [t|].
    + exists t. split; [reflexivity|].
      rewrite !orb_true_iff, !String.eqb_eq in Em. unfold normLabel in Em.
      intuition auto.
    + exfalso. vm_compute normLabel in Em.
      rewrite !orb_true_iff, !String.eqb_eq in Em.
      destruct Em as [[Em|Em]|Em]; congruence.
  - split; [discriminate|]. intros [H|(t & Et & H)]; [contradiction|].
    exfalso. unfold typeObj in Em. rewrite Et in Em.
    rewrite !orb_false_iff, !String.eqb_neq in Em. unfold normLabel in Em.
    destruct Em as [[E1 E2] E3]. destruct H as [H|[H|H]]; congruence.
Qed.

Lemma two_adds_In (out : JSet) (bo bi : bool) (ko ki k : string) :
  In k (if bi then setAdd (if bo then setAdd out ko else out) ki
        else (if bo then setAdd out ko else out)) <->
  In k out \/ (bo = true /\ k = ko) \/ (bi = true /\ k = ki).
Proof.
  destruct bo, bi; rewrite ?setAdd_In; intuition congruence.
Qed.

(** C3. The linked extractor collects the key on one side of a link of a seed
    item exactly when the link passes the filter and that side is wanted: a
    link passes when no type hint is given or when the hint, trimmed and in
    lower case, is the display name, the inward label or the outward label of
    the link type; with a direction only the side asked for is wanted, and
    with none both sides are.  So a hint without a direction gives both sides
    of the matching links, and no filter gives both sides of every link. *)
Theorem extractLinkedIssueKeys_spec (issues : list Issue)
  (lf : option LinkFilter) (k : string) :
  In k (extractLinkedIssueKeys issues lf) <->
  exists i l side,
    In i issues /\ In l (linksOf i) /\
    linkPasses lf l /\ sideWanted lf side /\
    targetKey l side = Some k /\ k <> "".
Proof.
  unfold extractLinkedIssueKeys. cbv zeta.
  pose (yields := fun (l : IssueLink) (k : string) =>
          exists side, linkPasses lf l /\ sideWanted lf side /\
                       targetKey l side = Some k /\ k <> "").
  rewrite (fold_step_In _ (fun i k => exists l, In l (linksOf i) /\ yields l k)).
  { split.
    - intros [[]|(i & Hi & l & Hl & side & H)]. exists i, l, side. tauto.
    - intros (i & l & side & Hi & Hl & H). right. exists i. split; [assumption|].
      exists l. split; [assumption|]. exists side. exact H. }
  clear k. intros out i k. apply fold_step_In. clear out i k.
  intros out l k.
  pose proof (link_passes lf l) as Hpass.
  pose proof (wanted_sides lf Outward) as HO.
  pose proof (wanted_sides lf Inward) as HI.
  cbv zeta in Hpass, HO, HI. cbv beta iota in HO, HI.
  destruct (if match lf with
               | Some f => truthy (typeHint f) ||
                           match direction f with Some _ => true | None => false end
               | None => false
               end
            then _ else true) eqn:Ep.
  2:{ split; [tauto|]. intros [H|(side & Hp & _)]; [exact H|].
      apply Hpass in Hp. discriminate. }
  assert (Hp : linkPasses lf l) by now apply Hpass.
  clear Hpass Ep.
  rewrite two_adds_In. unfold yields.
  rewrite !andb_true_iff, HO, HI.
  split.
  - intros [H|[[[T W] E]|[[T W] E]]]; [now left | right | right].
    + exists Outward. simpl.
      destruct (proj1 (truthy_Some (refKey (outwardIssue l)) k)) as [E1 E2]; auto.
    + exists Inward. simpl.
      destruct (proj1 (truthy_Some (refKey (inwardIssue l)) k)) as [E1 E2]; auto.
  - intros [H|([|] & _ & W & E & Hne)]; [now left | right; right | right; left];
      simpl in E;
      match type of E with
      | ?o = Some k =>
          destruct (proj2 (truthy_Some o k)) as [E1 E2]; auto
      end.
Qed.

(* ================================================================= *)
(** ** The resolver entry point *)

Lemma parseArg_blank (raw : option string) :
  isBlank (orEmpty raw) = true -> parseArg raw = mkParsedArg "linked" None "".
Proof.
  intros H. unfold parseArg. rewrite (trim_blank _ H). reflexivity.
Qed.

Lemma IndexJs_parseArg_blank (raw : option string) :
  isBlank (orEmpty raw) = true ->
  IndexJs.parseArg raw = IndexJs.mkParsedArg "linked" "".
Proof.
  intros H. unfold IndexJs.parseArg. rewrite (trim_blank _ H). reflexivity.
Qed.

(** With a blank first argument nothing is requested, whatever the rest of the
    invocation. *)
Lemma issuesWithText_blank (svc : Service) (args : option Invocation)
  (log : list Request) :
  isBlank (orEmpty (arg0Of (match args with Some a => clause a | None => None end)))
    = true ->
  issuesWithText svc args log = (mkFragment SAFE_NO_MATCH, log) /\
  IndexJs.issuesWithText svc args log = (mkFragment SAFE_NO_MATCH, log).
Proof.
  intros H. split.
  - unfold issuesWithText, resolve. rewrite (parseArg_blank _ H). reflexivity.
  - unfold IndexJs.issuesWithText, IndexJs.resolve.
    rewrite (IndexJs_parseArg_blank _ H). reflexivity.
Qed.

(** C5. For an argument that is empty or made of white space only, and for
    every operator, the entry point returns the nothing-matches sentinel and
    makes no request to the search service: the log of the requests is
    unchanged.  This holds for both variants of the entry point. *)
Theorem blank_argument_short_circuit (svc : Service) (op : option string)
  (arg : string) (rest : list string) (log : list Request) :
  isBlank arg = true ->
  issuesWithText svc
    (Some (mkInvocation (Some (mkClause op (Some (arg :: rest)))))) log
  = (mkFragment SAFE_NO_MATCH, log) /\
  IndexJs.issuesWithText svc
    (Some (mkInvocation (Some (mkClause op (Some (arg :: rest)))))) log
  = (mkFragment SAFE_NO_MATCH, log).
Proof.
  intros H. apply issuesWithText_blank. exact H.
Qed.

Lemma blank_argument_short_circuit_witness :
  isBlank "   " = true /\
  issuesWithText serviceEmpty
    (Some (mkInvocation (Some (mkClause (Some "not in") (Some ["   "]))))) []
  = (mkFragment SAFE_NO_MATCH, []).
Proof.
  split; [reflexivity|].
  exact (proj1 (blank_argument_short_circuit serviceEmpty (Some "not in")
                  "   " [] [] eq_refl)).
Defined.

(** C10, as the claim states it, fails: an invocation that lacks only the
    operator and carries a query is resolved against the service. *)
Lemma missing_operator_still_searches :
  lacksPart (Some (mkInvocation (Some (mkClause None (Some ["linked: x"]))))) /\
  issuesWithText serviceEmpty
    (Some (mkInvocation (Some (mkClause None (Some ["linked: x"]))))) []
  = (mkFragment SAFE_NO_MATCH, [PostSearchJql "x" 100 wantedFields None]) /\
  ~ (forall (svc : Service) (args : option Invocation) (log : list Request),
       lacksPart args ->
       issuesWithText svc args log = (mkFragment SAFE_NO_MATCH, log)).
Proof.
  assert (L : lacksPart
                (Some (mkInvocation (Some (mkClause None (Some ["linked: x"])))))).
  { simpl. now left. }
  assert (E : issuesWithText serviceEmpty
                (Some (mkInvocation (Some (mkClause None (Some ["linked: x"]))))) []
              = (mkFragment SAFE_NO_MATCH, [PostSearchJql "x" 100 wantedFields None])).
  { vm_compute. reflexivity. }
  split; [exact L|]. split; [exact E|].
  intros H. specialize (H serviceEmpty _ [] L). rewrite E in H. discriminate.
Qed.

(** C10, amended.  An invocation that is absent, or lacks the clause or the
    arguments, makes the entry point return the nothing-matches sentinel
    without a request to the service; an invocation that lacks only the
    operator is resolved as with the operator "in".  This holds for both
    variants of the entry point. *)
Theorem missing_parts_defaults (svc : Service) (args : option Invocation)
  (log : list Request) :
  (lacksArgument args ->
   issuesWithText svc args log = (mkFragment SAFE_NO_MATCH, log) /\
   IndexJs.issuesWithText svc args log = (mkFragment SAFE_NO_MATCH, log)) /\
  (forall c, args = Some (mkInvocation (Some c)) -> operator c = None ->
   operatorOf (Some c) = "in" /\
   issuesWithText svc args log = issuesWithText svc (withOperator "in" args) log /\
   IndexJs.issuesWithText svc args log
   = IndexJs.issuesWithText svc (withOperator "in" args) log).
Proof.
  split.
  - intros H. apply issuesWithText_blank.
    destruct args as [[[c|]]|]; simpl in *; try reflexivity.
    rewrite H. reflexivity.
  - intros c E Hop. subst args. destruct c as [op a]. simpl in Hop. subst op.
    repeat split.
Qed.

Lemma missing_parts_defaults_witness :
  lacksArgument (Some (mkInvocation (Some (mkClause (Some "not in") None)))) /\
  issuesWithText serviceEmpty
    (Some (mkInvocation (Some (mkClause (Some "not in") None)))) []
  = (mkFragment SAFE_NO_MATCH, []).
Proof.
  assert (L : lacksArgument
                (Some (mkInvocation (Some (mkClause (Some "not in") None))))).
  { reflexivity. }
  split; [exact L|].
  exact (proj1 (proj1 (missing_parts_defaults serviceEmpty _ []) L)).
Defined.

(* ================================================================= *)
(** ** Facts on numbers *)

Section NumberFacts.

Local Open Scope Z_scope.













End NumberFacts.

(* ================================================================= *)
(** ** The seed retriever *)

Section RetrieverFacts.

Variable svc : Service.
Variable jql : string.
Variable wf : list string.
Variable pageSize : Z.



(** One turn of the legacy loop. *)
Lemma legacyLoop_step (n : nat) (a : Number) (st : SearchState) :
  legacyLoop svc jql wf pageSize (S n) a st =
  let r := GetSearch jql a pageSize wf in
  let st1 := mkSearchState (net st ++ [r]) (acc st) in
  match svc (net st) r with
  | Throw e => (Throw e, st1)
  | Ok res =>
      if negb (ok res) then
        (Throw (mkError ("Legacy search failed: " ++ stringOfNumber (status res)
                         ++ " " ++ text res)), st1)
      else
        match json res with
        | Throw e => (Throw e, st1)
        | Ok data =>
            let st2 := mkSearchState (net st1)
                         (acc st1 ++ orNil (data_issues data)) in
            if numGe (numAdd a (pageStep pageSize data)) (totalOf data)
            then (Ok tt, st2)
            else legacyLoop svc jql wf pageSize n
                   (numAdd a (pageStep pageSize data)) st2
        end
  end.
Proof.
  cbv zeta. cbn [legacyLoop]. unfold bind, requestJira, throw, liftResult,
    pushIssues, ret.
  destruct (svc (net st) (GetSearch jql a pageSize wf)) as [res|e];
    [|reflexivity].
  destruct (negb (ok res)); [reflexivity|].
  destruct (json res) as [data|e]; [|reflexivity].
  cbn [net acc].
  destruct (numGe (numAdd a (pageStep pageSize data)) (totalOf data));
    reflexivity.
Qed.


(** One turn of the loop of the enhanced search. *)
Lemma enhancedLoop_step (n : nat) (tok : option string) (st : SearchState) :
  enhancedLoop svc jql wf pageSize (S n) tok st =
  let r := PostSearchJql jql pageSize wf (if truthy tok then tok else None) in
  let st1 := mkSearchState (net st ++ [r]) (acc st) in
  match svc (net st) r with
  | Throw e => (Throw e, st1)
  | Ok res =>
      if (status res =? 404)%Z then
        (Throw (mkError "ENHANCED_JQL_NOT_AVAILABLE"), st1)
      else if negb (ok res) then
        (Throw (mkError ("Enhanced search failed: " ++ stringOfNumber (status res)
                         ++ " " ++ text res)), st1)
      else
        match json res with
        | Throw e => (Throw e, st1)
        | Ok data =>
            let st2 := mkSearchState (net st1)
                         (acc st1 ++ orNil (data_issues data)) in
            if negb (truthy (data_nextPageToken data)) ||
               match data_isLast data with Some true => true | _ => false end
            then (Ok tt, st2)
            else enhancedLoop svc jql wf pageSize n (data_nextPageToken data) st2
        end
  end.
Proof.
  cbv zeta. simpl enhancedLoop. unfold bind, requestJira, throw, liftResult,
    pushIssues, ret.
  destruct (svc (net st) _) as [res|e]; [|reflexivity].
  destruct (status res =? 404)%Z; [reflexivity|].
  destruct (negb (ok res)); [reflexivity|].
  destruct (json res) as [data|e]; [|reflexivity].
  simpl.
  destruct (negb (truthy (data_nextPageToken data)) ||
            match data_isLast data with Some true => true | _ => false end);
    reflexivity.
Qed.

(** The retriever, by the outcome of the enhanced search: its array on
    success, the legacy search on an error whose text contains the marker,
    the error itself otherwise.  The legacy search goes on from the state
    the enhanced search left. *)
Lemma searchSeedIssuesBody_cases (pageCap : nat) (st : SearchState) :
  searchSeedIssuesBody svc jql wf pageCap pageSize st =
  match enhancedLoop svc jql wf pageSize pageCap None st with
  | (Ok _, st') => (Ok (acc st'), st')
  | (Throw e, st') =>
      if includes (message e) "ENHANCED_JQL_NOT_AVAILABLE" then
        match legacyLoop svc jql wf pageSize pageCap (numOfZ 0) st' with
        | (Ok _, st'') => (Ok (acc st''), st'')
        | (Throw e', st'') => (Throw e', st'')
        end
      else (Throw e, st')
  end.
Proof.
  unfold searchSeedIssuesBody, bind, tryCatch, returnIssues, ret, throw.
  destruct (enhancedLoop svc jql wf pageSize pageCap None st) as [[u|e] st'];
    [reflexivity|].
  destruct (includes (message e) "ENHANCED_JQL_NOT_AVAILABLE"); simpl;
    [|reflexivity].
  destruct (legacyLoop svc jql wf pageSize pageCap (numOfZ 0) st') as [[u|e'] st''];
    reflexivity.
Qed.

(** When the first page of the enhanced search reports 404, the retriever
    is the legacy loop, started on an empty array. *)
Lemma searchSeedIssuesBody_first_404 (pageCap : nat) (log : list Request)
  (res : Response) :
  svc log (PostSearchJql jql pageSize wf None) = Ok res ->
  status res = 404%Z ->
  searchSeedIssuesBody svc jql wf (S pageCap) pageSize (mkSearchState log []) =
  match legacyLoop svc jql wf pageSize (S pageCap) (numOfZ 0)
          (mkSearchState (log ++ [PostSearchJql jql pageSize wf None]) []) with
  | (Ok _, st) => (Ok (acc st), st)
  | (Throw e, st) => (Throw e, st)
  end.
Proof.
  intros Es E404. rewrite searchSeedIssuesBody_cases, enhancedLoop_step.
  cbv zeta. cbn [net acc truthy]. rewrite Es, E404. reflexivity.
Qed.

End RetrieverFacts.


(** C6 at the failing input: the enhanced search answers its first page and
    reports 404 on the second; the retriever falls back to the legacy search,
    and the seed sequence it returns still starts with the item of the
    enhanced search. *)
Theorem fallback_keeps_enhanced_items :
  searchSeedIssues serviceSwitching "project = ABC" wantedFields None None [] =
    (Ok [seedWithLink "ABC-1" "XYZ-9"; seedWithLink "ABC-2" "XYZ-7"],
     [PostSearchJql "project = ABC" 100 wantedFields None;
      PostSearchJql "project = ABC" 100 wantedFields (Some "page2");
      GetSearch "project = ABC" (numOfZ 0) 100 wantedFields]).
Proof. vm_compute. reflexivity. Qed.

(** A second way into the fallback: an error text that contains the marker
    of the 404 case, here because the server quotes the query. *)
Lemma fallback_on_quoted_marker :
  searchSeedIssues serviceEchoing "ENHANCED_JQL_NOT_AVAILABLE = 1" wantedFields
    None None [] =
    (Ok [seedWithLink "ABC-2" "XYZ-7"],
     [PostSearchJql "ENHANCED_JQL_NOT_AVAILABLE = 1" 100 wantedFields None;
      GetSearch "ENHANCED_JQL_NOT_AVAILABLE = 1" (numOfZ 0) 100 wantedFields]).
Proof. vm_compute. reflexivity. Qed.

Section RetrieverFailures.

Variable svc : Service.
Variable jql : string.
Variable wf : list string.
Variable pageCap : nat.
Variable pageSize : Z.

(** A 404 on the first page of the enhanced search: the seed sequence is
    the one of the legacy search alone. *)
Lemma fallback_on_first_404 (log : list Request) (res : Response) :
  svc log (PostSearchJql jql pageSize wf None) = Ok res ->
  status res = 404%Z ->
  searchSeedIssues svc jql wf (Some (S pageCap)) (Some pageSize) log =
  let '(r, st) :=
    legacyLoop svc jql wf pageSize (S pageCap) (numOfZ 0)
      (mkSearchState (log ++ [PostSearchJql jql pageSize wf None]) []) in
  (match r with Ok _ => Ok (acc st) | Throw e => Throw e end, net st).
Proof.
  intros Es E404. unfold searchSeedIssues.
  rewrite (searchSeedIssuesBody_first_404 svc jql wf pageSize pageCap log res Es E404).
  destruct (legacyLoop svc jql wf pageSize (S pageCap) (numOfZ 0)
              (mkSearchState (log ++ [PostSearchJql jql pageSize wf None]) []))
    as [[u|e] st']; reflexivity.
Qed.

(** Another failed response of the enhanced search is thrown to the caller,
    when its text does not contain the marker of the 404 case. *)
Lemma enhanced_failure_is_thrown (log : list Request) (res : Response) :
  svc log (PostSearchJql jql pageSize wf None) = Ok res ->
  status res <> 404%Z ->
  ok res = false ->
  includes ("Enhanced search failed: " ++ stringOfNumber (status res) ++ " "
            ++ text res) "ENHANCED_JQL_NOT_AVAILABLE" = false ->
  searchSeedIssues svc jql wf (Some (S pageCap)) (Some pageSize) log =
  (Throw (mkError ("Enhanced search failed: " ++ stringOfNumber (status res)
                   ++ " " ++ text res)),
   (log ++ [PostSearchJql jql pageSize wf None])%list).
Proof.
  intros Es E404 Eok Hinc. unfold searchSeedIssues.
  rewrite searchSeedIssuesBody_cases, enhancedLoop_step.
  cbv zeta. cbn [net acc truthy]. rewrite Es.
  apply Z.eqb_neq in E404. rewrite E404, Eok. cbn [negb message].
  rewrite Hinc. reflexivity.
Qed.

(** A failed response of the legacy search is thrown to the caller. *)
Lemma legacy_failure_is_thrown (log : list Request) (res res' : Response) :
  svc log (PostSearchJql jql pageSize wf None) = Ok res ->
  status res = 404%Z ->
  svc (log ++ [PostSearchJql jql pageSize wf None])%list
      (GetSearch jql (numOfZ 0) pageSize wf) = Ok res' ->
  ok res' = false ->
  searchSeedIssues svc jql wf (Some (S pageCap)) (Some pageSize) log =
  (Throw (mkError ("Legacy search failed: " ++ stringOfNumber (status res')
                   ++ " " ++ text res')),
   (log ++ [PostSearchJql jql pageSize wf None;
            GetSearch jql (numOfZ 0) pageSize wf])%list).
Proof.
  intros Es E404 Es' Eok. rewrite (fallback_on_first_404 log res Es E404).
  rewrite legacyLoop_step. cbv zeta. cbn [net acc]. rewrite Es', Eok.
  cbn [negb net]. rewrite <- app_assoc. reflexivity.
Qed.

End RetrieverFailures.

(* ================================================================= *)
(** ** Facts on the matcher *)

Lemma substring_prefix (u r : string) :
  substring 0 (String.length u) (u ++ r) = u.
Proof.
  induction u as [|a u IH]; simpl.
  - destruct r; reflexivity.
  - now rewrite IH.
Qed.

Lemma capture_app (n i : nat) (u r : string) (c c' : list (option string)) :
  capture n (mkState i (u ++ r) c) (mkState (i + String.length u) r c') =
  mkState (i + String.length u) r (setCapture n u c').
Proof.
  unfold capture. simpl. f_equal. f_equal.
  replace (i + String.length u - i) with (String.length u) by lia.
  apply substring_prefix.
Qed.

Lemma compile_seq (r1 r2 : regex) (x : MatchState) (k : Continuation) :
  compile (Seq r1 r2) x k = compile r1 x (fun y => compile r2 y k).
Proof. reflexivity. Qed.

Lemma compile_group (n : nat) (r : regex) (x : MatchState) (k : Continuation) :
  compile (Group n r) x k = compile r x (fun y => k (capture n x y)).
Proof. reflexivity. Qed.

Lemma compile_alt_first (r1 r2 : regex) (x : MatchState) (k : Continuation)
  (z : MatchState) :
  compile r1 x k = Some z -> compile (Alt r1 r2) x k = Some z.
Proof. intros H. simpl. now rewrite H. Qed.

Lemma compile_alt_next (r1 r2 : regex) (x : MatchState) (k : Continuation) :
  compile r1 x k = None -> compile (Alt r1 r2) x k = compile r2 x k.
Proof. intros H. simpl. now rewrite H. Qed.

Lemma compile_opt_taken (r : regex) (x : MatchState) (k : Continuation)
  (z : MatchState) :
  compile r x (fun y => if (endIndex y =? endIndex x)%nat then None else k y)
  = Some z ->
  compile (Opt r) x k = Some z.
Proof. intros H. simpl. now rewrite H. Qed.

Lemma compile_opt_skipped (r : regex) (x : MatchState) (k : Continuation) :
  compile r x (fun y => if (endIndex y =? endIndex x)%nat then None else k y)
  = None ->
  compile (Opt r) x k = k x.
Proof. intros H. simpl. now rewrite H. Qed.

Lemma compile_charset (p : ascii -> bool) (i : nat) (a : ascii) (s : string)
  (c : list (option string)) (k : Continuation) :
  compile (CharSet p) (mkState i (String a s) c) k =
  if p a then k (mkState (S i) s c) else None.
Proof. reflexivity. Qed.

Lemma compile_charset_fails (p : ascii -> bool) (i : nat) (s : string)
  (c : list (option string)) (k : Continuation) :
  firstChar p s = false -> compile (CharSet p) (mkState i s c) k = None.
Proof.
  destruct s as [|a s]; simpl; [reflexivity|]. intros H. now rewrite H.
Qed.

Lemma lit_cons (b b' : ascii) (w : string) (x : MatchState) (k : Continuation) :
  compile (lit (String b (String b' w))) x k =
  compile (chr b) x (fun y => compile (lit (String b' w)) y k).
Proof. reflexivity. Qed.

(** A literal word takes a token that has its letters. *)
Lemma lit_match (w token s : string) (i : nat) (c : list (option string))
  (k : Continuation) :
  w <> "" -> sameLetters token w = true ->
  compile (lit w) (mkState i (token ++ s) c) k =
  k (mkState (i + String.length token) s c).
Proof.
  revert token i. induction w as [|b w IH]; intros token i Hne H; [contradiction|].
  destruct token as [|a t]; [discriminate|].
  simpl in H. apply andb_prop in H as [Hab Ht].
  destruct w as [|b' w'].
  - destruct t; [|discriminate]. simpl. rewrite Hab. unfold advance. simpl.
    f_equal. f_equal. lia.
  - rewrite lit_cons. unfold chr. simpl append. rewrite compile_charset, Hab.
    rewrite IH by (discriminate || assumption).
    f_equal. f_equal. simpl. lia.
Qed.

(** A literal word refuses an input that starts with another letter. *)
Lemma lit_mismatch (b : ascii) (w s : string) (i : nat)
  (c : list (option string)) (k : Continuation) :
  firstChar (fun a => Ascii.eqb (canonicalize a) (canonicalize b)) s = false ->
  compile (lit (String b w)) (mkState i s c) k = None.
Proof.
  intros H. destruct w as [|b' w'].
  - apply compile_charset_fails. exact H.
  - rewrite lit_cons. apply compile_charset_fails. exact H.
Qed.

Lemma toLowerCaseChar_letter (a : ascii) :
  isWordChar (toLowerCaseChar a) = true ->
  Ascii.eqb (canonicalize a) (canonicalize (toLowerCaseChar a)) = true.
Proof.
  destruct a as [[|] [|] [|] [|] [|] [|] [|] [|]]; vm_compute;
    intros H; try reflexivity; discriminate.
Qed.

Lemma canonicalize_space (a : ascii) :
  isWhiteSpace (canonicalize a) = isWhiteSpace a.
Proof.
  destruct a as [[|] [|] [|] [|] [|] [|] [|] [|]]; reflexivity.
Qed.

(** A token that is the word in some letter case has its letters. *)
Lemma sameWord_letters (token w : string) :
  allChars isWordChar w = true -> sameWord token w = true ->
  sameLetters token w = true.
Proof.
  unfold sameWord. intros Hw H. apply String.eqb_eq in H. subst w.
  induction token as [|a t IH]; [reflexivity|].
  simpl in *. apply andb_prop in Hw as [Ha Ht].
  rewrite (toLowerCaseChar_letter a Ha). auto.
Qed.

Lemma repeat_greedy_step (m : Matcher) (fuel : nat) (x : MatchState)
  (k : Continuation) :
  repeatMatcher m true (S fuel) x k =
  match m x (fun y => if (endIndex y =? endIndex x)%nat then None
                      else repeatMatcher m true fuel y k) with
  | Some z => Some z
  | None => k x
  end.
Proof. reflexivity. Qed.

Lemma repeat_lazy_step (m : Matcher) (fuel : nat) (x : MatchState)
  (k : Continuation) :
  repeatMatcher m false (S fuel) x k =
  match k x with
  | Some z => Some z
  | None => m x (fun y => if (endIndex y =? endIndex x)%nat then None
                          else repeatMatcher m false fuel y k)
  end.
Proof. reflexivity. Qed.

Lemma succ_neq (i : nat) : (S i =? i)%nat = false.
Proof. apply Nat.eqb_neq. lia. Qed.

Section Repeat.

Variable p : ascii -> bool.

(** The greedy star takes all the characters of the class when the
  continuation accepts what follows. *)
Lemma repeat_greedy_all (w rest : string) (i fuel : nat)
(c : list (option string)) (k : Continuation) (z : MatchState) :
allChars p w = true -> firstChar p rest = false ->
String.length w < fuel ->
k (mkState (i + String.length w) rest c) = Some z ->
repeatMatcher (compile (CharSet p)) true fuel (mkState i (w ++ rest) c) k
= Some z.
Proof.
revert i fuel. induction w as [|a w IH]; intros i fuel Hw Hrest Hf Hk;
  (destruct fuel as [|f]; [simpl in Hf; lia|]); rewrite repeat_greedy_step.
- cbn [append]. rewrite (compile_charset_fails p i rest c _ Hrest).
  simpl in Hk. now rewrite Nat.add_0_r in Hk.
- simpl in Hw. apply andb_prop in Hw as [Ha Hw].
  cbn [append]. rewrite compile_charset, Ha. cbn [endIndex].
  rewrite succ_neq.
  rewrite (IH (S i) f); try assumption; [reflexivity | simpl in Hf; lia |].
  simpl in Hk.
  now replace (S i + String.length w) with (i + S (String.length w)) by lia.
Qed.

Lemma star_greedy_all (w rest : string) (i : nat)
(c : list (option string)) (k : Continuation) (z : MatchState) :
allChars p w = true -> firstChar p rest = false ->
k (mkState (i + String.length w) rest c) = Some z ->
compile (Star true (CharSet p)) (mkState i (w ++ rest) c) k = Some z.
Proof.
intros Hw Hrest Hk. cbn [compile remaining]. apply repeat_greedy_all; try assumption.
rewrite length_append. lia.
Qed.

(** The greedy star gives one character back when the continuation refuses
  what follows the run and accepts its last character. *)
Lemma repeat_greedy_back (w : string) (a : ascii) (rest : string) (i fuel : nat)
(c : list (option string)) (k : Continuation) (z : MatchState) :
allChars p w = true -> p a = true -> firstChar p rest = false ->
S (String.length w) < fuel ->
k (mkState (S (i + String.length w)) rest c) = None ->
k (mkState (i + String.length w) (String a rest) c) = Some z ->
repeatMatcher (compile (CharSet p)) true fuel
  (mkState i (w ++ String a rest) c) k = Some z.
Proof.
revert i fuel. induction w as [|b w IH]; intros i fuel Hw Ha Hrest Hf Hn Hk;
  (destruct fuel as [|f]; [simpl in Hf; lia|]); rewrite repeat_greedy_step.
- cbn [append]. rewrite compile_charset, Ha. cbn [endIndex]. rewrite succ_neq.
  destruct f as [|f]; [simpl in Hf; lia|]. rewrite repeat_greedy_step.
  rewrite (compile_charset_fails p (S i) rest c _ Hrest).
  simpl in Hn, Hk. rewrite Nat.add_0_r in Hn, Hk. now rewrite Hn.
- simpl in Hw. apply andb_prop in Hw as [Hb Hw].
  cbn [append]. rewrite compile_charset, Hb. cbn [endIndex]. rewrite succ_neq.
  rewrite (IH (S i) f); try assumption; [reflexivity | simpl in Hf; lia | |].
  + simpl in Hn.
    now replace (S i + String.length w) with (i + S (String.length w)) by lia.
  + simpl in Hk.
    now replace (S i + String.length w) with (i + S (String.length w)) by lia.
Qed.

Lemma star_greedy_back (w : string) (a : ascii) (rest : string) (i : nat)
(c : list (option string)) (k : Continuation) (z : MatchState) :
allChars p w = true -> p a = true -> firstChar p rest = false ->
k (mkState (S (i + String.length w)) rest c) = None ->
k (mkState (i + String.length w) (String a rest) c) = Some z ->
compile (Star true (CharSet p)) (mkState i (w ++ String a rest) c) k = Some z.
Proof.
intros Hw Ha Hrest Hn Hk. cbn [compile remaining].
apply repeat_greedy_back; try assumption.
rewrite length_append. simpl. lia.
Qed.

(** The greedy star followed by a character of another class fails when the
  run of the star ends on a character that is in neither class. *)
Lemma repeat_greedy_then_fails (q : ascii -> bool) (w : string) (d : ascii)
(rest : string) (i fuel : nat) (c : list (option string)) (k : Continuation) :
(forall ch, p ch = true -> q ch = false) ->
allChars p w = true -> p d = false -> q d = false ->
repeatMatcher (compile (CharSet p)) true fuel
  (mkState i (w ++ String d rest) c)
  (fun y => compile (CharSet q) y k) = None.
Proof.
intros Hpq. revert i fuel. induction w as [|b w IH]; intros i fuel Hw Hd Hq.
- destruct fuel as [|f]; [|rewrite repeat_greedy_step];
    cbn [append repeatMatcher]; rewrite ?compile_charset, ?Hd, ?Hq; reflexivity.
- simpl in Hw. apply andb_prop in Hw as [Hb Hw].
  destruct fuel as [|f]; [|rewrite repeat_greedy_step]; cbn [append repeatMatcher].
  + rewrite compile_charset, (Hpq b Hb). reflexivity.
  + rewrite compile_charset, Hb. cbn [endIndex]. rewrite succ_neq.
    rewrite IH by assumption. rewrite compile_charset, (Hpq b Hb). reflexivity.
Qed.

Lemma star_then_fails (q : ascii -> bool) (w : string) (d : ascii)
(rest : string) (i : nat) (c : list (option string)) (k : Continuation) :
(forall ch, p ch = true -> q ch = false) ->
allChars p w = true -> p d = false -> q d = false ->
compile (Star true (CharSet p)) (mkState i (w ++ String d rest) c)
  (fun y => compile (CharSet q) y k) = None.
Proof.
intros. cbn [compile remaining]. now apply repeat_greedy_then_fails.
Qed.

(** The lazy star stops at the first place where the continuation accepts. *)
Lemma repeat_lazy_until (u rest : string) (i fuel : nat)
(c : list (option string)) (k : Continuation) (z : MatchState) :
allChars p u = true ->
String.length u < fuel ->
(forall u1 u2, u = u1 ++ u2 -> u2 <> "" ->
   k (mkState (i + String.length u1) (u2 ++ rest) c) = None) ->
k (mkState (i + String.length u) rest c) = Some z ->
repeatMatcher (compile (CharSet p)) false fuel (mkState i (u ++ rest) c) k
= Some z.
Proof.
revert i fuel. induction u as [|a u IH]; intros i fuel Hu Hf Hn Hk;
  (destruct fuel as [|f]; [simpl in Hf; lia|]); rewrite repeat_lazy_step.
- cbn [append]. simpl in Hk. rewrite Nat.add_0_r in Hk. now rewrite Hk.
- simpl in Hu. apply andb_prop in Hu as [Ha Hu].
  specialize (Hn "" (String a u) eq_refl) as Hn0.
  simpl in Hn0. rewrite Nat.add_0_r in Hn0. cbn [append].
  rewrite Hn0 by discriminate.
  rewrite compile_charset, Ha. cbn [endIndex]. rewrite succ_neq.
  apply IH; try assumption; [simpl in Hf; lia | |].
  + intros u1 u2 E Hne. specialize (Hn (String a u1) u2).
    simpl in Hn.
    replace (S i + String.length u1) with (i + S (String.length u1)) by lia.
    apply Hn; [now rewrite E | assumption].
  + simpl in Hk.
    now replace (S i + String.length u) with (i + S (String.length u)) by lia.
Qed.

End Repeat.

(* ================================================================= *)
(** ** The pattern of the argument, part by part *)

Lemma chr_match (a b : ascii) (i : nat) (s : string)
  (c : list (option string)) (k : Continuation) :
  Ascii.eqb (canonicalize a) (canonicalize b) = true ->
  compile (chr b) (mkState i (String a s) c) k = k (mkState (S i) s c).
Proof. intros H. unfold chr. now rewrite compile_charset, H. Qed.

Lemma plus_greedy_all (p : ascii -> bool) (q rest : string) (i : nat)
  (c : list (option string)) (k : Continuation) (z : MatchState) :
  q <> "" -> allChars p q = true -> firstChar p rest = false ->
  k (mkState (i + String.length q) rest c) = Some z ->
  compile (plus true (CharSet p)) (mkState i (q ++ rest) c) k = Some z.
Proof.
  destruct q as [|a q]; [contradiction|]. intros _ Hq Hrest Hk.
  simpl in Hq. apply andb_prop in Hq as [Ha Hq].
  unfold plus. rewrite compile_seq. cbn [append]. rewrite compile_charset, Ha.
  apply star_greedy_all; try assumption.
  simpl in Hk.
  now replace (S i + String.length q) with (i + S (String.length q)) by lia.
Qed.

Lemma plus_lazy_until (p : ascii -> bool) (u rest : string) (i : nat)
  (c : list (option string)) (k : Continuation) (z : MatchState) :
  u <> "" -> allChars p u = true ->
  (forall u1 u2, u = u1 ++ u2 -> u1 <> "" -> u2 <> "" ->
     k (mkState (i + String.length u1) (u2 ++ rest) c) = None) ->
  k (mkState (i + String.length u) rest c) = Some z ->
  compile (plus false (CharSet p)) (mkState i (u ++ rest) c) k = Some z.
Proof.
  destruct u as [|a u]; [contradiction|]. intros _ Hu Hn Hk.
  simpl in Hu. apply andb_prop in Hu as [Ha Hu].
  unfold plus. rewrite compile_seq. cbn [append]. rewrite compile_charset, Ha.
  cbn [compile remaining]. apply repeat_lazy_until; try assumption.
  - rewrite length_append. lia.
  - intros u1 u2 E Hne. specialize (Hn (String a u1) u2). simpl in Hn.
    replace (S i + String.length u1) with (i + S (String.length u1)) by lia.
    apply Hn; [now rewrite E | discriminate | assumption].
  - simpl in Hk.
    now replace (S i + String.length u) with (i + S (String.length u)) by lia.
Qed.

Lemma isTrimmed_first (s : string) :
  isTrimmed s = true -> firstChar isWhiteSpace s = false.
Proof.
  unfold isTrimmed. intros H. apply andb_prop in H as [H _].
  destruct s; [discriminate|]. simpl in *. now apply negb_true_iff in H.
Qed.

Lemma isTrimmed_nonempty (s : string) : isTrimmed s = true -> s <> "".
Proof. intros H E. subst. discriminate. Qed.

Lemma firstChar_app (p : ascii -> bool) (s t : string) :
  s <> "" -> firstChar p (s ++ t) = firstChar p s.
Proof. destruct s; [contradiction | reflexivity]. Qed.

(** The part of the query: the colon, and the query up to the end. *)
Lemma queryPart_match (i : nat) (w2 w3 q : string) (c : list (option string))
  (k : Continuation) (z : MatchState) :
  isBlank w2 = true -> isBlank w3 = true -> isQuery q = true ->
  k (mkState (S (i + String.length w2) + String.length w3 + String.length q)
       "" (setCapture 4 q c)) = Some z ->
  compile queryPart (mkState i (w2 ++ String ":" (w3 ++ q)) c) k = Some z.
Proof.
  intros H2 H3 Hq Hk. unfold isQuery in Hq. apply andb_prop in Hq as [Ht Hl].
  unfold queryPart, space, dot.
  rewrite compile_seq. apply star_greedy_all; [exact H2 | reflexivity|].
  rewrite compile_seq, chr_match by reflexivity.
  rewrite compile_seq. apply star_greedy_all;
    [exact H3 | now apply isTrimmed_first |].
  rewrite <- (append_nil_r q) at 1.
  rewrite compile_seq, compile_group.
  apply plus_greedy_all;
    [now apply isTrimmed_nonempty | exact Hl | reflexivity |].
  rewrite capture_app. cbn [compile remaining]. exact Hk.
Qed.

Lemma sameLetters_first (token : string) (b : ascii) (w : string) :
  sameLetters token (String b w) = true ->
  exists a t, token = String a t /\
              Ascii.eqb (canonicalize a) (canonicalize b) = true.
Proof.
  destruct token as [|a t]; [discriminate|]. simpl. intros H.
  apply andb_prop in H as [H _]. eauto.
Qed.

(** A token that has the letters of a word starts like the word does: with
    no white space, and with no other letter. *)
Lemma sameLetters_not_space (token : string) (b : ascii) (w rest : string) :
  sameLetters token (String b w) = true -> isWhiteSpace b = false ->
  firstChar isWhiteSpace (token ++ rest) = false.
Proof.
  intros H Hb. destruct (sameLetters_first _ _ _ H) as (a & t & -> & E).
  simpl. apply Ascii.eqb_eq in E.
  rewrite <- (canonicalize_space a), E, canonicalize_space. exact Hb.
Qed.

Lemma sameLetters_other (token : string) (b b' : ascii) (w rest : string) :
  sameLetters token (String b w) = true ->
  Ascii.eqb (canonicalize b) (canonicalize b') = false ->
  firstChar (fun a => Ascii.eqb (canonicalize a) (canonicalize b'))
    (token ++ rest) = false.
Proof.
  intros H Hb. destruct (sameLetters_first _ _ _ H) as (a & t & -> & E).
  simpl. apply Ascii.eqb_eq in E. now rewrite E.
Qed.

(** The part of the mode, on a token that is the word "linked". *)
Lemma modePart_linked (i : nat) (token rest : string)
  (c : list (option string)) (k : Continuation) (z : MatchState) :
  sameWord token "linked" = true ->
  k (mkState (i + String.length token) rest (setCapture 1 token c)) = Some z ->
  compile modePart (mkState i (token ++ rest) c) k = Some z.
Proof.
  intros Hw Hk. apply sameWord_letters in Hw; [|reflexivity].
  unfold modePart. rewrite compile_group.
  rewrite compile_alt_next
    by (apply lit_mismatch; now apply (sameLetters_other token "l" "p" "inked")).
  rewrite compile_alt_next
    by (apply lit_mismatch; now apply (sameLetters_other token "l" "e" "inked")).
  apply compile_alt_first.
  rewrite lit_match by (discriminate || assumption).
  rewrite capture_app. exact Hk.
Qed.

Lemma directionNamed_letters (dir : string) (d : Direction) :
  directionNamed dir = Some d ->
  match d with
  | Inward => sameLetters dir "inward" = true
  | Outward => sameLetters dir "outward" = true
  end.
Proof.
  unfold directionNamed.
  destruct (sameWord dir "inward") eqn:Ei.
  - intros H. injection H as <-. now apply sameWord_letters.
  - destruct (sameWord dir "outward") eqn:Eo; [|discriminate].
    intros H. injection H as <-. now apply sameWord_letters.
Qed.

(** The part of the arrow, on an arrow and a direction. *)
Lemma arrowPart_taken (i : nat) (v1 v2 dir rest : string) (d : Direction)
  (c : list (option string)) (k : Continuation) (z : MatchState) :
  isBlank v1 = true -> isBlank v2 = true -> directionNamed dir = Some d ->
  k (mkState (S (S (i + String.length v1)) + String.length v2 + String.length dir)
       rest (setCapture 3 dir c)) = Some z ->
  compile arrowPart
    (mkState i (v1 ++ String "-" (String ">" (v2 ++ dir ++ rest))) c) k = Some z.
Proof.
  intros H1 H2 Hd Hk. apply directionNamed_letters in Hd.
  unfold arrowPart, space. apply compile_opt_taken.
  rewrite compile_seq. apply star_greedy_all; [exact H1 | reflexivity|].
  rewrite compile_seq, chr_match by reflexivity.
  rewrite compile_seq, chr_match by reflexivity.
  rewrite compile_seq.
  assert (Hfirst : firstChar isWhiteSpace (dir ++ rest) = false).
  { destruct d; eapply sameLetters_not_space; try eassumption; reflexivity. }
  apply star_greedy_all; [exact H2 | exact Hfirst|].
  rewrite compile_group.
  assert (Hend : (S (S (i + String.length v1)) + String.length v2
                  + String.length dir =? i)%nat = false)
    by (apply Nat.eqb_neq; lia).
  destruct d.
  - apply compile_alt_first.
    rewrite lit_match by (discriminate || assumption).
    rewrite capture_app. cbn [endIndex]. now rewrite Hend.
  - rewrite compile_alt_next
      by (apply lit_mismatch; now apply (sameLetters_other dir "o" "i" "utward")).
    rewrite lit_match by (discriminate || assumption).
    rewrite capture_app. cbn [endIndex]. now rewrite Hend.
Qed.

Lemma space_not_dash (ch : ascii) :
  isWhiteSpace ch = true ->
  Ascii.eqb (canonicalize ch) (canonicalize "-") = false.
Proof.
  destruct ch as [[|] [|] [|] [|] [|] [|] [|] [|]]; vm_compute;
    intros H; try reflexivity; discriminate.
Qed.

Lemma space_not_bracket (ch : ascii) :
  isWhiteSpace ch = true ->
  Ascii.eqb (canonicalize ch) (canonicalize "]") = false.
Proof.
  destruct ch as [[|] [|] [|] [|] [|] [|] [|] [|]]; vm_compute;
    intros H; try reflexivity; discriminate.
Qed.

Lemma space_in_class (ch : ascii) :
  isWhiteSpace ch = true ->
  negb (Ascii.eqb ch "]" || Ascii.eqb ch "-") = true.
Proof.
  destruct ch as [[|] [|] [|] [|] [|] [|] [|] [|]]; vm_compute;
    intros H; try reflexivity; discriminate.
Qed.

Lemma class_not_dash (ch : ascii) :
  negb (Ascii.eqb ch "]" || Ascii.eqb ch "-") = true ->
  Ascii.eqb (canonicalize ch) (canonicalize "-") = false.
Proof.
  destruct ch as [[|] [|] [|] [|] [|] [|] [|] [|]]; vm_compute;
    intros H; try reflexivity; discriminate.
Qed.

Lemma class_not_bracket (ch : ascii) :
  negb (Ascii.eqb ch "]" || Ascii.eqb ch "-") = true ->
  Ascii.eqb (canonicalize ch) (canonicalize "]") = false.
Proof.
  destruct ch as [[|] [|] [|] [|] [|] [|] [|] [|]]; vm_compute;
    intros H; try reflexivity; discriminate.
Qed.

(** White space and then a hyphen or a closing bracket: no match when the
    white space ends on another character. *)
Lemma spaces_then_chr_fails (b : ascii) (r : regex) (w : string) (d : ascii)
  (rest : string) (i : nat) (c : list (option string)) (k : Continuation) :
  (forall ch, isWhiteSpace ch = true ->
              Ascii.eqb (canonicalize ch) (canonicalize b) = false) ->
  isBlank w = true -> isWhiteSpace d = false ->
  Ascii.eqb (canonicalize d) (canonicalize b) = false ->
  compile (Star true space ++ chr b ++ r) (mkState i (w ++ String d rest) c) k
  = None.
Proof.
  intros Hb Hw Hd Hdb. rewrite compile_seq.
  exact (star_then_fails isWhiteSpace
           (fun ch => Ascii.eqb (canonicalize ch) (canonicalize b))
           w d rest i c (fun y => compile r y k) Hb Hw Hd Hdb).
Qed.

Lemma spaces_then_last_chr_fails (b : ascii) (w : string) (d : ascii)
  (rest : string) (i : nat) (c : list (option string)) (k : Continuation) :
  (forall ch, isWhiteSpace ch = true ->
              Ascii.eqb (canonicalize ch) (canonicalize b) = false) ->
  isBlank w = true -> isWhiteSpace d = false ->
  Ascii.eqb (canonicalize d) (canonicalize b) = false ->
  compile (Star true space ++ chr b) (mkState i (w ++ String d rest) c) k
  = None.
Proof.
  intros Hb Hw Hd Hdb. rewrite compile_seq.
  exact (star_then_fails isWhiteSpace
           (fun ch => Ascii.eqb (canonicalize ch) (canonicalize b))
           w d rest i c k Hb Hw Hd Hdb).
Qed.

(** The part of the arrow, on a closing bracket. *)
Lemma arrowPart_skipped (i : nat) (v1 rest : string)
  (c : list (option string)) (k : Continuation) :
  isBlank v1 = true ->
  compile arrowPart (mkState i (v1 ++ String "]" rest) c) k =
  k (mkState i (v1 ++ String "]" rest) c).
Proof.
  intros H1. unfold arrowPart. apply compile_opt_skipped.
  apply spaces_then_chr_fails;
    [exact space_not_dash | exact H1 | reflexivity | reflexivity].
Qed.

Lemma allChars_app (p : ascii -> bool) (s t : string) :
  allChars p (s ++ t) = allChars p s && allChars p t.
Proof.
  induction s as [|a s IH]; simpl; [reflexivity|].
  now rewrite IH, andb_assoc.
Qed.

Lemma lastChar_suffix (p : ascii -> bool) (s t : string) :
  t <> "" -> lastChar p (s ++ t) = lastChar p t.
Proof.
  intros Ht. induction s as [|a s IH]; [reflexivity|].
  simpl append. destruct (s ++ t) eqn:E.
  - destruct s; simpl in E; [contradiction | discriminate].
  - exact IH.
Qed.

(** A text that ends on a character other than white space starts with white
    space and such a character. *)
Lemma leading_space_split (u : string) :
  lastChar (fun ch => negb (isWhiteSpace ch)) u = true ->
  exists w d r,
    u = w ++ String d r /\ isBlank w = true /\ isWhiteSpace d = false.
Proof.
  induction u as [|a u IH]; [discriminate|]. intros H.
  destruct (isWhiteSpace a) eqn:Ea.
  - destruct u as [|a' u'].
    + simpl in H. rewrite Ea in H. discriminate.
    + destruct (IH H) as (w & d & r & E & Hw & Hd).
      exists (String a w), d, r. split; [simpl; now rewrite E|].
      split; [|exact Hd]. unfold isBlank. simpl. rewrite Ea. exact Hw.
  - exists "", a, u. repeat split. exact Ea.
Qed.

(** The end of the filter, from the arrow on, matches nothing at a place
    where the hint goes on. *)
Lemma closing_fails (u rest : string) (i : nat) (c : list (option string))
  (k : Continuation) :
  lastChar (fun ch => negb (isWhiteSpace ch)) u = true ->
  allChars (fun ch => negb (Ascii.eqb ch "]" || Ascii.eqb ch "-")) u = true ->
  compile (arrowPart ++ Star true space ++ chr "]") (mkState i (u ++ rest) c) k
  = None.
Proof.
  intros Hl Hc. destruct (leading_space_split u Hl) as (w & d & r & E & Hw & Hd).
  subst u. rewrite allChars_app in Hc. apply andb_prop in Hc as [_ Hc].
  simpl in Hc. apply andb_prop in Hc as [Hc _].
  rewrite append_assoc. cbn [append].
  rewrite compile_seq. unfold arrowPart.
  rewrite compile_opt_skipped.
  - apply spaces_then_last_chr_fails;
      [exact space_not_bracket | exact Hw | exact Hd | now apply class_not_bracket].
  - apply spaces_then_chr_fails;
      [exact space_not_dash | exact Hw | exact Hd | now apply class_not_dash].
Qed.

(** The end of the filter, on a closing bracket. *)
Lemma closing_plain (i : nat) (v1 rest : string) (c : list (option string))
  (k : Continuation) (z : MatchState) :
  isBlank v1 = true ->
  k (mkState (S (i + String.length v1)) rest c) = Some z ->
  compile (arrowPart ++ Star true space ++ chr "]")
    (mkState i (v1 ++ String "]" rest) c) k = Some z.
Proof.
  intros H1 Hk. rewrite compile_seq, arrowPart_skipped by exact H1.
  rewrite compile_seq. unfold space.
  apply star_greedy_all; [exact H1 | reflexivity|].
  now rewrite chr_match by reflexivity.
Qed.

(** The end of the filter, on an arrow, a direction and a closing bracket. *)
Lemma closing_arrow (i : nat) (v1 v2 dir v3 rest : string) (d : Direction)
  (c : list (option string)) (k : Continuation) (z : MatchState) :
  isBlank v1 = true -> isBlank v2 = true -> isBlank v3 = true ->
  directionNamed dir = Some d ->
  k (mkState (S (S (S (i + String.length v1)) + String.length v2
                 + String.length dir + String.length v3))
       rest (setCapture 3 dir c)) = Some z ->
  compile (arrowPart ++ Star true space ++ chr "]")
    (mkState i (v1 ++ String "-" (String ">" (v2 ++ dir ++ v3 ++ String "]" rest))) c)
    k = Some z.
Proof.
  intros H1 H2 H3 Hd Hk. rewrite compile_seq.
  apply (arrowPart_taken i v1 v2 dir _ d); try assumption.
  rewrite compile_seq. unfold space.
  apply star_greedy_all; [exact H3 | reflexivity|].
  now rewrite chr_match by reflexivity.
Qed.

(** The filter between the brackets, on a hint. *)
Lemma filter_hint (i : nat) (w1 v0 hint tail : string)
  (c : list (option string)) (k : Continuation) (z : MatchState) :
  isBlank w1 = true -> isBlank v0 = true -> isHint hint = true ->
  compile (arrowPart ++ Star true space ++ chr "]")
    (mkState (S (i + String.length w1) + String.length v0 + String.length hint)
       tail (setCapture 2 hint c)) k = Some z ->
  compile (Star true space ++ chr "[" ++ Star true space ++
           Group 2 (plus false notBracketDash) ++
           arrowPart ++ Star true space ++ chr "]")
    (mkState i (w1 ++ String "[" (v0 ++ hint ++ tail)) c) k = Some z.
Proof.
  intros Hw Hv Hh Hk. unfold isHint in Hh. apply andb_prop in Hh as [Ht Hc].
  assert (Hne : hint <> "") by now apply isTrimmed_nonempty.
  unfold space at 1 2.
  rewrite compile_seq. apply star_greedy_all; [exact Hw | reflexivity|].
  rewrite compile_seq, chr_match by reflexivity.
  rewrite compile_seq. apply star_greedy_all; [exact Hv | |].
  { rewrite firstChar_app by exact Hne. now apply isTrimmed_first. }
  rewrite compile_seq, compile_group. unfold notBracketDash.
  apply plus_lazy_until; [exact Hne | exact Hc | |].
  - intros u1 u2 E Hu1 Hu2. unfold capture. cbn [endIndex remaining captures].
    apply closing_fails.
    + unfold isTrimmed in Ht. apply andb_prop in Ht as [_ Ht].
      rewrite E in Ht. now rewrite lastChar_suffix in Ht.
    + rewrite E, allChars_app in Hc. now apply andb_prop in Hc as [_ Hc].
  - rewrite capture_app. exact Hk.
Qed.

(** The filter between the brackets, on white space before an arrow: the
    pattern takes the last character of the white space for the hint. *)
Lemma filter_blank (i : nat) (w1 v0 : string) (a : ascii) (tail : string)
  (c : list (option string)) (k : Continuation) (z : MatchState) :
  isBlank w1 = true -> isBlank v0 = true -> isWhiteSpace a = true ->
  compile (arrowPart ++ Star true space ++ chr "]")
    (mkState (S (S (i + String.length w1) + String.length v0))
       (String "-" tail) (setCapture 2 (String a "") c)) k = Some z ->
  compile (Star true space ++ chr "[" ++ Star true space ++
           Group 2 (plus false notBracketDash) ++
           arrowPart ++ Star true space ++ chr "]")
    (mkState i (w1 ++ String "[" (v0 ++ String a (String "-" tail))) c) k = Some z.
Proof.
  intros Hw Hv Ha Hk.
  unfold space at 1 2.
  rewrite compile_seq. apply star_greedy_all; [exact Hw | reflexivity|].
  rewrite compile_seq, chr_match by reflexivity.
  rewrite compile_seq.
  apply star_greedy_back; [exact Hv | exact Ha | reflexivity | |].
  - rewrite compile_seq, compile_group. unfold plus, notBracketDash.
    rewrite compile_seq. apply compile_charset_fails. reflexivity.
  - rewrite compile_seq, compile_group. unfold notBracketDash.
    change (String a (String "-" tail)) with (String a "" ++ String "-" tail).
    apply plus_lazy_until.
    + discriminate.
    + simpl. rewrite (space_in_class a Ha). reflexivity.
    + intros u1 u2 E Hu1 Hu2. exfalso.
      destruct u1 as [|b u1]; [contradiction|].
      destruct u1; destruct u2; simpl in E; try discriminate; contradiction.
    + rewrite capture_app. cbn [String.length].
      replace (S (i + String.length w1) + String.length v0 + 1)
        with (S (S (i + String.length w1) + String.length v0)) by lia.
      exact Hk.
Qed.

Lemma compile_start (s : string) (c : list (option string))
  (k : Continuation) :
  compile AssertStart (mkState 0 s c) k = k (mkState 0 s c).
Proof. reflexivity. Qed.

Lemma regExpExecFrom_first (m : Matcher) (ncap i : nat) (s : string)
  (y : MatchState) :
  m (mkState i s (repeat None ncap)) (fun y => Some y) = Some y ->
  regExpExecFrom m ncap i s = Some y.
Proof. intros H. destruct s; simpl; now rewrite H. Qed.

(** The whole pattern on a text that starts with the word "linked": when
    the parts of the filter and of the query match up to the end, so does the
    pattern, with the captures they made. *)
Lemma argPattern_linked (token rest : string) (j : nat)
  (caps : list (option string)) :
  sameWord token "linked" = true ->
  (forall k z,
     k (mkState j "" caps) = Some z ->
     compile (filterPart ++ queryPart)
       (mkState (String.length token) rest
          (setCapture 1 token (repeat None 5))) k = Some z) ->
  exists whole,
    stringMatch argPattern 5 (token ++ rest) = Some (setCapture 0 whole caps).
Proof.
  intros Hw H.
  assert (E : compile (Group 0 argPattern)
                (mkState 0 (token ++ rest) (repeat None 5)) (fun y => Some y)
              = Some (mkState j ""
                        (setCapture 0 (substring 0 (j - 0) (token ++ rest)) caps))).
  { rewrite compile_group. unfold argPattern. rewrite compile_seq.
    rewrite compile_start, compile_seq.
    apply modePart_linked; [exact Hw|].
    apply H. reflexivity. }
  eexists. unfold stringMatch.
  rewrite (regExpExecFrom_first _ _ _ _ _ E). reflexivity.
Qed.

(* ================================================================= *)
(** ** The argument parser *)

(** What [parseArg] makes of the captures of a match in the linked mode. *)
Lemma parseArg_of_captures (raw : option string)
  (s whole token g2 : string) (o3 : option string) (query : string) :
  trim (orEmpty raw) = s -> s <> "" ->
  stringMatch argPattern 5 s
  = Some [Some whole; Some token; Some g2; o3; Some query] ->
  sameWord token "linked" = true ->
  parseArg raw =
  mkParsedArg "linked"
    (if negb (trim g2 =? "") || negb (toLowerCase (orEmpty o3) =? "")
     then Some (mkLinkFilter (Some (trim g2))
                  (if toLowerCase (orEmpty o3) =? "inward" then Some Inward
                   else if toLowerCase (orEmpty o3) =? "outward" then Some Outward
                   else None))
     else None)
    (trim query).
Proof.
  intros Et Hne Hm Hw. unfold parseArg. rewrite Et.
  apply String.eqb_neq in Hne. rewrite Hne, Hm.
  unfold sameWord in Hw. apply String.eqb_eq in Hw.
  cbn [group nth orEmpty]. rewrite Hw. reflexivity.
Qed.

Lemma directionNamed_lower (dir : string) (d : Direction) :
  directionNamed dir = Some d ->
  toLowerCase dir = match d with Inward => "inward" | Outward => "outward" end.
Proof.
  unfold directionNamed, sameWord.
  destruct (String.eqb_spec (toLowerCase dir) "inward") as [E|E].
  - intros H. injection H as <-. exact E.
  - destruct (String.eqb_spec (toLowerCase dir) "outward") as [E'|E'];
      [|discriminate].
    intros H. injection H as <-. exact E'.
Qed.

(** The text of the argument without the white space around it. *)
Lemma linkedArg_trim (w0 token w1 filter w2 w3 query w4 : string) :
  isBlank w0 = true -> isBlank w4 = true ->
  sameWord token "linked" = true -> isQuery query = true ->
  trim (linkedArg w0 token w1 filter w2 w3 query w4)
  = token ++ w1 ++ String "[" (filter ++ String "]" (w2 ++ String ":" (w3 ++ query)))
  /\ token ++ w1 ++ String "[" (filter ++ String "]" (w2 ++ String ":" (w3 ++ query)))
     <> "".
Proof.
  intros H0 H4 Hw Hq.
  apply sameWord_letters in Hw; [|reflexivity].
  destruct (sameLetters_first _ _ _ Hw) as (a & t & -> & Ea).
  split; [|discriminate].
  set (s := String a t ++ w1 ++
            String "[" (filter ++ String "]" (w2 ++ String ":" (w3 ++ query)))).
  replace (linkedArg w0 (String a t) w1 filter w2 w3 query w4)
    with (w0 ++ s ++ w4).
  - apply trim_around; try assumption.
    unfold isTrimmed. apply andb_true_intro. split.
    + simpl. apply negb_true_iff. apply Ascii.eqb_eq in Ea.
      rewrite <- (canonicalize_space a), Ea. reflexivity.
    + unfold s.
      change (String a t ++ w1 ++
              String "[" (filter ++ String "]" (w2 ++ String ":" (w3 ++ query))))
        with (String a t ++ w1 ++ "[" ++ filter ++ "]" ++ w2 ++ ":" ++ w3 ++ query).
      rewrite <- !append_assoc. apply lastChar_app.
      unfold isQuery, isTrimmed in Hq.
      apply andb_prop in Hq as [Hq _]. now apply andb_prop in Hq as [_ Hq].
  - unfold s, linkedArg.
    repeat (progress (rewrite ?append_assoc; cbn [append])). reflexivity.
Qed.

Ltac normalize_text :=
  unfold hintOnly, hintAndDirection, directionOnly;
  repeat (progress (rewrite ?append_assoc; cbn [append])).

Ltac past_start :=
  cbn [endIndex];
  match goal with
  | |- context [(?a =? ?b)%nat] =>
      replace (a =? b)%nat with false by (symmetry; apply Nat.eqb_neq; lia)
  end.

Section LinkedForms.

Variables token w1 w2 w3 query : string.
Hypothesis Htoken : sameWord token "linked" = true.
Hypothesis Hw1 : isBlank w1 = true.
Hypothesis Hw2 : isBlank w2 = true.
Hypothesis Hw3 : isBlank w3 = true.
Hypothesis Hquery : isQuery query = true.

(** The match of the form [[ hint ]]. *)
Lemma match_hintOnly (v0 hint v1 : string) :
isBlank v0 = true -> isBlank v1 = true -> isHint hint = true ->
exists whole,
  stringMatch argPattern 5
    (token ++ w1 ++
     String "[" (hintOnly v0 hint v1 ++
                 String "]" (w2 ++ String ":" (w3 ++ query))))
  = Some [Some whole; Some token; Some hint; None; Some query].
Proof.
intros Hv0 Hv1 Hh. normalize_text.
match goal with
| |- context [stringMatch _ _ (token ++ ?rest)] =>
    edestruct (argPattern_linked token rest) as [whole E]; [exact Htoken | |]
end.
- intros k z Hk. rewrite compile_seq. unfold filterPart.
  apply compile_opt_taken.
  apply filter_hint; try assumption.
  apply closing_plain; [assumption|].
  past_start.
  apply queryPart_match; try assumption. exact Hk.
- exists whole. exact E.
Qed.

(** The match of the form [[ hint -> direction ]]. *)
Lemma match_hintAndDirection (v0 hint v1 v2 dir v3 : string) (d : Direction) :
isBlank v0 = true -> isBlank v1 = true -> isBlank v2 = true ->
isBlank v3 = true -> isHint hint = true -> directionNamed dir = Some d ->
exists whole,
  stringMatch argPattern 5
    (token ++ w1 ++
     String "[" (hintAndDirection v0 hint v1 v2 dir v3 ++
                 String "]" (w2 ++ String ":" (w3 ++ query))))
  = Some [Some whole; Some token; Some hint; Some dir; Some query].
Proof.
intros Hv0 Hv1 Hv2 Hv3 Hh Hd. normalize_text.
match goal with
| |- context [stringMatch _ _ (token ++ ?rest)] =>
    edestruct (argPattern_linked token rest) as [whole E]; [exact Htoken | |]
end.
- intros k z Hk. rewrite compile_seq. unfold filterPart.
  apply compile_opt_taken.
  apply filter_hint; try assumption.
  apply (closing_arrow _ v1 v2 dir v3 _ d); try assumption.
  past_start.
  apply queryPart_match; try assumption. exact Hk.
- exists whole. exact E.
Qed.

Lemma blank_split_last (v : string) :
v <> "" -> isBlank v = true ->
exists v' a, v = v' ++ String a "" /\ isBlank v' = true /\
             isWhiteSpace a = true.
Proof.
induction v as [|b v IH]; [contradiction|]. intros _ H.
unfold isBlank in H. simpl in H. apply andb_prop in H as [Hb Hv].
destruct v as [|b' v'].
- exists "", b. repeat split. exact Hb.
- destruct IH as (v'' & a & E & Hv'' & Ha); [discriminate | exact Hv|].
  exists (String b v''), a. split; [simpl; now rewrite E|].
  split; [|exact Ha]. unfold isBlank. simpl. now rewrite Hb.
Qed.

(** The match of the form [[ -> direction ]], with white space before the
  arrow: its last character is what the second group captures. *)
Lemma match_directionOnly (v0 v2 dir v3 : string) (d : Direction) :
v0 <> "" -> isBlank v0 = true -> isBlank v2 = true ->
isBlank v3 = true -> directionNamed dir = Some d ->
exists whole a,
  isWhiteSpace a = true /\
  stringMatch argPattern 5
    (token ++ w1 ++
     String "[" (directionOnly v0 v2 dir v3 ++
                 String "]" (w2 ++ String ":" (w3 ++ query))))
  = Some [Some whole; Some token; Some (String a ""); Some dir; Some query].
Proof.
intros Hne Hv0 Hv2 Hv3 Hd.
destruct (blank_split_last v0 Hne Hv0) as (v' & a & -> & Hv' & Ha).
normalize_text.
match goal with
| |- context [stringMatch _ _ (token ++ ?rest)] =>
    edestruct (argPattern_linked token rest) as [whole E]; [exact Htoken | |]
end.
- intros k z Hk. rewrite compile_seq. unfold filterPart.
  apply compile_opt_taken.
  apply filter_blank; try assumption.
  apply (closing_arrow _ "" v2 dir v3 _ d); try assumption; [reflexivity|].
  past_start.
  apply queryPart_match; try assumption. exact Hk.
- exists whole, a. split; [exact Ha | exact E].
Qed.

End LinkedForms.

(** C4, as the claim states it, fails: the form [[ -> direction ]] is not
    taken when the arrow comes right after the bracket, and a hint is not any
    free text, for one with a hyphen is not taken; in both cases the whole
    argument becomes the inner query, with no filter. *)
Lemma filter_forms_refused :
  directionNamed "inward" = Some Inward /\
  parseArg
    (Some (linkedArg "" "linked" "" (directionOnly "" "" "inward" "") "" " "
             "project = ABC" ""))
  = mkParsedArg "linked" None "linked[->inward]: project = ABC" /\
  parseArg (Some "linked[is-blocked-by]: project = ABC")
  = mkParsedArg "linked" None "linked[is-blocked-by]: project = ABC".
Proof. repeat split; vm_compute; reflexivity. Qed.

(** C4, amended.  In the linked mode the parser takes the filter forms
    [[ hint ]] and [[ hint -> direction ]], and the form [[ -> direction ]]
    when white space stands between the bracket and the arrow; the direction
    is "inward" or "outward" in any letter case, and the hint is a text, not
    empty, without a closing bracket and without a hyphen.  The filter parsed
    has the hint trimmed (empty in the third form) and the direction in lower
    case, and white space around any of the tokens changes nothing. *)
Theorem parseArg_linked_filter
  (w0 token w1 w2 w3 query w4 v0 hint v1 v2 dir v3 : string) (d : Direction) :
  forallb isBlank [w0; w1; w2; w3; w4; v0; v1; v2; v3] = true ->
  sameWord token "linked" = true ->
  isHint hint = true ->
  directionNamed dir = Some d ->
  isQuery query = true ->
  parseArg (Some (linkedArg w0 token w1 (hintOnly v0 hint v1) w2 w3 query w4))
  = mkParsedArg "linked" (Some (mkLinkFilter (Some hint) None)) query /\
  parseArg (Some (linkedArg w0 token w1 (hintAndDirection v0 hint v1 v2 dir v3)
                    w2 w3 query w4))
  = mkParsedArg "linked" (Some (mkLinkFilter (Some hint) (Some d))) query /\
  (v0 <> "" ->
   parseArg (Some (linkedArg w0 token w1 (directionOnly v0 v2 dir v3)
                     w2 w3 query w4))
   = mkParsedArg "linked" (Some (mkLinkFilter (Some "") (Some d))) query).
Proof.
  intros Hb Htoken Hhint Hdir Hquery.
  cbn [forallb] in Hb. rewrite !andb_true_iff in Hb.
  destruct Hb as (H0 & H1 & H2 & H3 & H4 & Hv0 & Hv1 & Hv2 & Hv3 & _).
  assert (Hq : trim query = query).
  { apply trim_trimmed. unfold isQuery in Hquery.
    now apply andb_prop in Hquery as [Hquery _]. }
  assert (Hh : trim hint = hint /\ (hint =? "") = false).
  { unfold isHint in Hhint. apply andb_prop in Hhint as [Ht _]. split.
    - now apply trim_trimmed.
    - apply String.eqb_neq. now apply isTrimmed_nonempty. }
  destruct Hh as [Hh Hhne].
  pose proof (directionNamed_lower dir d Hdir) as Hlow.
  split; [|split; [|intros Hne]].
  - destruct (linkedArg_trim w0 token w1 (hintOnly v0 hint v1) w2 w3 query w4
                H0 H4 Htoken Hquery) as [Et Hs].
    destruct (match_hintOnly token w1 w2 w3 query Htoken H1 H2 H3 Hquery
                v0 hint v1 Hv0 Hv1 Hhint) as [whole Hm].
    rewrite (parseArg_of_captures (Some _) _ whole token hint None query Et Hs Hm Htoken).
    rewrite Hh, Hhne, Hq. reflexivity.
  - destruct (linkedArg_trim w0 token w1 (hintAndDirection v0 hint v1 v2 dir v3)
                w2 w3 query w4 H0 H4 Htoken Hquery) as [Et Hs].
    destruct (match_hintAndDirection token w1 w2 w3 query Htoken H1 H2 H3 Hquery
                v0 hint v1 v2 dir v3 d Hv0 Hv1 Hv2 Hv3 Hhint Hdir) as [whole Hm].
    rewrite (parseArg_of_captures (Some _) _ whole token hint (Some dir) query
               Et Hs Hm Htoken).
    rewrite Hh, Hhne, Hq. cbn [orEmpty]. rewrite Hlow. destruct d; reflexivity.
  - destruct (linkedArg_trim w0 token w1 (directionOnly v0 v2 dir v3)
                w2 w3 query w4 H0 H4 Htoken Hquery) as [Et Hs].
    destruct (match_directionOnly token w1 w2 w3 query Htoken H1 H2 H3 Hquery
                v0 v2 dir v3 d Hne Hv0 Hv2 Hv3 Hdir) as (whole & a & Ha & Hm).
    rewrite (parseArg_of_captures (Some _) _ whole token (String a "") (Some dir) query
               Et Hs Hm Htoken).
    assert (Ea : trim (String a "") = "").
    { apply trim_blank. unfold isBlank. simpl. now rewrite Ha. }
    rewrite Ea, Hq. cbn [orEmpty]. rewrite Hlow. destruct d; reflexivity.
Qed.

Lemma parseArg_linked_filter_witness :
  parseArg (Some "  Linked [ is blocked by   -> INWARD ] :  project = ABC ")
  = mkParsedArg "linked"
      (Some (mkLinkFilter (Some "is blocked by") (Some Inward)))
      "project = ABC" /\
  parseArg (Some "  Linked [ -> INWARD ] :  project = ABC ")
  = mkParsedArg "linked" (Some (mkLinkFilter (Some "") (Some Inward)))
      "project = ABC".
Proof.
  destruct (parseArg_linked_filter "  " "Linked" " " " " "  " "project = ABC" " "
              " " "is blocked by" "   " " " "INWARD" " " Inward
              eq_refl eq_refl eq_refl eq_refl eq_refl) as (_ & H2 & H3).
  split; [exact H2|].
  apply H3. discriminate.
Defined.

(* ================================================================= *)
(** ** The resolution from end to end *)

Lemma extractLinkedIssueKeys_NoDup (issues : list Issue)
  (lf : option LinkFilter) :
  NoDup (extractLinkedIssueKeys issues lf).
Proof.
  unfold extractLinkedIssueKeys. cbv zeta.
  apply fold_step_NoDup; [|constructor].
  intros out i Hout. apply fold_step_NoDup; [|exact Hout].
  intros out' l Hout'.
  repeat match goal with
         | |- NoDup (if ?b then _ else _) => destruct b
         | |- NoDup (setAdd _ _) => apply setAdd_NoDup
         end; assumption.
Qed.

Lemma extractParentKeys_NoDup (issues : list Issue) :
  NoDup (extractParentKeys issues).
Proof.
  unfold extractParentKeys. apply fold_step_NoDup; [|constructor].
  intros out i Hout. cbv zeta.
  destruct (truthy _); [now apply setAdd_NoDup | assumption].
Qed.

Lemma extractParentEpicKeys_NoDup (issues : list Issue) :
  NoDup (extractParentEpicKeys issues).
Proof.
  unfold extractParentEpicKeys. apply fold_step_NoDup; [|constructor].
  intros out i Hout. destruct (parentOf i) as [p|]; [|assumption].
  destruct (negb (truthy (parent_key p))); [assumption|]. cbv zeta.
  match goal with
  | |- NoDup (if ?b then _ else _) => destruct b
  end; [now apply setAdd_NoDup | assumption].
Qed.

Lemma extractSubtaskKeys_NoDup (issues : list Issue) :
  NoDup (extractSubtaskKeys issues).
Proof.
  unfold extractSubtaskKeys. apply fold_step_NoDup; [|constructor].
  intros out i Hout. apply fold_step_NoDup; [|exact Hout].
  intros out' s Hout'.
  destruct (truthy (ref_key s)); [now apply setAdd_NoDup | assumption].
Qed.

(** A resolution that retrieves its seed items returns the fragment built
    from the first 1000 keys extracted, negated unless the operator is "in". *)
Lemma issuesWithText_success (svc : Service) (args : option Invocation)
  (log log' : list Request) (seedIssues : list Issue) :
  let clause := match args with Some a => clause a | None => None end in
  let p := parseArg (arg0Of clause) in
  let keys :=
    if mode p =? "parent" then extractParentKeys seedIssues
    else if mode p =? "epic-of" then extractParentEpicKeys seedIssues
    else if mode p =? "subtask" then extractSubtaskKeys seedIssues
    else extractLinkedIssueKeys seedIssues (linkFilter p) in
  innerJql p <> "" ->
  searchSeedIssues svc (innerJql p) wantedFields (Some 4) (Some 100%Z) log
  = (Ok seedIssues, log') ->
  NoDup keys /\
  issuesWithText svc args log =
  (mkFragment (buildIssueKeySetJql (Some (firstn 1000 keys))
                 (negb (operatorOf clause =? "in"))), log').
Proof.
  intros clause p keys Hne Hs.
  assert (Hk : NoDup keys).
  { unfold keys.
    destruct (mode p =? "parent"); [apply extractParentKeys_NoDup|].
    destruct (mode p =? "epic-of"); [apply extractParentEpicKeys_NoDup|].
    destruct (mode p =? "subtask"); [apply extractSubtaskKeys_NoDup|].
    apply extractLinkedIssueKeys_NoDup. }
  split; [exact Hk|].
  unfold issuesWithText, resolve. fold clause. fold p.
  apply String.eqb_neq in Hne. rewrite Hne.
  unfold bind. rewrite Hs. unfold ret. fold keys.
  destruct (limitedKeys_capped keys Hk) as [E _]. now rewrite E.
Qed.

(** Scenario C of the specification: a parent named "Epic" is collected, a
    parent named "Story" at hierarchy level 0 is not. *)
Example scenario_epic_parent :
  extractParentEpicKeys
    [mkIssue (Some "T-1")
       (Some (mkFields None
                (Some (mkParent (Some "E-1")
                         (Some (mkParentFields
                                  (Some (mkIssueType None (Some "Epic")))))))
                None));
     mkIssue (Some "T-2")
       (Some (mkFields None
                (Some (mkParent (Some "S-1")
                         (Some (mkParentFields
                                  (Some (mkIssueType (Some 0%Z) (Some "Story")))))))
                None))]
  = ["E-1"].
Proof. vm_compute. reflexivity. Qed.

(** Scenario A of the specification: a seed item with one outward link. *)
Example scenario_outward_link :
  issuesWithText serviceOneSeed (invoke (Some "in") "linked: issuekey = ABC-1") []
  = (mkFragment "issuekey in ('XYZ-9')",
     [PostSearchJql "issuekey = ABC-1" 100 wantedFields None]).
Proof. vm_compute. reflexivity. Qed.

(** Scenario B of the specification: only the outward side of the links of
    the type asked for. *)
Example scenario_filtered_link :
  extractLinkedIssueKeys
    [mkIssue (Some "ABC-1")
       (Some (mkFields
                (Some [mkLink (Some (mkLinkType (Some "Blocks")
                                       (Some "is blocked by") (Some "blocks")))
                              (Some (mkRef (Some "OUT-1"))) None;
                       mkLink (Some (mkLinkType (Some "Blocks")
                                       (Some "is blocked by") (Some "blocks")))
                              None (Some (mkRef (Some "IN-1")));
                       mkLink (Some (mkLinkType (Some "Relates")
                                       (Some "relates to") (Some "relates to")))
                              (Some (mkRef (Some "REL-1"))) None])
                None None))]
    (linkFilter (parseArg (Some "linked[blocks->outward]: project = ABC")))
  = ["OUT-1"].
Proof. vm_compute. reflexivity. Qed.

(* ================================================================= *)
(** ** More on the relationship extractors *)

Lemma fold_left_pointwise {A B : Type} (f g : A -> B -> A) :
  (forall a b, f a b = g a b) ->
  forall l a, fold_left f l a = fold_left g l a.
Proof.
  intros H l. induction l as [|b l IH]; intros a; simpl; [reflexivity|].
  now rewrite H, IH.
Qed.

Lemma fold_step_incl {X : Type} (f g : JSet -> X -> JSet) :
  (forall o o' x, incl o o' -> incl (f o x) (g o' x)) ->
  forall l o o', incl o o' -> incl (fold_left f l o) (fold_left g l o').
Proof.
  intros H l. induction l as [|x l IH]; intros o o' Ho; simpl; [exact Ho|].
  apply IH. now apply H.
Qed.

(** X1. The parent extractor collects exactly the keys, not empty, of the
    parents of the seed items, whatever the type of the parent. *)
Theorem extractParentKeys_spec (issues : list Issue) (k : string) :
  In k (extractParentKeys issues) <->
  exists i p,
    In i issues /\ parentOf i = Some p /\ parent_key p = Some k /\ k <> "".
Proof.
  unfold extractParentKeys.
  rewrite (fold_step_In _
             (fun i k => exists p, parentOf i = Some p /\
                                   parent_key p = Some k /\ k <> "")).
  - split.
    + intros [[]|(i & Hi & p & H)]. exists i, p. tauto.
    + intros (i & p & Hi & H). right. exists i. split; [assumption|].
      exists p. exact H.
  - clear k. intros out i k. cbv zeta.
    destruct (parentOf i) as [p|].
    + destruct (truthy (parent_key p)) eqn:Et.
      * rewrite setAdd_In. split.
        -- intros [H|H]; [now left|]. right. exists p.
           split; [reflexivity|]. apply truthy_Some. auto.
        -- intros [H|(p' & E & Hk)]; [now left|]. right.
           injection E as <-. symmetry. now apply truthy_Some in Hk as [_ Hk].
      * split; [tauto|]. intros [H|(p' & E & Hk)]; [exact H|].
        injection E as <-. apply truthy_Some in Hk as [Hk _]. congruence.
    + simpl. split; [tauto|]. intros [H|(p' & E & _)]; [exact H|discriminate].
Qed.

(** X2. The subtask extractor collects exactly the keys, not empty, of the
    subtask references of the seed items. *)
Theorem extractSubtaskKeys_spec (issues : list Issue) (k : string) :
  In k (extractSubtaskKeys issues) <->
  exists i s,
    In i issues /\ In s (subtasksOf i) /\ ref_key s = Some k /\ k <> "".
Proof.
  unfold extractSubtaskKeys.
  rewrite (fold_step_In _
             (fun i k => exists s, In s (subtasksOf i) /\
                                   ref_key s = Some k /\ k <> "")).
  - split.
    + intros [[]|(i & Hi & s & H)]. exists i, s. tauto.
    + intros (i & s & Hi & H). right. exists i. split; [assumption|].
      exists s. exact H.
  - clear k. intros out i k.
    apply (fold_step_In _ (fun s k => ref_key s = Some k /\ k <> "")).
    clear out i k.
    intros out s k. destruct (truthy (ref_key s)) eqn:Et.
    + rewrite setAdd_In, <- truthy_Some. rewrite Et. intuition.
    + rewrite <- truthy_Some. rewrite Et. intuition congruence.
Qed.

(** X3. Every key the epic extractor collects, the parent extractor collects
    too: the epic mode narrows the parent mode. *)
Theorem epic_keys_are_parent_keys (issues : list Issue) (k : string) :
  In k (extractParentEpicKeys issues) -> In k (extractParentKeys issues).
Proof.
  unfold extractParentEpicKeys, extractParentKeys.
  apply fold_step_incl; [|intros x Hx; exact Hx].
  clear k. intros o o' i Ho k. cbv zeta.
  destruct (parentOf i) as [p|]; simpl.
  - destruct (truthy (parent_key p)); simpl.
    + match goal with
      | |- In k (if ?b then _ else _) -> _ => destruct b
      end; rewrite ?setAdd_In; intros H.
      * destruct H as [H|H]; [left; now apply Ho | now right].
      * left. now apply Ho.
    + apply Ho.
  - apply Ho.
Qed.

Lemma epic_keys_are_parent_keys_witness :
  In "E-1"
    (extractParentKeys
       [mkIssue (Some "T-1")
          (Some (mkFields None
                   (Some (mkParent (Some "E-1")
                            (Some (mkParentFields
                                     (Some (mkIssueType None (Some "Epic")))))))
                   None))]).
Proof.
  apply epic_keys_are_parent_keys. vm_compute. left. reflexivity.
Defined.

Lemma IndexJs_extractLinkedIssueKeys_NoDup (issues : list Issue) :
  NoDup (IndexJs.extractLinkedIssueKeys issues).
Proof.
  unfold IndexJs.extractLinkedIssueKeys.
  apply fold_step_NoDup; [|constructor].
  intros out i Hout. apply fold_step_NoDup; [|exact Hout].
  intros out' l Hout'. cbv zeta.
  repeat match goal with
         | |- NoDup (if ?b then _ else _) => destruct b
         | |- NoDup (setAdd _ _) => apply setAdd_NoDup
         end; assumption.
Qed.

(** X4. No extractor returns a key twice: the result of each of them, in
    both variants, is a list without repetition. *)
Theorem extractors_deduplicate (issues : list Issue) (lf : option LinkFilter) :
  NoDup (extractLinkedIssueKeys issues lf) /\
  NoDup (extractParentKeys issues) /\
  NoDup (extractParentEpicKeys issues) /\
  NoDup (extractSubtaskKeys issues) /\
  NoDup (IndexJs.extractLinkedIssueKeys issues).
Proof.
  split; [apply extractLinkedIssueKeys_NoDup|].
  split; [apply extractParentKeys_NoDup|].
  split; [apply extractParentEpicKeys_NoDup|].
  split; [apply extractSubtaskKeys_NoDup|].
  apply IndexJs_extractLinkedIssueKeys_NoDup.
Qed.

(** X5. With a filter that asks for nothing, the linked extractor is the
    linked extractor of the earlier variant, which has no filter. *)
Theorem unfiltered_is_earlier_variant (issues : list Issue)
  (lf : option LinkFilter) :
  asksNothing lf ->
  extractLinkedIssueKeys issues lf = IndexJs.extractLinkedIssueKeys issues.
Proof.
  intros H. unfold extractLinkedIssueKeys, IndexJs.extractLinkedIssueKeys.
  cbv zeta.
  assert (E : match lf with
              | Some f => truthy (typeHint f) ||
                          match direction f with Some _ => true | None => false end
              | None => false
              end = false).
  { destruct lf as [[h d]|]; [|reflexivity]. simpl in H. destruct H as [Hh ->].
    simpl. now rewrite Hh. }
  rewrite E. cbn [negb orb].
  apply fold_left_pointwise. intros out i.
  apply fold_left_pointwise. intros out' l.
  now rewrite !andb_true_r.
Qed.

Lemma unfiltered_is_earlier_variant_witness :
  asksNothing (Some (mkLinkFilter (Some "") None)) /\
  extractLinkedIssueKeys [seedWithLink "ABC-1" "XYZ-9"]
    (Some (mkLinkFilter (Some "") None))
  = IndexJs.extractLinkedIssueKeys [seedWithLink "ABC-1" "XYZ-9"].
Proof.
  assert (H : asksNothing (Some (mkLinkFilter (Some "") None))).
  { split; reflexivity. }
  split; [exact H|].
  exact (unfiltered_is_earlier_variant _ _ H).
Defined.

(** X6. A filter only narrows: a key collected under a filter is collected
    without any. *)
Theorem filter_only_narrows (issues : list Issue) (lf : option LinkFilter)
  (k : string) :
  In k (extractLinkedIssueKeys issues lf) ->
  In k (extractLinkedIssueKeys issues None).
Proof.
  unfold extractLinkedIssueKeys. cbv zeta.
  apply fold_step_incl; [|intros x Hx; exact Hx].
  clear k. intros o o' i Ho.
  apply fold_step_incl; [|exact Ho].
  clear o o' Ho. intros o o' l Ho k.
  cbn [negb orb]. rewrite !andb_true_r.
  match goal with
  | |- In k (if ?pass then _ else _) -> _ => destruct pass
  end.
  - rewrite !two_adds_In. intros [H|[[H E]|[H E]]].
    + left. now apply Ho.
    + apply andb_prop in H as [H _]. right. left. auto.
    + apply andb_prop in H as [H _]. right. right. auto.
  - intros H. rewrite two_adds_In. left. now apply Ho.
Qed.

Lemma filter_only_narrows_witness :
  In "XYZ-9" (extractLinkedIssueKeys [seedWithLink "ABC-1" "XYZ-9"] None).
Proof.
  apply (filter_only_narrows _
           (Some (mkLinkFilter (Some "blocks") (Some Outward)))).
  vm_compute. left. reflexivity.
Defined.

(* ================================================================= *)
(** ** More on the seed retriever *)

Section RetrieverTraces.

Variable svc : Service.
Variable jql : string.
Variable wf : list string.
Variable pageSize : Z.

(** The requests of the loop of the enhanced search. *)
Lemma enhancedLoop_requests (n : nat) (tok : option string) (st : SearchState) :
exists reqs,
  net (snd (enhancedLoop svc jql wf pageSize n tok st)) = (net st ++ reqs)%list /\
  List.length reqs <= n /\
  Forall (isEnhancedFor jql pageSize wf) reqs.
Proof.
revert tok st. induction n as [|n IH]; intros tok st.
- exists []. simpl. rewrite app_nil_r. repeat split; [lia | constructor].
- rewrite enhancedLoop_step. cbv zeta.
  set (r := PostSearchJql jql pageSize wf (if truthy tok then tok else None)).
  assert (Hr : isEnhancedFor jql pageSize wf r) by (repeat split).
  assert (Hone : exists reqs,
             (net st ++ [r])%list = (net st ++ reqs)%list /\
             List.length reqs <= S n /\
             Forall (isEnhancedFor jql pageSize wf) reqs).
  { exists [r]. repeat split; [simpl; lia | now constructor]. }
  destruct (svc (net st) r) as [res|e]; [|exact Hone].
  destruct (status res =? 404)%Z; [exact Hone|].
  destruct (negb (ok res)); [exact Hone|].
  destruct (json res) as [data|e]; [|exact Hone].
  cbv zeta. cbn [net acc].
  destruct (negb (truthy (data_nextPageToken data)) ||
            match data_isLast data with Some true => true | _ => false end);
    [exact Hone|].
  destruct (IH (data_nextPageToken data)
              (mkSearchState (net st ++ [r])
                 (acc st ++ orNil (data_issues data))))
    as (reqs & Hnet & Hlen & Hall).
  exists (r :: reqs). cbn [net] in *. rewrite Hnet, <- app_assoc.
  repeat split; [simpl; lia | now constructor].
Qed.

(** The requests of the loop of the legacy search. *)
Lemma legacyLoop_requests (n : nat) (a : Number) (st : SearchState) :
exists reqs,
  net (snd (legacyLoop svc jql wf pageSize n a st)) = (net st ++ reqs)%list /\
  List.length reqs <= n /\
  Forall (isLegacyFor jql pageSize wf) reqs.
Proof.
revert a st. induction n as [|n IH]; intros a st.
- exists []. simpl. rewrite app_nil_r. repeat split; [lia | constructor].
- rewrite legacyLoop_step. cbv zeta.
  set (r := GetSearch jql a pageSize wf).
  assert (Hr : isLegacyFor jql pageSize wf r) by (repeat split).
  assert (Hone : exists reqs,
             (net st ++ [r])%list = (net st ++ reqs)%list /\
             List.length reqs <= S n /\
             Forall (isLegacyFor jql pageSize wf) reqs).
  { exists [r]. repeat split; [simpl; lia | now constructor]. }
  destruct (svc (net st) r) as [res|e]; [|exact Hone].
  destruct (negb (ok res)); [exact Hone|].
  destruct (json res) as [data|e]; [|exact Hone].
  cbv zeta. cbn [net acc].
  destruct (numGe (numAdd a (pageStep pageSize data)) (totalOf data));
    [exact Hone|].
  destruct (IH (numAdd a (pageStep pageSize data))
              (mkSearchState (net st ++ [r])
                 (acc st ++ orNil (data_issues data))))
    as (reqs & Hnet & Hlen & Hall).
  exists (r :: reqs). cbn [net] in *. rewrite Hnet, <- app_assoc.
  repeat split; [simpl; lia | now constructor].
Qed.

End RetrieverTraces.

(** The requests of the retriever, on the state of a call. *)
Lemma searchSeedIssuesBody_requests (svc : Service) (jql : string)
  (wf : list string) (cap : nat) (size : Z) (log : list Request) :
  exists posts gets,
    net (snd (searchSeedIssuesBody svc jql wf cap size (mkSearchState log [])))
    = (log ++ posts ++ gets)%list /\
    List.length posts <= cap /\ List.length gets <= cap /\
    Forall (isEnhancedFor jql size wf) posts /\
    Forall (isLegacyFor jql size wf) gets.
Proof.
  rewrite searchSeedIssuesBody_cases.
  destruct (enhancedLoop_requests svc jql wf size cap None (mkSearchState log []))
    as (posts & Hp & Hpl & Hpa).
  destruct (enhancedLoop svc jql wf size cap None (mkSearchState log []))
    as [[u|e] st'] eqn:Ee; cbn [snd net] in Hp.
  - exists posts, []. cbn [snd]. rewrite Hp, app_nil_r.
    repeat split; [exact Hpl | simpl; lia | exact Hpa | constructor].
  - destruct (includes (message e) "ENHANCED_JQL_NOT_AVAILABLE").
    + destruct (legacyLoop_requests svc jql wf size cap (numOfZ 0) st')
        as (gets & Hg & Hgl & Hga).
      exists posts, gets.
      destruct (legacyLoop svc jql wf size cap (numOfZ 0) st') as [[u|e'] st''];
        cbn [snd net] in *; rewrite Hg, Hp, <- app_assoc;
        repeat split; assumption.
    + exists posts, []. cbn [snd]. rewrite Hp, app_nil_r.
      repeat split; [exact Hpl | simpl; lia | exact Hpa | constructor].
Qed.

(** X7. The retriever only adds to the log of the requests: first at most
    [pageCap] requests of the enhanced search, then at most [pageCap] requests
    of the legacy search, every one of them for the query, the page size and
    the fields it was given; the page cap is 4 and the page size 100 unless
    given.  With a page cap of 0 it makes no request. *)
Theorem searchSeedIssues_requests (svc : Service) (jql : string)
  (wf : list string) (pageCap : option nat) (pageSize : option Z)
  (log : list Request) :
  let cap := match pageCap with Some n => n | None => 4 end in
  let size := match pageSize with Some z => z | None => 100%Z end in
  exists posts gets,
    snd (searchSeedIssues svc jql wf pageCap pageSize log)
    = (log ++ posts ++ gets)%list /\
    List.length posts <= cap /\ List.length gets <= cap /\
    Forall (isEnhancedFor jql size wf) posts /\
    Forall (isLegacyFor jql size wf) gets /\
    (cap = 0 -> snd (searchSeedIssues svc jql wf pageCap pageSize log) = log).
Proof.
  intros cap size.
  destruct (searchSeedIssuesBody_requests svc jql wf cap size log)
    as (posts & gets & Hlog & Hp & Hg & Hpa & Hga).
  exists posts, gets.
  assert (E : snd (searchSeedIssues svc jql wf pageCap pageSize log)
              = (log ++ posts ++ gets)%list).
  { unfold searchSeedIssues. fold cap. fold size.
    destruct (searchSeedIssuesBody svc jql wf cap size (mkSearchState log []))
      as [r st]. exact Hlog. }
  repeat split; try assumption.
  intros Hcap. rewrite E. rewrite Hcap in Hp, Hg.
  destruct posts; [|simpl in Hp; lia]. destruct gets; [|simpl in Hg; lia].
  now rewrite app_nil_r.
Qed.

Section EnhancedPages.

Variable svc : Service.
Variable jql : string.
Variable wf : list string.
Variable pageSize : Z.

(** The loop of the enhanced search makes the run of the pages. *)
Lemma enhancedLoop_run (n : nat) (tok : option string) (st : SearchState) :
exists reqs items finished,
  enhancedRun svc jql wf pageSize n (if truthy tok then tok else None)
    (net st) reqs items finished /\
  snd (enhancedLoop svc jql wf pageSize n tok st)
  = mkSearchState (net st ++ reqs) (acc st ++ items) /\
  (finished = true <->
   exists u, fst (enhancedLoop svc jql wf pageSize n tok st) = Ok u).
Proof.
revert tok st. induction n as [|n IH]; intros tok st.
- exists [], [], true. simpl. rewrite !app_nil_r. destruct st.
  split; [constructor|]. split; [reflexivity|].
  split; [intros _; exists tt; reflexivity | reflexivity].
- rewrite enhancedLoop_step. cbv zeta.
  set (t := if truthy tok then tok else None).
  set (r := PostSearchJql jql pageSize wf t).
  assert (Hfail : forall (e : JsError) (st1 : SearchState),
             st1 = mkSearchState (net st ++ [r]) (acc st) ->
             enhancedRun svc jql wf pageSize (S n) t (net st) [r] [] false ->
             enhancedRun svc jql wf pageSize (S n) t (net st) [r] [] false /\
             snd (@Throw unit e, st1)
             = mkSearchState (net st ++ [r]) (acc st ++ []) /\
             (false = true <-> exists u, fst (@Throw unit e, st1) = Ok u)).
  { intros e st1 -> Hrun. split; [exact Hrun|].
    split; [cbn [snd]; now rewrite app_nil_r|].
    split; [discriminate | intros [u Hu]; discriminate]. }
  destruct (svc (net st) r) as [res|e] eqn:Es.
  2:{ exists [r], [], false. apply Hfail; [reflexivity|].
      eapply cursor_rejected; eassumption. }
  destruct (Z.eqb_spec (status res) 404) as [E404|E404].
  { exists [r], [], false. apply Hfail; [reflexivity|].
    eapply cursor_failed; eauto. }
  destruct (ok res) eqn:Eok; cbn [negb].
  2:{ exists [r], [], false. apply Hfail; [reflexivity|].
      eapply cursor_failed; eauto. }
  destruct (json res) as [data|e] eqn:Ej.
  2:{ exists [r], [], false. apply Hfail; [reflexivity|].
      eapply cursor_bad_body; eauto. }
  clear Hfail. cbv zeta. cbn [net acc].
  assert (Hlast : truthy (data_nextPageToken data) = false \/
                  data_isLast data = Some true ->
                  enhancedRun svc jql wf pageSize (S n) t (net st) [r]
                    (orNil (data_issues data)) true)
    by (intros H; eapply cursor_last; eauto).
  destruct (truthy (data_nextPageToken data)) eqn:Et; cbn [negb orb].
  2:{ exists [r], (orNil (data_issues data)), true.
      split; [auto|]. split; [reflexivity|].
      split; [intros _; exists tt; reflexivity | reflexivity]. }
  destruct (data_isLast data) as [[|]|] eqn:El.
  { exists [r], (orNil (data_issues data)), true.
    split; [auto|]. split; [reflexivity|].
    split; [intros _; exists tt; reflexivity | reflexivity]. }
  all: destruct (IH (data_nextPageToken data)
                   (mkSearchState (net st ++ [r])
                      (acc st ++ orNil (data_issues data))))
         as (reqs & items & fin & Hrun & Hst & Hfin);
    rewrite Et in Hrun; cbn [net acc] in *;
    exists (r :: reqs), (orNil (data_issues data) ++ items)%list, fin;
    (split; [eapply cursor_next; eauto; rewrite El; discriminate|]);
    (split; [rewrite Hst, <- !app_assoc; reflexivity | exact Hfin]).
Qed.

End EnhancedPages.

(** X8. The enhanced search is run page by page: the first request has no
    token, each next one carries the token of the page before, and the run
    ends at the page cap, on a page that says it is the last or gives no
    token, or on a failed page.  These are the first requests the retriever
    makes.  When the run ends without a failure, the seed sequence is the
    items of its pages in their order, and no request of the legacy search
    is made. *)
Theorem enhanced_pages (svc : Service) (jql : string) (wf : list string)
  (pageCap : nat) (pageSize : Z) (log : list Request) :
  exists reqs items finished,
    enhancedRun svc jql wf pageSize pageCap None log reqs items finished /\
    (exists rest,
       snd (searchSeedIssues svc jql wf (Some pageCap) (Some pageSize) log)
       = (log ++ reqs ++ rest)%list /\
       Forall (isLegacyFor jql pageSize wf) rest) /\
    (finished = true ->
     searchSeedIssues svc jql wf (Some pageCap) (Some pageSize) log
     = (Ok items, (log ++ reqs)%list)).
Proof.
  destruct (enhancedLoop_run svc jql wf pageSize pageCap None
              (mkSearchState log []))
    as (reqs & items & fin & Hrun & Hst & Hfin).
  exists reqs, items, fin. split; [exact Hrun|].
  unfold searchSeedIssues. rewrite searchSeedIssuesBody_cases.
  destruct (enhancedLoop svc jql wf pageSize pageCap None (mkSearchState log []))
    as [r st']. cbn [fst snd net acc] in *. subst st'. split.
  - destruct r as [u|e].
    + exists []. cbn [snd net]. rewrite app_nil_r. split; [reflexivity|constructor].
    + destruct (includes (message e) "ENHANCED_JQL_NOT_AVAILABLE").
      * destruct (legacyLoop_requests svc jql wf pageSize pageCap (numOfZ 0)
                    (mkSearchState (log ++ reqs) ([] ++ items)))
          as (gets & Hg & _ & Hga).
        exists gets.
        destruct (legacyLoop svc jql wf pageSize pageCap (numOfZ 0)
                    (mkSearchState (log ++ reqs) ([] ++ items)))
          as [[u|e'] st'']; cbn [snd net] in *; rewrite Hg, <- app_assoc;
          split; (reflexivity || assumption).
      * exists []. cbn [snd net]. rewrite app_nil_r.
        split; [reflexivity|constructor].
  - intros ->. destruct Hfin as [Hfin _]. destruct (Hfin eq_refl) as [u Hu].
    subst r. reflexivity.
Qed.

Example enhanced_two_pages :
  searchSeedIssues serviceTwoPages "project = ABC" wantedFields (Some 4)
    (Some 100%Z) []
  = (Ok [seedWithLink "ABC-1" "XYZ-9"; seedWithLink "ABC-2" "XYZ-7"],
     [PostSearchJql "project = ABC" 100 wantedFields None;
      PostSearchJql "project = ABC" 100 wantedFields (Some "page2")]).
Proof. vm_compute. reflexivity. Qed.

(* ================================================================= *)
(** ** More on the fragment builder and the entry point *)

(** X9. The escaping loses nothing: reading a backslash and a quote as the
    quote gives the key back, so two keys never share an escaped form; and a
    key without a single quote is embedded as it is, backslashes included. *)
Theorem escapeKey_round_trip (k : string) :
  unescapeKey (escapeKey k) = k /\
  (forall k', escapeKey k = escapeKey k' -> k = k') /\
  (allChars (fun c => negb (Ascii.eqb c "'")) k = true -> escapeKey k = k).
Proof.
  assert (R : forall s, unescapeKey (escapeKey s) = s).
  { induction s as [|a s IH]; [reflexivity|].
    rewrite escapeKey_cons. destruct (Ascii.eqb a "'") eqn:Ea.
    - apply Ascii.eqb_eq in Ea. subst a.
      change (unescapeKey (String "\" (String "'" (escapeKey s))))
        with (String "'" (unescapeKey (escapeKey s))).
      now rewrite IH.
    - destruct (escapeKey s) as [|c t] eqn:Es.
      + simpl. destruct s as [|b s']; [reflexivity|].
        rewrite escapeKey_cons in Es. destruct (Ascii.eqb b "'"); discriminate.
      + assert (Hc : Ascii.eqb c "'" = false).
        { destruct (Ascii.eqb_spec c "'") as [->|]; [|reflexivity].
          exfalso. exact (escapeKey_head s t Es). }
        change (unescapeKey (String a (String c t)))
          with (if Ascii.eqb a "\" && Ascii.eqb c "'"
                then String "'" (unescapeKey t)
                else String a (unescapeKey (String c t))).
        rewrite Hc, andb_false_r, IH. reflexivity. }
  split; [apply R|]. split.
  - intros k' E. rewrite <- (R k), <- (R k'). now rewrite E.
  - induction k as [|a k IH]; [reflexivity|]. simpl. intros H.
    apply andb_prop in H as [Ha Hk]. rewrite escapeKey_cons.
    apply negb_true_iff in Ha. rewrite Ha. now rewrite IH.
Qed.

Lemma firstn_incl {A : Type} (n : nat) (l : list A) : incl (firstn n l) l.
Proof.
  intros x Hx. rewrite <- (firstn_skipn n l). apply in_or_app. now left.
Qed.

(** The fragment built from the capped keys has the shape of a fragment. *)
Lemma build_shape (keys : JSet) (negate : bool) :
  NoDup keys ->
  fragmentShape negate keys
    (buildIssueKeySetJql (Some (limitedKeys keys)) negate).
Proof.
  intros H. destruct (limitedKeys_capped keys H) as [E L]. rewrite E.
  unfold fragmentShape, buildIssueKeySetJql, size, arrayFrom.
  destruct (firstn 1000 keys) as [|k ks] eqn:Ef.
  - simpl. destruct negate; auto.
  - right. right. exists (k :: ks). rewrite <- Ef.
    split; [rewrite Ef; discriminate|].
    split; [now apply NoDup_firstn|].
    split; [rewrite length_firstn; lia|].
    split; [apply firstn_incl|].
    rewrite Ef. reflexivity.
Qed.

(** X10. Whatever the invocation and the service, the fragment returned is
    the nothing-matches sentinel, or, only under an operator other than "in",
    the everything-matches sentinel, or a clause of membership ("in", or
    "not in" under an operator other than "in") over at least one and at most
    1000 keys without repetition.  This holds for both variants of the entry
    point. *)
Theorem fragment_always_well_formed (svc : Service) (args : option Invocation)
  (log : list Request) :
  let negate :=
    negb (operatorOf (match args with Some a => clause a | None => None end)
          =? "in") in
  (jql (fst (issuesWithText svc args log)) = SAFE_NO_MATCH \/
   exists keys,
     fragmentShape negate keys (jql (fst (issuesWithText svc args log)))) /\
  (jql (fst (IndexJs.issuesWithText svc args log)) = SAFE_NO_MATCH \/
   exists keys,
     fragmentShape negate keys (jql (fst (IndexJs.issuesWithText svc args log)))).
Proof.
  intros negate. split.
  - unfold issuesWithText, resolve.
    destruct (innerJql _ =? ""); [now left|].
    unfold bind. destruct (searchSeedIssues _ _ _ _ _ _) as [[seeds|e] log'];
      [|now left].
    right. unfold ret. cbn [fst jql]. eexists. apply build_shape.
    destruct (mode _ =? "parent"); [apply extractParentKeys_NoDup|].
    destruct (mode _ =? "epic-of"); [apply extractParentEpicKeys_NoDup|].
    destruct (mode _ =? "subtask"); [apply extractSubtaskKeys_NoDup|].
    apply extractLinkedIssueKeys_NoDup.
  - unfold IndexJs.issuesWithText, IndexJs.resolve.
    destruct (IndexJs.innerJql _ =? ""); [now left|].
    unfold bind. destruct (searchSeedIssues _ _ _ _ _ _) as [[seeds|e] log'];
      [|now left].
    right. unfold ret. cbn [fst jql]. eexists. apply build_shape.
    destruct (IndexJs.mode _ =? "epic-of"); [apply extractParentEpicKeys_NoDup|].
    destruct (IndexJs.mode _ =? "subtasks-of"); [apply extractSubtaskKeys_NoDup|].
    destruct (IndexJs.mode _ =? "parent-of"); [apply extractParentKeys_NoDup|].
    apply IndexJs_extractLinkedIssueKeys_NoDup.
Qed.

Lemma searchSeedIssues_log (svc : Service) (q : string) (log : list Request) :
  exists reqs,
    snd (searchSeedIssues svc q wantedFields (Some 4) (Some 100%Z) log)
    = (log ++ reqs)%list /\
    List.length reqs <= 8 /\
    Forall (fun r => isEnhancedFor q 100 wantedFields r \/
                     isLegacyFor q 100 wantedFields r) reqs.
Proof.
  destruct (searchSeedIssuesBody_requests svc q wantedFields 4 100 log)
    as (posts & gets & Hlog & Hp & Hg & Hpa & Hga).
  exists (posts ++ gets)%list. unfold searchSeedIssues.
  destruct (searchSeedIssuesBody svc q wantedFields 4 100 (mkSearchState log []))
    as [r st]. cbn [snd] in *. split; [exact Hlog|]. split.
  - rewrite length_app. lia.
  - apply Forall_app. split.
    + eapply Forall_impl; [|exact Hpa]. intros r' Hr'. now left.
    + eapply Forall_impl; [|exact Hga]. intros r' Hr'. now right.
Qed.

(** X11. An invocation costs at most 8 requests: the entry point only adds
    to the log, at most 8 requests, each of them a search for the inner query
    parsed from the first argument, with a page size of 100 and the four fields
    the extractors read.  This holds for both variants of the entry point. *)
Theorem issuesWithText_requests (svc : Service) (args : option Invocation)
  (log : list Request) :
  let arg0 := arg0Of (match args with Some a => clause a | None => None end) in
  (exists reqs,
     snd (issuesWithText svc args log) = (log ++ reqs)%list /\
     List.length reqs <= 8 /\
     Forall (fun r =>
               isEnhancedFor (innerJql (parseArg arg0)) 100
                 ["issuelinks"; "parent"; "issuetype"; "subtasks"] r \/
               isLegacyFor (innerJql (parseArg arg0)) 100
                 ["issuelinks"; "parent"; "issuetype"; "subtasks"] r) reqs) /\
  (exists reqs,
     snd (IndexJs.issuesWithText svc args log) = (log ++ reqs)%list /\
     List.length reqs <= 8 /\
     Forall (fun r =>
               isEnhancedFor (IndexJs.innerJql (IndexJs.parseArg arg0)) 100
                 ["issuelinks"; "parent"; "issuetype"; "subtasks"] r \/
               isLegacyFor (IndexJs.innerJql (IndexJs.parseArg arg0)) 100
                 ["issuelinks"; "parent"; "issuetype"; "subtasks"] r) reqs).
Proof.
  intros arg0.
  assert (Hnone : exists reqs : list Request,
             log = (log ++ reqs)%list /\ List.length reqs <= 8 /\
             forall P, Forall P reqs).
  { exists []. rewrite app_nil_r. repeat split; [simpl; lia | constructor]. }
  split.
  - unfold issuesWithText, resolve. fold arg0.
    destruct (innerJql (parseArg arg0) =? "").
    { destruct Hnone as (reqs & E & L & F). exists reqs. auto. }
    destruct (searchSeedIssues_log svc (innerJql (parseArg arg0)) log)
      as (reqs & E & L & F).
    exists reqs. unfold bind.
    destruct (searchSeedIssues _ _ _ _ _ _) as [[seeds|e] log'];
      cbn [snd] in *; auto.
  - unfold IndexJs.issuesWithText, IndexJs.resolve. fold arg0.
    destruct (IndexJs.innerJql (IndexJs.parseArg arg0) =? "").
    { destruct Hnone as (reqs & E & L & F). exists reqs. auto. }
    destruct (searchSeedIssues_log svc
                (IndexJs.innerJql (IndexJs.parseArg arg0)) log)
      as (reqs & E & L & F).
    exists reqs. unfold bind.
    destruct (searchSeedIssues _ _ _ _ _ _) as [[seeds|e] log'];
      cbn [snd] in *; auto.
Qed.

(* ================================================================= *)
(** ** What a match tells of the input *)

Lemma nth_setCapture_other (n m : nat) (v : string)
  (c : list (option string)) :
  m <> n -> nth m (setCapture n v c) None = nth m c None.
Proof.
  revert m c. induction n as [|n IH]; intros m c Hm; destruct c as [|h t];
    try reflexivity.
  - destruct m; [contradiction | reflexivity].
  - destruct m; [reflexivity|]. simpl. apply IH. lia.
Qed.

Lemma nth_setCapture_same (n : nat) (v : string) (c : list (option string)) :
  n < List.length c -> nth n (setCapture n v c) None = Some v.
Proof.
  revert c. induction n as [|n IH]; intros c H; destruct c as [|h t];
    simpl in *; try lia; [reflexivity|]. apply IH. lia.
Qed.

Lemma length_setCapture (n : nat) (v : string) (c : list (option string)) :
  List.length (setCapture n v c) = List.length c.
Proof.
  revert c. induction n as [|n IH]; intros c; destruct c as [|h t];
    simpl; auto.
Qed.

Lemma reaches_refl (gs : list nat) (x : MatchState) : reaches gs x x.
Proof.
  split; [|split; reflexivity]. exists "". split; [reflexivity | simpl; lia].
Qed.

Lemma reaches_trans (gs1 gs2 gs : list nat) (x y z : MatchState) :
  incl gs1 gs -> incl gs2 gs ->
  reaches gs1 x y -> reaches gs2 y z -> reaches gs x z.
Proof.
  intros H1 H2 [(u & Eu & Iu) [Lu Cu]] [(v & Ev & Iv) [Lv Cv]]. split; [|split].
  - exists (u ++ v). rewrite Eu, Ev, append_assoc, length_append.
    split; [reflexivity | lia].
  - congruence.
  - intros n Hn. rewrite Cv, Cu; auto.
Qed.

Lemma reaches_weaken (gs gs' : list nat) (x y : MatchState) :
  incl gs gs' -> reaches gs x y -> reaches gs' x y.
Proof.
  intros H Hr. apply (reaches_trans gs [] gs' x y y); try assumption.
  - intros n [].
  - apply reaches_refl.
Qed.

(** The star of a matcher reaches what its iterations reach. *)
Lemma repeat_reaches (m : Matcher) (gs : list nat) (greedy : bool) :
  (forall x k z, m x k = Some z -> exists y, k y = Some z /\ reaches gs x y) ->
  forall fuel x k z,
    repeatMatcher m greedy fuel x k = Some z ->
    exists y, k y = Some z /\ reaches gs x y.
Proof.
  intros Hm fuel. induction fuel as [|f IH]; intros x k z H.
  - exists x. split; [exact H | apply reaches_refl].
  - assert (Hiter : m x (fun y => if (endIndex y =? endIndex x)%nat then None
                                  else repeatMatcher m greedy f y k) = Some z ->
                    exists y, k y = Some z /\ reaches gs x y).
    { intros Hi. destruct (Hm _ _ _ Hi) as (y1 & Hy1 & R1).
      destruct (endIndex y1 =? endIndex x)%nat; [discriminate|].
      destruct (IH _ _ _ Hy1) as (y & Hy & R).
      exists y. split; [exact Hy|].
      apply (reaches_trans gs gs gs x y1 y); auto using incl_refl. }
    destruct greedy.
    + rewrite repeat_greedy_step in H.
      destruct (m x _) eqn:E.
      * injection H as <-. now apply Hiter.
      * exists x. split; [exact H | apply reaches_refl].
    + rewrite repeat_lazy_step in H.
      destruct (k x) eqn:E.
      * injection H as <-. exists x. split; [exact E | apply reaches_refl].
      * now apply Hiter.
Qed.

(** A match of a pattern goes on from a state the pattern reaches: what is
    left of the input there is the end of what was left, and only the groups
    of the pattern have new captures. *)
Lemma compile_reaches (r : regex) :
  forall x k z,
    compile r x k = Some z ->
    exists y, k y = Some z /\ reaches (groupsOf r) x y.
Proof.
  induction r as [|p|r1 IH1 r2 IH2|r1 IH1 r2 IH2|g r IH|r IH|n r IH| |];
    intros x k z H.
  - exists x. split; [exact H | apply reaches_refl].
  - cbn [compile] in H. destruct (remaining x) as [|ch rest] eqn:Er;
      [discriminate|].
    destruct (p ch); [|discriminate].
    exists (advance x rest). split; [exact H|].
    split; [|split; reflexivity].
    exists (String ch ""). rewrite Er. split; [reflexivity | simpl; lia].
  - rewrite compile_seq in H. destruct (IH1 _ _ _ H) as (y1 & H1 & R1).
    destruct (IH2 _ _ _ H1) as (y & Hy & R2).
    exists y. split; [exact Hy|].
    apply (reaches_trans (groupsOf r1) (groupsOf r2) _ x y1 y); try assumption;
      simpl; [apply incl_appl | apply incl_appr]; apply incl_refl.
  - cbn [compile] in H. destruct (compile r1 x k) eqn:E.
    + injection H as <-. destruct (IH1 _ _ _ E) as (y & Hy & R).
      exists y. split; [exact Hy|]. eapply reaches_weaken; [|exact R].
      simpl. apply incl_appl, incl_refl.
    + destruct (IH2 _ _ _ H) as (y & Hy & R).
      exists y. split; [exact Hy|]. eapply reaches_weaken; [|exact R].
      simpl. apply incl_appr, incl_refl.
  - cbn [compile] in H. exact (repeat_reaches _ _ g IH _ _ _ _ H).
  - cbn [compile] in H. destruct (compile r x _) eqn:E.
    + injection H as <-. destruct (IH _ _ _ E) as (y & Hy & R).
      destruct (endIndex y =? endIndex x)%nat; [discriminate|].
      exists y. split; [exact Hy | exact R].
    + exists x. split; [exact H | apply reaches_refl].
  - rewrite compile_group in H. destruct (IH _ _ _ H) as (y & Hy & R).
    exists (capture n x y). split; [exact Hy|].
    destruct R as [(u & Eu & Iu) [Lu Cu]]. split; [|split].
    + exists u. unfold capture. cbn [remaining endIndex]. auto.
    + unfold capture. cbn [captures]. now rewrite length_setCapture.
    + intros m Hm. unfold capture. cbn [captures].
      rewrite nth_setCapture_other by (intros ->; apply Hm; now left).
      apply Cu. intros Hin. apply Hm. now right.
  - cbn [compile] in H. destruct (endIndex x =? 0)%nat; [|discriminate].
    exists x. split; [exact H | apply reaches_refl].
  - cbn [compile] in H. destruct (remaining x); [|discriminate].
    exists x. split; [exact H | apply reaches_refl].
Qed.

(** A pattern without groups leaves the captures as they are. *)
Lemma compile_plain (r : regex) (i : nat) (s : string)
  (c : list (option string)) (k : Continuation) (z : MatchState) :
  groupsOf r = [] ->
  compile r (mkState i s c) k = Some z ->
  exists u rest, s = u ++ rest /\
                 k (mkState (i + String.length u) rest c) = Some z.
Proof.
  intros Hg H. destruct (compile_reaches _ _ _ _ H) as (y & Hy & R).
  rewrite Hg in R. destruct R as [(u & Eu & Iu) [Lu Cu]].
  destruct y as [j t c']. cbn [remaining endIndex captures] in *.
  assert (c' = c) as -> by (apply (nth_ext _ _ None None); auto).
  exists u, t. subst j. auto.
Qed.

Lemma charset_reaches (p : ascii -> bool) (i : nat) (s : string)
  (c : list (option string)) (k : Continuation) (z : MatchState) :
  compile (CharSet p) (mkState i s c) k = Some z ->
  exists a rest, s = String a rest /\ p a = true /\
                 k (mkState (S i) rest c) = Some z.
Proof.
  cbn [compile remaining]. destruct s as [|a rest]; [discriminate|].
  destruct (p a) eqn:E; [|discriminate]. intros H. eauto.
Qed.

Lemma compile_alt_cases (r1 r2 : regex) (x : MatchState) (k : Continuation)
  (z : MatchState) :
  compile (Alt r1 r2) x k = Some z ->
  compile r1 x k = Some z \/ compile r2 x k = Some z.
Proof.
  cbn [compile]. destruct (compile r1 x k).
  - intros H. now left.
  - intros H. now right.
Qed.

(** A literal word takes a token that has its letters, and nothing else. *)
Lemma lit_reaches (w : string) :
  w <> "" ->
  forall i s c k z,
    compile (lit w) (mkState i s c) k = Some z ->
    exists token rest, s = token ++ rest /\ sameLetters token w = true /\
                       k (mkState (i + String.length token) rest c) = Some z.
Proof.
  induction w as [|b w IH]; intros Hne i s c k z H; [contradiction|].
  destruct w as [|b' w'].
  - apply charset_reaches in H as (a & rest & -> & Ea & H).
    exists (String a ""), rest. simpl. rewrite Ea.
    replace (i + 1) with (S i) by lia. auto.
  - rewrite lit_cons in H.
    apply charset_reaches in H as (a & rest & -> & Ea & H).
    apply IH in H as (t & rest' & -> & Ht & H); [|discriminate].
    exists (String a t), rest'. cbn [sameLetters]. rewrite Ea, Ht.
    cbn [String.length]. replace (i + S (String.length t))
      with (S i + String.length t) by lia. auto.
Qed.

Lemma toLowerCaseChar_canonicalize (a : ascii) :
  toLowerCaseChar (canonicalize a) = toLowerCaseChar a.
Proof.
  destruct a as [[|] [|] [|] [|] [|] [|] [|] [|]]; reflexivity.
Qed.

Lemma toLowerCaseChar_word (b : ascii) :
  isWordChar b = true -> toLowerCaseChar (canonicalize b) = b.
Proof.
  destruct b as [[|] [|] [|] [|] [|] [|] [|] [|]]; vm_compute;
    intros H; try reflexivity; discriminate.
Qed.

(** A token that has the letters of a lower-case word is the word, once in
    lower case. *)
Lemma sameLetters_lower (token w : string) :
  allChars isWordChar w = true -> sameLetters token w = true ->
  toLowerCase token = w.
Proof.
  revert w. induction token as [|a t IH]; intros [|b w] Hw H;
    try discriminate; [reflexivity|].
  simpl in *. apply andb_prop in Hw as [Hb Hw]. apply andb_prop in H as [E H].
  apply Ascii.eqb_eq in E.
  rewrite <- (toLowerCaseChar_canonicalize a), E, (toLowerCaseChar_word b Hb).
  f_equal. auto.
Qed.

Lemma sameLetters_nonempty (token w : string) :
  w <> "" -> sameLetters token w = true -> token <> "".
Proof. destruct token, w; simpl; congruence. Qed.

Lemma hasChar_app (c : ascii) (s t : string) :
  hasChar c (s ++ t) = hasChar c s || hasChar c t.
Proof.
  induction s as [|a s IH]; [reflexivity|].
  simpl. now rewrite IH, orb_assoc.
Qed.

Lemma canonicalize_colon (a : ascii) :
  Ascii.eqb (canonicalize a) (canonicalize ":") = true -> a = ":"%char.
Proof.
  destruct a as [[|] [|] [|] [|] [|] [|] [|] [|]]; vm_compute;
    intros H; try reflexivity; discriminate.
Qed.

(** A pattern that starts with [^] matches at the start of the text, or
    not at all. *)
Lemma regExpExecFrom_anchored (r : regex) (ncap : nat) (s : string) (i : nat) :
  regExpExecFrom (compile (Group 0 (AssertStart ++ r))) ncap (S i) s = None.
Proof.
  revert i. induction s as [|a s IH]; intros i; simpl; [reflexivity|].
  apply IH.
Qed.

Lemma stringMatch_anchored (r : regex) (ncap : nat) (s : string)
  (m : list (option string)) :
  stringMatch (AssertStart ++ r) ncap s = Some m ->
  exists z,
    compile r (mkState 0 s (repeat None ncap))
      (fun y => Some (capture 0 (mkState 0 s (repeat None ncap)) y)) = Some z
    /\ m = captures z.
Proof.
  unfold stringMatch. intros H.
  destruct (regExpExecFrom _ _ _ _) as [z|] eqn:E; [|discriminate].
  injection H as <-. exists z. split; [|reflexivity].
  assert (E0 : compile (Group 0 (AssertStart ++ r))
                 (mkState 0 s (repeat None ncap)) (fun y => Some y) = Some z).
  { destruct s as [|a s]; cbn [regExpExecFrom] in E;
      destruct (compile (Group 0 (AssertStart ++ r)) _ _) eqn:E0;
      try exact E; try discriminate.
    rewrite regExpExecFrom_anchored in E. discriminate. }
  rewrite compile_group, compile_seq, compile_start in E0. exact E0.
Qed.

(** The end of the patterns: a colon, and a query that is not empty and goes
    up to the end of the text. *)
Lemma tailPart_reaches (n i : nat) (s : string) (c : list (option string))
  (k : Continuation) (z : MatchState) :
  compile (tailPart n) (mkState i s c) k = Some z ->
  exists pre q, s = pre ++ q /\ hasChar ":" pre = true /\ q <> "" /\
    k (mkState (i + String.length pre + String.length q) ""
         (setCapture n q c)) = Some z.
Proof.
  unfold tailPart. intros H.
  rewrite compile_seq in H.
  apply compile_plain in H as (u1 & r1 & -> & H); [|reflexivity].
  rewrite compile_seq in H.
  apply charset_reaches in H as (a & r2 & -> & Ea & H).
  apply canonicalize_colon in Ea. subst a.
  rewrite compile_seq in H.
  apply compile_plain in H as (u3 & r3 & -> & H); [|reflexivity].
  rewrite compile_seq, compile_group in H. unfold plus in H.
  rewrite compile_seq in H.
  apply charset_reaches in H as (b & r4 & E4 & _ & H).
  apply compile_plain in H as (u5 & r5 & -> & H); [|reflexivity].
  cbn [compile capture remaining endIndex captures] in H.
  destruct r5; [|discriminate]. subst r3. rewrite append_nil_r in *.
  exists (u1 ++ String ":" u3), (String b u5).
  repeat split.
  - now rewrite append_assoc.
  - rewrite hasChar_app. simpl. apply orb_true_r.
  - discriminate.
  - rewrite length_append. cbn [String.length].
    pose proof (capture_app n (S (i + String.length u1) + String.length u3)
                  (String b u5) "" c c) as Ec.
    rewrite append_nil_r in Ec. cbn [String.length] in Ec.
    replace (S (i + String.length u1) + String.length u3 +
             S (String.length u5))
      with (S (S (i + String.length u1) + String.length u3) +
            String.length u5) in Ec by lia.
    rewrite Ec in H.
    replace (i + (String.length u1 + S (String.length u3)) +
             S (String.length u5))
      with (S (S (i + String.length u1) + String.length u3) +
            String.length u5) by lia.
    exact H.
Qed.

(* ================================================================= *)
(** ** What a match of the argument pattern tells of the argument *)

Lemma compile_opt_cases (r : regex) (x : MatchState) (k : Continuation)
  (z : MatchState) :
  compile (Opt r) x k = Some z ->
  compile r x (fun y => if (endIndex y =? endIndex x)%nat then None else k y)
  = Some z \/ k x = Some z.
Proof.
  cbn [compile]. destruct (compile r x _).
  - intros H. now left.
  - intros H. now right.
Qed.

Ltac split_alternatives H :=
  repeat (apply compile_alt_cases in H as [H|H]).

Ltac take_word H w :=
  let token := fresh "token" in
  let rest := fresh "rest" in
  let Hw := fresh "Hw" in
  apply (lit_reaches w) in H as (token & rest & -> & Hw & H);
  [rewrite capture_app in H; exists token, rest, w;
   repeat split; [simpl; tauto | exact Hw | exact H]
  | discriminate].

(** The part of the mode takes a token that has the letters of one of the
    five words, and captures it. *)
Lemma modePart_reaches (i : nat) (s : string) (c : list (option string))
  (k : Continuation) (z : MatchState) :
  compile modePart (mkState i s c) k = Some z ->
  exists token rest w,
    s = token ++ rest /\ In w modeWords /\ sameLetters token w = true /\
    k (mkState (i + String.length token) rest (setCapture 1 token c)) = Some z.
Proof.
  unfold modePart. rewrite compile_group. intros H.
  split_alternatives H.
  - take_word H "parent".
  - take_word H "epic-of".
  - take_word H "linked".
  - take_word H "subtask".
  - take_word H "substask".
Qed.

(** The part of the arrow leaves group 3 as it is, or captures there a token
    that has the letters of a direction. *)
Lemma arrowPart_reaches (i : nat) (s : string) (c : list (option string))
  (k : Continuation) (z : MatchState) :
  compile arrowPart (mkState i s c) k = Some z ->
  exists j u rest c',
    s = u ++ rest /\ k (mkState j rest c') = Some z /\
    List.length c' = List.length c /\
    (forall n, n <> 3 -> nth n c' None = nth n c None) /\
    (nth 3 c' None = nth 3 c None \/
     exists d w, nth 3 c' None = Some d /\ In w ["inward"; "outward"] /\
                 sameLetters d w = true).
Proof.
  unfold arrowPart. intros H.
  apply compile_opt_cases in H as [H|H].
  - rewrite compile_seq in H.
    apply compile_plain in H as (u1 & r1 & -> & H); [|reflexivity].
    rewrite compile_seq in H.
    apply charset_reaches in H as (a & r2 & -> & _ & H).
    rewrite compile_seq in H.
    apply charset_reaches in H as (b & r3 & -> & _ & H).
    rewrite compile_seq in H.
    apply compile_plain in H as (u4 & r4 & -> & H); [|reflexivity].
    rewrite compile_group in H.
    assert (Hd : exists d rest w,
               r4 = d ++ rest /\ In w ["inward"; "outward"] /\
               sameLetters d w = true /\
               (fun y => if (endIndex y =? endIndex (mkState i
                    (u1 ++ String a (String b (u4 ++ r4))) c))%nat
                         then None else k y)
                 (mkState (S (S (i + String.length u1)) + String.length u4
                           + String.length d) rest (setCapture 3 d c))
               = Some z).
    { split_alternatives H.
      - take_word H "inward".
      - take_word H "outward". }
    destruct Hd as (d & rest & w & -> & Hw & Hl & Hk).
    cbn beta in Hk. destruct (_ =? _)%nat; [discriminate|].
    exists (S (S (i + String.length u1)) + String.length u4 + String.length d),
           (u1 ++ String a (String b (u4 ++ d))), rest, (setCapture 3 d c).
    repeat split.
    + repeat (progress (rewrite ?append_assoc; cbn [append])). reflexivity.
    + exact Hk.
    + apply length_setCapture.
    + intros n Hn. now apply nth_setCapture_other.
    + destruct (Nat.lt_ge_cases 3 (List.length c)) as [L|L].
      * right. exists d, w. rewrite nth_setCapture_same by exact L. auto.
      * left. rewrite !nth_overflow; rewrite ?length_setCapture; auto.
  - exists i, "", s, c. repeat split; auto.
Qed.

(** The part of the filter leaves the groups other than 2 and 3 as they
    are, and group 3 as the part of the arrow does. *)
Lemma filterPart_reaches (i : nat) (s : string) (c : list (option string))
  (k : Continuation) (z : MatchState) :
  compile filterPart (mkState i s c) k = Some z ->
  exists j u rest c',
    s = u ++ rest /\ k (mkState j rest c') = Some z /\
    List.length c' = List.length c /\
    (forall n, n <> 2 -> n <> 3 -> nth n c' None = nth n c None) /\
    (nth 3 c' None = nth 3 c None \/
     exists d w, nth 3 c' None = Some d /\ In w ["inward"; "outward"] /\
                 sameLetters d w = true).
Proof.
  unfold filterPart. intros H.
  apply compile_opt_cases in H as [H|H].
  - rewrite compile_seq in H.
    apply compile_plain in H as (u1 & r1 & -> & H); [|reflexivity].
    rewrite compile_seq in H.
    apply charset_reaches in H as (a & r2 & -> & _ & H).
    rewrite compile_seq in H.
    apply compile_plain in H as (u3 & r3 & -> & H); [|reflexivity].
    rewrite compile_seq, compile_group in H.
    apply compile_plain in H as (h & r4 & -> & H); [|reflexivity].
    rewrite capture_app in H.
    rewrite compile_seq in H.
    apply arrowPart_reaches in H as (j & u5 & r5 & c5 & -> & H & L5 & O5 & A5).
    rewrite compile_seq in H.
    apply compile_plain in H as (u6 & r6 & -> & H); [|reflexivity].
    apply charset_reaches in H as (b & r7 & -> & _ & H).
    cbn beta in H. destruct (_ =? _)%nat; [discriminate|].
    exists (S (j + String.length u6)),
           (u1 ++ String a (u3 ++ h ++ u5 ++ u6 ++ String b "")), r7, c5.
    repeat split.
    + repeat (progress (rewrite ?append_assoc; cbn [append])). reflexivity.
    + exact H.
    + now rewrite L5, length_setCapture.
    + intros n H2 H3. rewrite O5 by exact H3.
      now apply nth_setCapture_other.
    + rewrite (nth_setCapture_other 2 3) in A5 by discriminate. exact A5.
  - exists i, "", s, c. repeat split; auto.
Qed.

Lemma some_eq (A : Type) (a b : A) : Some a = Some b -> a = b.
Proof. congruence. Qed.

Lemma nth_repeat_None (n k : nat) :
  nth n (repeat (@None string) k) None = None.
Proof.
  revert n. induction k as [|k IH]; intros [|n]; simpl; auto.
Qed.

(** The argument that the pattern matches starts with one of the five words,
    has a colon, and ends with a query that is not empty; the captures are
    the word as written, the query, and a direction if any. *)
Lemma argPattern_shape (s : string) (m : list (option string)) :
  stringMatch argPattern 5 s = Some m ->
  exists token w pre q,
    s = token ++ pre ++ q /\ In w modeWords /\ sameLetters token w = true /\
    hasChar ":" pre = true /\ q <> "" /\
    group m 1 = Some token /\ group m 4 = Some q /\
    (group m 3 = None \/
     exists d w3, group m 3 = Some d /\ In w3 ["inward"; "outward"] /\
                  sameLetters d w3 = true).
Proof.
  unfold argPattern. intros H.
  apply stringMatch_anchored in H as (z & H & ->).
  rewrite compile_seq in H.
  apply modePart_reaches in H as (token & rest & w & -> & Hw & Hl & H).
  rewrite compile_seq in H.
  apply filterPart_reaches in H as (j & u & r & c' & -> & H & L & O & A).
  change queryPart with (tailPart 4) in H.
  apply tailPart_reaches in H as (pre & q & -> & Hc & Hq & H).
  apply some_eq in H. subst z.
  rewrite length_setCapture in L. cbn [repeat List.length] in L.
  exists token, w, (u ++ pre), q.
  unfold group, capture. cbn [captures].
  rewrite !(nth_setCapture_other 0) by discriminate.
  rewrite (nth_setCapture_other 4 1), (nth_setCapture_other 4 3)
    by discriminate.
  rewrite nth_setCapture_same by lia.
  rewrite (O 1) by discriminate.
  rewrite (nth_setCapture_other 1 3) in A by discriminate.
  rewrite (nth_repeat_None 3 5) in A.
  repeat split; auto.
  - now rewrite append_assoc.
  - rewrite hasChar_app, Hc. apply orb_true_r.
Qed.

(** The same, for the pattern of the earlier variant. *)
Lemma IndexJs_argPattern_shape (s : string) (m : list (option string)) :
  stringMatch IndexJs.argPattern 3 s = Some m ->
  exists token w pre q,
    s = token ++ pre ++ q /\ In w earlierModeWords /\
    sameLetters token w = true /\
    hasChar ":" pre = true /\ q <> "" /\
    group m 1 = Some token /\ group m 2 = Some q.
Proof.
  unfold IndexJs.argPattern. intros H.
  apply stringMatch_anchored in H as (z & H & ->).
  rewrite compile_seq, compile_group in H.
  assert (Hm : exists token rest w,
             s = token ++ rest /\ In w earlierModeWords /\
             sameLetters token w = true /\
             compile (tailPart 2)
               (mkState (0 + String.length token) rest
                  (setCapture 1 token (repeat None 3)))
               (fun y => Some (capture 0 (mkState 0 s (repeat None 3)) y))
             = Some z).
  { split_alternatives H.
    - take_word H "epic-of".
    - take_word H "linked".
    - take_word H "subtasks-of".
    - take_word H "parent-of". }
  destruct Hm as (token & rest & w & -> & Hw & Hl & Hk).
  apply tailPart_reaches in Hk as (pre & q & -> & Hc & Hq & Hk).
  apply some_eq in Hk. subst z.
  exists token, w, pre, q.
  unfold group, capture. cbn [captures].
  rewrite !(nth_setCapture_other 0) by discriminate.
  rewrite (nth_setCapture_other 2 1) by discriminate.
  repeat split; auto.
Qed.

(* ================================================================= *)
(** ** Invariants of the argument parser *)

Lemma trimStart_result (s : string) :
  trimStart s = "" \/
  firstChar (fun c => negb (isWhiteSpace c)) (trimStart s) = true.
Proof.
  induction s as [|c s IH]; [now left|].
  simpl. destruct (isWhiteSpace c) eqn:E; [exact IH|].
  right. simpl. now rewrite E.
Qed.

Lemma trimEnd_result (s : string) :
  trimEnd s = "" \/
  lastChar (fun c => negb (isWhiteSpace c)) (trimEnd s) = true.
Proof.
  induction s as [|c s IH]; [now left|].
  simpl. destruct (trimEnd s) as [|a t] eqn:E.
  - destruct (isWhiteSpace c) eqn:Ec; [now left|].
    right. simpl. now rewrite Ec.
  - right. destruct IH as [IH|IH]; [discriminate|]. exact IH.
Qed.

Lemma trimEnd_first (s : string) :
  firstChar (fun c => negb (isWhiteSpace c)) s = true ->
  firstChar (fun c => negb (isWhiteSpace c)) (trimEnd s) = true.
Proof.
  destruct s as [|c s]; [discriminate|]. simpl. intros H.
  destruct (trimEnd s).
  - apply negb_true_iff in H. rewrite H. simpl. now rewrite H.
  - exact H.
Qed.

(** What [trim] returns is empty, or starts and ends with a character other
    than white space. *)
Lemma trim_result (s : string) : trim s = "" \/ isTrimmed (trim s) = true.
Proof.
  unfold trim. destruct (trimStart_result s) as [E|Hf].
  - left. now rewrite E.
  - destruct (trimEnd_result (trimStart s)) as [E|Hl]; [now left|].
    right. unfold isTrimmed. rewrite Hl, (trimEnd_first _ Hf). reflexivity.
Qed.

Lemma trim_idempotent (s : string) : trim (trim s) = trim s.
Proof.
  destruct (trim_result s) as [E|H].
  - rewrite E. reflexivity.
  - now apply trim_trimmed.
Qed.

(** A text that ends on a character other than white space is not blank. *)
Lemma trim_of_last (u : string) :
  lastChar (fun ch => negb (isWhiteSpace ch)) u = true -> trim u <> "".
Proof.
  intros H. destruct (leading_space_split u H) as (w & d & r & E & Hw & Hd).
  assert (Ht : isTrimmed (String d r) = true).
  { unfold isTrimmed. apply andb_true_intro. split.
    - simpl. now rewrite Hd.
    - rewrite <- (lastChar_suffix _ w (String d r)) by discriminate.
      now rewrite <- E. }
  rewrite E, <- (append_nil_r (String d r)).
  rewrite (trim_around w (String d r) "") by (reflexivity || assumption).
  discriminate.
Qed.

Lemma modeWords_lower (w : string) :
  In w modeWords -> allChars isWordChar w = true.
Proof.
  intros H. repeat (destruct H as [<-|H]; [reflexivity|]). destruct H.
Qed.

Lemma earlierModeWords_lower (w : string) :
  In w earlierModeWords -> allChars isWordChar w = true.
Proof.
  intros H. repeat (destruct H as [<-|H]; [reflexivity|]). destruct H.
Qed.

(** The query of a match, in an argument that [trim] returned, is not
    blank. *)
Lemma query_not_blank (raw : option string) (token pre q : string) :
  trim (orEmpty raw) = token ++ pre ++ q -> q <> "" -> trim q <> "".
Proof.
  intros E Hq. apply trim_of_last.
  destruct (trim_result (orEmpty raw)) as [E0|Ht].
  - rewrite E0 in E. destruct token, pre, q; try discriminate. contradiction.
  - unfold isTrimmed in Ht. apply andb_prop in Ht as [_ Hl].
    rewrite E, <- append_assoc in Hl.
    now rewrite lastChar_suffix in Hl.
Qed.

(** X12. The mode the parser returns is always one of the four the entry
    point switches on: "parent", "epic-of", "linked" or "subtask" ("substask"
    is never returned); in the earlier variant, one of "epic-of", "linked",
    "subtasks-of" and "parent-of".  So the [default] branch of the switch is
    only taken in the mode "linked". *)
Theorem parseArg_mode (raw : option string) :
  In (mode (parseArg raw)) ["parent"; "epic-of"; "linked"; "subtask"] /\
  In (IndexJs.mode (IndexJs.parseArg raw))
     ["epic-of"; "linked"; "subtasks-of"; "parent-of"].
Proof.
  split.
  - unfold parseArg. cbv zeta.
    destruct (trim (orEmpty raw) =? ""); [simpl; tauto|].
    destruct (stringMatch argPattern 5 (trim (orEmpty raw))) as [m|] eqn:Em;
      [|simpl; tauto].
    apply argPattern_shape in Em
      as (token & w & pre & q & _ & Hw & Hl & _ & _ & G1 & _ & _).
    cbn [mode]. rewrite G1. cbn [orEmpty].
    rewrite (sameLetters_lower token w (modeWords_lower w Hw) Hl).
    repeat (destruct Hw as [<-|Hw]; [simpl; tauto|]). destruct Hw.
  - unfold IndexJs.parseArg. cbv zeta.
    destruct (trim (orEmpty raw) =? ""); [simpl; tauto|].
    destruct (stringMatch IndexJs.argPattern 3 (trim (orEmpty raw)))
      as [m|] eqn:Em; [|simpl; tauto].
    apply IndexJs_argPattern_shape in Em
      as (token & w & pre & q & _ & Hw & Hl & _ & _ & G1 & _).
    cbn [IndexJs.mode]. rewrite G1. cbn [orEmpty].
    rewrite (sameLetters_lower token w (earlierModeWords_lower w Hw) Hl).
    exact Hw.
Qed.

(** The inner query of an argument that is not blank is not empty, in both
    variants of the parser. *)
Lemma inner_of_nonblank (raw : option string) :
  trim (orEmpty raw) <> "" ->
  innerJql (parseArg raw) <> "" /\
  IndexJs.innerJql (IndexJs.parseArg raw) <> "".
Proof.
  intros Hne. split.
  - unfold parseArg. cbv zeta.
    destruct (String.eqb_spec (trim (orEmpty raw)) "") as [E|E];
      [contradiction|].
    destruct (stringMatch argPattern 5 (trim (orEmpty raw))) as [m|] eqn:Em;
      [|exact Hne].
    apply argPattern_shape in Em
      as (token & w & pre & q & Es & _ & _ & _ & Hq & _ & G4 & _).
    cbn [innerJql]. rewrite G4. cbn [orEmpty].
    exact (query_not_blank raw token pre q Es Hq).
  - unfold IndexJs.parseArg. cbv zeta.
    destruct (String.eqb_spec (trim (orEmpty raw)) "") as [E|E];
      [contradiction|].
    destruct (stringMatch IndexJs.argPattern 3 (trim (orEmpty raw)))
      as [m|] eqn:Em; [|exact Hne].
    apply IndexJs_argPattern_shape in Em
      as (token & w & pre & q & Es & _ & _ & _ & Hq & _ & G2).
    cbn [IndexJs.innerJql]. rewrite G2. cbn [orEmpty].
    exact (query_not_blank raw token pre q Es Hq).
Qed.

(** X13. The inner query the parser returns has no white space around it,
    and it is empty only for a blank argument: whatever the pattern takes as
    the query holds the last character of the trimmed argument.  This holds
    for both variants of the parser. *)
Theorem parseArg_inner_query (raw : option string) :
  (trim (innerJql (parseArg raw)) = innerJql (parseArg raw) /\
   (innerJql (parseArg raw) = "" <-> trim (orEmpty raw) = "")) /\
  (trim (IndexJs.innerJql (IndexJs.parseArg raw))
   = IndexJs.innerJql (IndexJs.parseArg raw) /\
   (IndexJs.innerJql (IndexJs.parseArg raw) = "" <-> trim (orEmpty raw) = "")).
Proof.
  split.
  - unfold parseArg. cbv zeta.
    destruct (String.eqb_spec (trim (orEmpty raw)) "") as [E|E].
    + cbn [innerJql]. rewrite E. split; [reflexivity | tauto].
    + destruct (stringMatch argPattern 5 (trim (orEmpty raw))) as [m|] eqn:Em.
      * apply argPattern_shape in Em
          as (token & w & pre & q & Es & _ & _ & _ & Hq & _ & G4 & _).
        cbn [innerJql]. rewrite G4. cbn [orEmpty].
        split; [apply trim_idempotent|].
        pose proof (query_not_blank raw token pre q Es Hq). tauto.
      * cbn [innerJql]. split; [apply trim_idempotent | tauto].
  - unfold IndexJs.parseArg. cbv zeta.
    destruct (String.eqb_spec (trim (orEmpty raw)) "") as [E|E].
    + cbn [IndexJs.innerJql]. rewrite E. split; [reflexivity | tauto].
    + destruct (stringMatch IndexJs.argPattern 3 (trim (orEmpty raw)))
        as [m|] eqn:Em.
      * apply IndexJs_argPattern_shape in Em
          as (token & w & pre & q & Es & _ & _ & _ & Hq & _ & G2).
        cbn [IndexJs.innerJql]. rewrite G2. cbn [orEmpty].
        split; [apply trim_idempotent|].
        pose proof (query_not_blank raw token pre q Es Hq). tauto.
      * cbn [IndexJs.innerJql]. split; [apply trim_idempotent | tauto].
Qed.

(** X14. A link filter the parser returns is one of the mode "linked", has a
    hint without white space around it, and asks for something: a hint that
    is not empty, or a direction.  What the pattern captures as a direction is
    "inward" or "outward" in some letter case, so a filter never has a
    direction that the parser could not tell. *)
Theorem parseArg_filter_meaningful (raw : option string) (f : LinkFilter) :
  linkFilter (parseArg raw) = Some f ->
  mode (parseArg raw) = "linked" /\
  (exists h, typeHint f = Some h /\ trim h = h) /\
  ~ asksNothing (Some f).
Proof.
  unfold parseArg. cbv zeta.
  destruct (trim (orEmpty raw) =? ""); [discriminate|].
  destruct (stringMatch argPattern 5 (trim (orEmpty raw))) as [m|] eqn:Em;
    [|discriminate].
  apply argPattern_shape in Em
    as (token & w & pre & q & _ & _ & _ & _ & _ & _ & _ & G3).
  cbn [linkFilter mode].
  set (modeRaw := toLowerCase (orEmpty (group m 1))).
  set (md := if modeRaw =? "substask" then "subtask" else modeRaw).
  set (hint := trim (orEmpty (group m 2))).
  set (dir := toLowerCase (orEmpty (group m 3))).
  destruct (String.eqb_spec md "linked") as [Emd|Emd]; [|discriminate].
  cbn [andb].
  destruct (negb (hint =? "") || negb (dir =? "")) eqn:Easks; [|discriminate].
  intros H. apply some_eq in H. subst f.
  split; [exact Emd|]. split.
  - exists hint. split; [reflexivity | apply trim_idempotent].
  - unfold asksNothing. cbn [typeHint direction truthy].
    intros [Hh Hd]. rewrite Hh in Easks. cbn [orb] in Easks.
    apply negb_true_iff, String.eqb_neq in Easks.
    destruct G3 as [G3|(d & w3 & G3 & Hw3 & Hl3)].
    + apply Easks. unfold dir. now rewrite G3.
    + assert (Ed : dir = w3).
      { unfold dir. rewrite G3. cbn [orEmpty].
        apply sameLetters_lower; [|exact Hl3].
        destruct Hw3 as [<-|[<-|[]]]; reflexivity. }
      rewrite Ed in Hd.
      destruct Hw3 as [<-|[<-|[]]]; discriminate.
Qed.

Lemma parseArg_filter_meaningful_witness :
  let raw := Some "linked[ Blocks -> OUTWARD ]: project = ABC" in
  let f := mkLinkFilter (Some "Blocks") (Some Outward) in
  linkFilter (parseArg raw) = Some f /\
  mode (parseArg raw) = "linked" /\
  (exists h, typeHint f = Some h /\ trim h = h) /\
  ~ asksNothing (Some f).
Proof.
  intros raw f.
  assert (H : linkFilter (parseArg raw) = Some f) by (vm_compute; reflexivity).
  split; [exact H|].
  exact (parseArg_filter_meaningful raw f H).
Defined.

(** X15. An argument without a colon has no mode prefix: both variants of
    the parser return the mode "linked", no filter, and the whole trimmed
    argument as the inner query. *)
Theorem parseArg_colon_free (raw : option string) :
  hasChar ":" (trim (orEmpty raw)) = false ->
  parseArg raw = mkParsedArg "linked" None (trim (orEmpty raw)) /\
  IndexJs.parseArg raw = IndexJs.mkParsedArg "linked" (trim (orEmpty raw)).
Proof.
  intros H. split.
  - unfold parseArg. cbv zeta.
    destruct (String.eqb_spec (trim (orEmpty raw)) "") as [E|E];
      [now rewrite E|].
    destruct (stringMatch argPattern 5 (trim (orEmpty raw))) as [m|] eqn:Em;
      [|reflexivity].
    apply argPattern_shape in Em
      as (token & w & pre & q & Es & _ & _ & Hc & _).
    rewrite Es, !hasChar_app, Hc, orb_true_r in H. discriminate.
  - unfold IndexJs.parseArg. cbv zeta.
    destruct (String.eqb_spec (trim (orEmpty raw)) "") as [E|E];
      [now rewrite E|].
    destruct (stringMatch IndexJs.argPattern 3 (trim (orEmpty raw)))
      as [m|] eqn:Em; [|reflexivity].
    apply IndexJs_argPattern_shape in Em
      as (token & w & pre & q & Es & _ & _ & Hc & _).
    rewrite Es, !hasChar_app, Hc, orb_true_r in H. discriminate.
Qed.

Lemma parseArg_colon_free_witness :
  parseArg (Some "  project = ABC AND status = Done ")
  = mkParsedArg "linked" None "project = ABC AND status = Done" /\
  IndexJs.parseArg (Some "  project = ABC AND status = Done ")
  = IndexJs.mkParsedArg "linked" "project = ABC AND status = Done".
Proof.
  exact (parseArg_colon_free (Some "  project = ABC AND status = Done ")
           eq_refl).
Defined.

(* ================================================================= *)
(** ** The forms of the argument without a filter *)

Lemma space_not_open (ch : ascii) :
  isWhiteSpace ch = true ->
  Ascii.eqb (canonicalize ch) (canonicalize "[") = false.
Proof.
  destruct ch as [[|] [|] [|] [|] [|] [|] [|] [|]]; vm_compute;
    intros H; try reflexivity; discriminate.
Qed.

Lemma space_not_colon (ch : ascii) :
  isWhiteSpace ch = true ->
  Ascii.eqb (canonicalize ch) (canonicalize ":") = false.
Proof.
  destruct ch as [[|] [|] [|] [|] [|] [|] [|] [|]]; vm_compute;
    intros H; try reflexivity; discriminate.
Qed.

Lemma wordChar_not_space (b : ascii) :
  isWordChar b = true -> isWhiteSpace b = false.
Proof.
  destruct b as [[|] [|] [|] [|] [|] [|] [|] [|]]; vm_compute;
    intros H; try reflexivity; discriminate.
Qed.

(** The part of the filter is skipped before a colon. *)
Lemma filterPart_skipped (i : nat) (w1 rest : string)
  (c : list (option string)) (k : Continuation) :
  isBlank w1 = true ->
  compile filterPart (mkState i (w1 ++ String ":" rest) c) k
  = k (mkState i (w1 ++ String ":" rest) c).
Proof.
  intros Hw. unfold filterPart. apply compile_opt_skipped.
  apply spaces_then_chr_fails;
    [exact space_not_open | exact Hw | reflexivity | reflexivity].
Qed.

Lemma sameLetters_split (w w' : string) :
  forall token,
    sameLetters token (w ++ w') = true ->
    exists t t', token = t ++ t' /\ sameLetters t w = true /\
                 sameLetters t' w' = true.
Proof.
  induction w as [|b w IH]; intros token H.
  - exists "", token. auto.
  - destruct token as [|a t]; [discriminate|].
    simpl in H. apply andb_prop in H as [Hab H].
    destruct (IH _ H) as (t1 & t2 & -> & H1 & H2).
    exists (String a t1), t2. simpl. rewrite Hab, H1. auto.
Qed.

(** A literal word refuses a text that has its first letters and then another
    letter. *)
Lemma lit_prefix_mismatch (w : string) (b : ascii) (w' : string) :
  forall token d rest i c k,
    sameLetters token w = true ->
    Ascii.eqb (canonicalize d) (canonicalize b) = false ->
    compile (lit (w ++ String b w')) (mkState i (token ++ String d rest) c) k
    = None.
Proof.
  induction w as [|a w IH]; intros token d rest i c k H Hd.
  - destruct token; [|discriminate]. apply lit_mismatch. exact Hd.
  - destruct token as [|t0 t]; [discriminate|].
    simpl in H. apply andb_prop in H as [Hab H].
    assert (E : exists b' w'', w ++ String b w' = String b' w'').
    { destruct w; simpl; eauto. }
    destruct E as (b' & w'' & E).
    change (String a w ++ String b w') with (String a (w ++ String b w')).
    pose proof (IH t d rest (S i) c k H Hd) as IH'.
    rewrite E in *. rewrite lit_cons. unfold chr.
    change (String t0 t ++ String d rest) with (String t0 (t ++ String d rest)).
    rewrite compile_charset, Hab. exact IH'.
Qed.

Ltac other_letter Hl :=
  rewrite compile_alt_next
    by (apply lit_mismatch; apply (sameLetters_other _ _ _ _ _ Hl);
        reflexivity).

(** The part of the mode, on a token that is one of the five words. *)
Lemma modePart_word (w : string) (i : nat) (token rest : string)
  (c : list (option string)) (k : Continuation) (z : MatchState) :
  In w modeWords -> sameWord token w = true ->
  k (mkState (i + String.length token) rest (setCapture 1 token c)) = Some z ->
  compile modePart (mkState i (token ++ rest) c) k = Some z.
Proof.
  intros Hw Ht Hk.
  pose proof (sameWord_letters token w (modeWords_lower w Hw) Ht) as Hl.
  unfold modePart. rewrite compile_group.
  destruct Hw as [<-|[<-|[<-|[<-|[<-|[]]]]]].
  - apply compile_alt_first.
    rewrite lit_match by (discriminate || assumption).
    rewrite capture_app. exact Hk.
  - other_letter Hl. apply compile_alt_first.
    rewrite lit_match by (discriminate || assumption).
    rewrite capture_app. exact Hk.
  - do 2 other_letter Hl. apply compile_alt_first.
    rewrite lit_match by (discriminate || assumption).
    rewrite capture_app. exact Hk.
  - do 3 other_letter Hl. apply compile_alt_first.
    rewrite lit_match by (discriminate || assumption).
    rewrite capture_app. exact Hk.
  - do 3 other_letter Hl.
    rewrite compile_alt_next.
    + rewrite lit_match by (discriminate || assumption).
      rewrite capture_app. exact Hk.
    + destruct (sameLetters_split "sub" "stask" token Hl)
        as (t1 & t2 & -> & H1 & H2).
      destruct (sameLetters_first _ _ _ H2) as (d & t3 & -> & Ed).
      rewrite append_assoc. cbn [append].
      apply (lit_prefix_mismatch "sub" "t" "ask"); [exact H1|].
      apply Ascii.eqb_eq in Ed. now rewrite Ed.
Qed.

(** The end of the patterns, on a colon and a query. *)
Lemma tailPart_match (n i : nat) (w2 w3 q : string) (c : list (option string))
  (k : Continuation) (z : MatchState) :
  isBlank w2 = true -> isBlank w3 = true -> isQuery q = true ->
  k (mkState (S (i + String.length w2) + String.length w3 + String.length q)
       "" (setCapture n q c)) = Some z ->
  compile (tailPart n) (mkState i (w2 ++ String ":" (w3 ++ q)) c) k = Some z.
Proof.
  intros H2 H3 Hq Hk. unfold isQuery in Hq. apply andb_prop in Hq as [Ht Hl].
  unfold tailPart, space, dot.
  rewrite compile_seq. apply star_greedy_all; [exact H2 | reflexivity|].
  rewrite compile_seq, chr_match by reflexivity.
  rewrite compile_seq. apply star_greedy_all;
    [exact H3 | now apply isTrimmed_first |].
  rewrite <- (append_nil_r q) at 1.
  rewrite compile_seq, compile_group.
  apply plus_greedy_all;
    [now apply isTrimmed_nonempty | exact Hl | reflexivity |].
  rewrite capture_app. cbn [compile remaining]. exact Hk.
Qed.

(** The text of the argument without the white space around it. *)
Lemma plainArg_trim (w0 token w1 w2 query w3 w : string) :
  isBlank w0 = true -> isBlank w3 = true ->
  allChars isWordChar w = true -> w <> "" ->
  sameLetters token w = true -> isQuery query = true ->
  trim (plainArg w0 token w1 w2 query w3)
  = token ++ w1 ++ String ":" (w2 ++ query)
  /\ token ++ w1 ++ String ":" (w2 ++ query) <> "".
Proof.
  intros H0 H3 Hw Hne Hl Hq.
  destruct w as [|b w]; [contradiction|].
  simpl in Hw. apply andb_prop in Hw as [Hb _].
  destruct (sameLetters_first _ _ _ Hl) as (a & t & -> & Ea).
  split; [|discriminate].
  set (s := String a t ++ w1 ++ String ":" (w2 ++ query)).
  replace (plainArg w0 (String a t) w1 w2 query w3) with (w0 ++ s ++ w3).
  - apply trim_around; try assumption.
    unfold isTrimmed. apply andb_true_intro. split.
    + simpl. apply negb_true_iff. apply Ascii.eqb_eq in Ea.
      rewrite <- (canonicalize_space a), Ea, canonicalize_space.
      now apply wordChar_not_space.
    + unfold s.
      change (String a t ++ w1 ++ String ":" (w2 ++ query))
        with (String a t ++ w1 ++ ":" ++ w2 ++ query).
      rewrite <- !append_assoc. apply lastChar_app.
      unfold isQuery, isTrimmed in Hq.
      apply andb_prop in Hq as [Hq _]. now apply andb_prop in Hq as [_ Hq].
  - unfold s, plainArg.
    repeat (progress (rewrite ?append_assoc; cbn [append])). reflexivity.
Qed.

Lemma stringMatch_first (r : regex) (ncap : nat) (s : string) (z : MatchState) :
  compile r (mkState 0 s (repeat None ncap))
    (fun y => Some (capture 0 (mkState 0 s (repeat None ncap)) y)) = Some z ->
  stringMatch (AssertStart ++ r) ncap s = Some (captures z).
Proof.
  intros H. unfold stringMatch.
  rewrite (regExpExecFrom_first _ _ _ _ z); [reflexivity|].
  rewrite compile_group, compile_seq, compile_start. exact H.
Qed.

(** The match of an argument with a mode and no filter. *)
Lemma argPattern_plain (w token w1 w2 query : string) :
  In w modeWords -> sameWord token w = true ->
  isBlank w1 = true -> isBlank w2 = true -> isQuery query = true ->
  exists whole,
    stringMatch argPattern 5 (token ++ w1 ++ String ":" (w2 ++ query))
    = Some [Some whole; Some token; None; None; Some query].
Proof.
  intros Hw Ht H1 H2 Hq.
  set (s := token ++ w1 ++ String ":" (w2 ++ query)).
  set (j := S (0 + String.length token + String.length w1)
            + String.length w2 + String.length query).
  assert (E : compile (modePart ++ filterPart ++ queryPart)
                (mkState 0 s (repeat None 5))
                (fun y => Some (capture 0 (mkState 0 s (repeat None 5)) y))
              = Some (capture 0 (mkState 0 s (repeat None 5))
                        (mkState j ""
                           (setCapture 4 query
                              (setCapture 1 token (repeat None 5)))))).
  { rewrite compile_seq. apply (modePart_word w); [exact Hw | exact Ht|].
    rewrite compile_seq, filterPart_skipped by exact H1.
    change queryPart with (tailPart 4).
    apply tailPart_match; try assumption. reflexivity. }
  eexists. unfold argPattern.
  rewrite (stringMatch_first _ _ _ _ E). reflexivity.
Qed.

(** The same, for the pattern of the earlier variant. *)
Lemma IndexJs_argPattern_plain (w token w1 w2 query : string) :
  In w earlierModeWords -> sameWord token w = true ->
  isBlank w1 = true -> isBlank w2 = true -> isQuery query = true ->
  exists whole,
    stringMatch IndexJs.argPattern 3 (token ++ w1 ++ String ":" (w2 ++ query))
    = Some [Some whole; Some token; Some query].
Proof.
  intros Hw Ht H1 H2 Hq.
  pose proof (sameWord_letters token w (earlierModeWords_lower w Hw) Ht) as Hl.
  set (s := token ++ w1 ++ String ":" (w2 ++ query)).
  set (j := S (0 + String.length token + String.length w1)
            + String.length w2 + String.length query).
  set (K := fun y => Some (capture 0 (mkState 0 s (repeat None 3)) y)).
  set (z := capture 0 (mkState 0 s (repeat None 3))
              (mkState j ""
                 (setCapture 2 query (setCapture 1 token (repeat None 3))))).
  assert (Hk : (fun y =>
                  compile (tailPart 2)
                    (capture 1 (mkState 0 s (repeat None 3)) y) K)
                 (mkState (0 + String.length token)
                    (w1 ++ String ":" (w2 ++ query)) (repeat None 3))
               = Some z).
  { cbn beta. unfold s. rewrite capture_app.
    apply tailPart_match; try assumption. reflexivity. }
  assert (E : compile (Group 1 (lit "epic-of" <|> lit "linked"
                                <|> lit "subtasks-of" <|> lit "parent-of")
                       ++ tailPart 2)
                (mkState 0 s (repeat None 3)) K = Some z).
  { rewrite compile_seq, compile_group. unfold s in *.
    destruct Hw as [<-|[<-|[<-|[<-|[]]]]].
    - apply compile_alt_first.
      rewrite lit_match by (discriminate || assumption). exact Hk.
    - other_letter Hl. apply compile_alt_first.
      rewrite lit_match by (discriminate || assumption). exact Hk.
    - do 2 other_letter Hl. apply compile_alt_first.
      rewrite lit_match by (discriminate || assumption). exact Hk.
    - do 3 other_letter Hl.
      rewrite lit_match by (discriminate || assumption). exact Hk. }
  eexists. unfold IndexJs.argPattern.
  change (Star true space ++ chr ":" ++ Star true space ++
          Group 2 (plus true dot) ++ AssertEnd)%re with (tailPart 2).
  rewrite (stringMatch_first _ _ _ _ E). reflexivity.
Qed.

(** X16. The forms [parent: q], [epic-of: q], [linked: q], [subtask: q] and
    [substask: q]: the word of the mode in any letter case, a colon and a
    query on one line, with any white space around the three, parse to the
    mode of the word, to no filter and to the query; "substask" is read as
    "subtask". *)
Theorem parseArg_plain_forms (w w0 token w1 w2 query w3 : string) :
  In w ["parent"; "epic-of"; "linked"; "subtask"; "substask"] ->
  sameWord token w = true ->
  isBlank w0 = true -> isBlank w1 = true -> isBlank w2 = true ->
  isBlank w3 = true -> isQuery query = true ->
  parseArg (Some (plainArg w0 token w1 w2 query w3))
  = mkParsedArg (if w =? "substask" then "subtask" else w) None query.
Proof.
  intros Hw Ht H0 H1 H2 H3 Hq.
  pose proof (modeWords_lower w Hw) as Hlow.
  assert (Hne : w <> "")
    by (intros ->; repeat (destruct Hw as [Hw|Hw]; [discriminate|]); destruct Hw).
  destruct (plainArg_trim w0 token w1 w2 query w3 w H0 H3 Hlow Hne
              (sameWord_letters token w Hlow Ht) Hq) as [Etrim Hs].
  destruct (argPattern_plain w token w1 w2 query Hw Ht H1 H2 Hq) as [whole Em].
  unfold parseArg. cbn [orEmpty]. cbv zeta. rewrite Etrim.
  apply String.eqb_neq in Hs. rewrite Hs, Em.
  cbn [group nth orEmpty].
  unfold sameWord in Ht. apply String.eqb_eq in Ht. rewrite Ht.
  unfold isQuery in Hq. apply andb_prop in Hq as [Hq _].
  rewrite (trim_trimmed query Hq).
  change (trim "") with "". cbn [toLowerCase String.eqb negb orb].
  now rewrite andb_false_r.
Qed.

Lemma parseArg_plain_forms_witness :
  parseArg (Some (plainArg " " "SubsTask" "" "  " "project = ABC" " "))
  = mkParsedArg "subtask" None "project = ABC".
Proof.
  refine (parseArg_plain_forms "substask" " " "SubsTask" "" "  "
            "project = ABC" " " _ _ _ _ _ _ _);
    try reflexivity.
  simpl. tauto.
Defined.

(** X17. The earlier variant takes the forms [epic-of: q], [linked: q],
    [subtasks-of: q] and [parent-of: q] in the same way: the word in any
    letter case, a colon and a query on one line, with any white space around
    the three, parse to the mode of the word and to the query. *)
Theorem IndexJs_parseArg_forms (w w0 token w1 w2 query w3 : string) :
  In w ["epic-of"; "linked"; "subtasks-of"; "parent-of"] ->
  sameWord token w = true ->
  isBlank w0 = true -> isBlank w1 = true -> isBlank w2 = true ->
  isBlank w3 = true -> isQuery query = true ->
  IndexJs.parseArg (Some (plainArg w0 token w1 w2 query w3))
  = IndexJs.mkParsedArg w query.
Proof.
  intros Hw Ht H0 H1 H2 H3 Hq.
  pose proof (earlierModeWords_lower w Hw) as Hlow.
  assert (Hne : w <> "")
    by (intros ->; repeat (destruct Hw as [Hw|Hw]; [discriminate|]); destruct Hw).
  destruct (plainArg_trim w0 token w1 w2 query w3 w H0 H3 Hlow Hne
              (sameWord_letters token w Hlow Ht) Hq) as [Etrim Hs].
  destruct (IndexJs_argPattern_plain w token w1 w2 query Hw Ht H1 H2 Hq)
    as [whole Em].
  unfold IndexJs.parseArg. cbn [orEmpty]. cbv zeta. rewrite Etrim.
  apply String.eqb_neq in Hs. rewrite Hs, Em.
  cbn [group nth orEmpty].
  unfold sameWord in Ht. apply String.eqb_eq in Ht. rewrite Ht.
  unfold isQuery in Hq. apply andb_prop in Hq as [Hq _].
  now rewrite (trim_trimmed query Hq).
Qed.

Lemma IndexJs_parseArg_forms_witness :
  IndexJs.parseArg (Some (plainArg "" "Parent-Of" " " " " "labels = foo" ""))
  = IndexJs.mkParsedArg "parent-of" "labels = foo".
Proof.
  refine (IndexJs_parseArg_forms "parent-of" "" "Parent-Of" " " " "
            "labels = foo" "" _ _ _ _ _ _ _);
    try reflexivity.
  simpl. tauto.
Defined.

(* ================================================================= *)
(** ** More on the resolver entry point *)

(** The first request of the enhanced loop. *)
Lemma enhancedLoop_first (svc : Service) (q : string) (wf : list string)
  (size : Z) (n : nat) (tok : option string) (st : SearchState) :
  exists rest,
    net (snd (enhancedLoop svc q wf size (S n) tok st))
    = (net st ++ PostSearchJql q size wf (if truthy tok then tok else None)
                 :: rest)%list.
Proof.
  rewrite enhancedLoop_step. cbv zeta.
  set (r := PostSearchJql q size wf (if truthy tok then tok else None)).
  assert (Hone : exists rest : list Request,
             (net st ++ [r])%list = (net st ++ r :: rest)%list)
    by (now exists []).
  destruct (svc (net st) r) as [res|e]; [|exact Hone].
  destruct (status res =? 404)%Z; [exact Hone|].
  destruct (negb (ok res)); [exact Hone|].
  destruct (json res) as [data|e]; [|exact Hone].
  cbn [net acc].
  destruct (negb (truthy (data_nextPageToken data)) ||
            match data_isLast data with Some true => true | _ => false end);
    [exact Hone|].
  destruct (enhancedLoop_requests svc q wf size n (data_nextPageToken data)
              (mkSearchState (net st ++ [r])
                 (acc st ++ orNil (data_issues data))))
    as (reqs & Hnet & _).
  exists reqs. cbn [net] in Hnet. rewrite Hnet, <- app_assoc. reflexivity.
Qed.

(** The first request of the retriever, when the cap of the pages is not 0. *)
Lemma searchSeedIssues_first (svc : Service) (q : string) (wf : list string)
  (n : nat) (size : Z) (log : list Request) :
  exists rest,
    snd (searchSeedIssues svc q wf (Some (S n)) (Some size) log)
    = (log ++ PostSearchJql q size wf None :: rest)%list.
Proof.
  unfold searchSeedIssues. rewrite searchSeedIssuesBody_cases.
  destruct (enhancedLoop_first svc q wf size n None (mkSearchState log []))
    as (rest & Hp).
  cbn [truthy net] in Hp.
  destruct (enhancedLoop svc q wf size (S n) None (mkSearchState log []))
    as [[u|e] st'] eqn:Ee; cbn [snd] in Hp.
  - exists rest. exact Hp.
  - destruct (includes (message e) "ENHANCED_JQL_NOT_AVAILABLE").
    + destruct (legacyLoop_requests svc q wf size (S n) (numOfZ 0) st')
        as (gets & Hg & _).
      exists (rest ++ gets)%list.
      destruct (legacyLoop svc q wf size (S n) (numOfZ 0) st') as [[u|e'] st''];
        cbn [snd net] in *; rewrite Hg, Hp, <- app_assoc; reflexivity.
    + exists rest. exact Hp.
Qed.

(** X18. The operator of the clause only chooses between the fragment and
    its negation: two invocations with the same arguments and any two
    operators make the same requests, and either both return the fragment
    that matches nothing (a blank argument, or a failure), or they return the
    fragments the builder makes of one and the same set of at most 1000 keys,
    each negated unless its operator is "in" (or absent, or empty).  This
    holds for both variants of the entry point. *)
Theorem operator_only_negates (svc : Service) (op1 op2 : option string)
  (arglist : option (list string)) (log : list Request) :
  let call op := Some (mkInvocation (Some (mkClause op arglist))) in
  let negate op := negb (operatorOf (Some (mkClause op arglist)) =? "in") in
  (snd (issuesWithText svc (call op1) log)
   = snd (issuesWithText svc (call op2) log) /\
   ((jql (fst (issuesWithText svc (call op1) log)) = SAFE_NO_MATCH /\
     jql (fst (issuesWithText svc (call op2) log)) = SAFE_NO_MATCH) \/
    exists keys,
      NoDup keys /\ List.length keys <= 1000 /\
      jql (fst (issuesWithText svc (call op1) log))
      = buildIssueKeySetJql (Some keys) (negate op1) /\
      jql (fst (issuesWithText svc (call op2) log))
      = buildIssueKeySetJql (Some keys) (negate op2))) /\
  (snd (IndexJs.issuesWithText svc (call op1) log)
   = snd (IndexJs.issuesWithText svc (call op2) log) /\
   ((jql (fst (IndexJs.issuesWithText svc (call op1) log)) = SAFE_NO_MATCH /\
     jql (fst (IndexJs.issuesWithText svc (call op2) log)) = SAFE_NO_MATCH) \/
    exists keys,
      NoDup keys /\ List.length keys <= 1000 /\
      jql (fst (IndexJs.issuesWithText svc (call op1) log))
      = buildIssueKeySetJql (Some keys) (negate op1) /\
      jql (fst (IndexJs.issuesWithText svc (call op2) log))
      = buildIssueKeySetJql (Some keys) (negate op2))).
Proof.
  intros call negate. split.
  - unfold issuesWithText, resolve, call. cbn [clause arg0Of arguments].
    destruct (innerJql _ =? ""); [split; [reflexivity | now left]|].
    unfold bind.
    destruct (searchSeedIssues _ _ _ _ _ _) as [[seeds|e] log'];
      [|split; [reflexivity | now left]].
    unfold ret. cbn [fst snd jql]. split; [reflexivity|]. right.
    match goal with
    | |- context [limitedKeys ?k] =>
        assert (Hk : NoDup k);
        [|destruct (limitedKeys_capped k Hk) as [E _]; rewrite E;
          exists (firstn 1000 k)]
    end.
    + destruct (mode _ =? "parent"); [apply extractParentKeys_NoDup|].
      destruct (mode _ =? "epic-of"); [apply extractParentEpicKeys_NoDup|].
      destruct (mode _ =? "subtask"); [apply extractSubtaskKeys_NoDup|].
      apply extractLinkedIssueKeys_NoDup.
    + repeat split; [now apply NoDup_firstn | rewrite length_firstn; lia].
  - unfold IndexJs.issuesWithText, IndexJs.resolve, call.
    cbn [clause arg0Of arguments].
    destruct (IndexJs.innerJql _ =? ""); [split; [reflexivity | now left]|].
    unfold bind.
    destruct (searchSeedIssues _ _ _ _ _ _) as [[seeds|e] log'];
      [|split; [reflexivity | now left]].
    unfold ret. cbn [fst snd jql]. split; [reflexivity|]. right.
    match goal with
    | |- context [limitedKeys ?k] =>
        assert (Hk : NoDup k);
        [|destruct (limitedKeys_capped k Hk) as [E _]; rewrite E;
          exists (firstn 1000 k)]
    end.
    + destruct (IndexJs.mode _ =? "epic-of");
        [apply extractParentEpicKeys_NoDup|].
      destruct (IndexJs.mode _ =? "subtasks-of");
        [apply extractSubtaskKeys_NoDup|].
      destruct (IndexJs.mode _ =? "parent-of");
        [apply extractParentKeys_NoDup|].
      apply IndexJs_extractLinkedIssueKeys_NoDup.
    + repeat split; [now apply NoDup_firstn | rewrite length_firstn; lia].
Qed.

(** X19. An argument that is not blank is always searched for: the entry
    point, in both variants, first posts the inner query to the enhanced
    search, with a page size of 100, the four fields and no page token.  With
    the short circuit on blank arguments, a request is made if and only if the
    argument is not blank. *)
Theorem nonblank_argument_searches (svc : Service) (args : option Invocation)
  (log : list Request) :
  let arg0 := arg0Of (match args with Some a => clause a | None => None end) in
  trim (orEmpty arg0) <> "" ->
  (exists rest,
     snd (issuesWithText svc args log)
     = (log ++ PostSearchJql (innerJql (parseArg arg0)) 100
                 ["issuelinks"; "parent"; "issuetype"; "subtasks"] None
               :: rest)%list) /\
  (exists rest,
     snd (IndexJs.issuesWithText svc args log)
     = (log ++ PostSearchJql (IndexJs.innerJql (IndexJs.parseArg arg0)) 100
                 ["issuelinks"; "parent"; "issuetype"; "subtasks"] None
               :: rest)%list).
Proof.
  intros arg0 Hne. split.
  - assert (Hq : innerJql (parseArg arg0) <> "").
    { exact (proj1 (inner_of_nonblank arg0 Hne)). }
    unfold issuesWithText, resolve. fold arg0.
    apply String.eqb_neq in Hq. rewrite Hq. unfold bind.
    destruct (searchSeedIssues_first svc (innerJql (parseArg arg0))
                wantedFields 3 100 log) as (rest & Hr).
    exists rest.
    destruct (searchSeedIssues _ _ _ _ _ _) as [[seeds|e] log'];
      cbn [snd] in *; exact Hr.
  - assert (Hq : IndexJs.innerJql (IndexJs.parseArg arg0) <> "").
    { exact (proj2 (inner_of_nonblank arg0 Hne)). }
    unfold IndexJs.issuesWithText, IndexJs.resolve. fold arg0.
    apply String.eqb_neq in Hq. rewrite Hq. unfold bind.
    destruct (searchSeedIssues_first svc
                (IndexJs.innerJql (IndexJs.parseArg arg0))
                wantedFields 3 100 log) as (rest & Hr).
    exists rest.
    destruct (searchSeedIssues _ _ _ _ _ _) as [[seeds|e] log'];
      cbn [snd] in *; exact Hr.
Qed.

Lemma nonblank_argument_searches_witness :
  exists rest,
    snd (issuesWithText serviceDown (invoke (Some "in") " x ") [])
    = (PostSearchJql "x" 100
         ["issuelinks"; "parent"; "issuetype"; "subtasks"] None :: rest)%list.
Proof.
  assert (H : trim (orEmpty (Some " x ")) <> "") by (vm_compute; discriminate).
  exact (proj1 (nonblank_argument_searches serviceDown
                  (invoke (Some "in") " x ") [] H)).
Defined.

(* ================================================================= *)
(** ** The mode words of one variant, given to the other *)

Lemma stringMatch_none (r : regex) (ncap : nat) (s : string) :
  compile r (mkState 0 s (repeat None ncap))
    (fun y => Some (capture 0 (mkState 0 s (repeat None ncap)) y)) = None ->
  stringMatch (AssertStart ++ r) ncap s = None.
Proof.
  intros H. unfold stringMatch.
  destruct s as [|a s]; cbn [regExpExecFrom];
    rewrite compile_group, compile_seq, compile_start, H; [reflexivity|].
  now rewrite regExpExecFrom_anchored.
Qed.

(** After the word of the mode, a character that is no white space, no
    opening bracket and no colon stops the match. *)
Lemma after_mode_fails (d : ascii) (rest : string) (i : nat)
  (c : list (option string)) (k : Continuation) :
  isWhiteSpace d = false ->
  Ascii.eqb (canonicalize d) (canonicalize "[") = false ->
  Ascii.eqb (canonicalize d) (canonicalize ":") = false ->
  compile (filterPart ++ queryPart) (mkState i (String d rest) c) k = None.
Proof.
  intros Hd Hopen Hcolon. rewrite compile_seq. unfold filterPart.
  rewrite compile_opt_skipped.
  - unfold queryPart.
    exact (spaces_then_chr_fails ":" _ "" d rest i c k space_not_colon
             eq_refl Hd Hcolon).
  - exact (spaces_then_chr_fails "[" _ "" d rest i c _ space_not_open
             eq_refl Hd Hopen).
Qed.

Lemma blank_colon_first (w1 rest : string) :
  isBlank w1 = true ->
  exists d r, w1 ++ String ":" rest = String d r /\
              (isWhiteSpace d = true \/ d = ":"%char).
Proof.
  destruct w1 as [|a w1]; intros H.
  - exists ":"%char, rest. auto.
  - exists a, (w1 ++ String ":" rest). split; [reflexivity|].
    left. simpl in H. now apply andb_prop in H as [H _].
Qed.

Lemma space_not_s (ch : ascii) :
  isWhiteSpace ch = true ->
  Ascii.eqb (canonicalize ch) (canonicalize "s") = false.
Proof.
  destruct ch as [[|] [|] [|] [|] [|] [|] [|] [|]]; vm_compute;
    intros H; try reflexivity; discriminate.
Qed.

Ltac first_letter Hl :=
  apply lit_mismatch; apply (sameLetters_other _ _ _ _ _ Hl); reflexivity.

Ltac next_by_letter Hl := rewrite compile_alt_next by first_letter Hl.

(** The letter of a token at the place of a letter of the word. *)
Ltac letter_of E d b :=
  apply Ascii.eqb_eq in E;
  assert (isWhiteSpace d = false)
    by (rewrite <- (canonicalize_space d), E; reflexivity).

(** The current pattern takes no argument that starts with "parent-of" or
    "subtasks-of". *)
Lemma argPattern_refuses_earlier (w token rest : string) :
  In w ["parent-of"; "subtasks-of"] -> sameLetters token w = true ->
  stringMatch argPattern 5 (token ++ rest) = None.
Proof.
  intros Hw Hl. unfold argPattern. apply stringMatch_none.
  rewrite compile_seq. unfold modePart. rewrite compile_group.
  destruct Hw as [<-|[<-|[]]].
  - rewrite compile_alt_next.
    + do 3 next_by_letter Hl. first_letter Hl.
    + destruct (sameLetters_split "parent" "-of" token Hl)
        as (t1 & t2 & -> & H1 & H2).
      destruct (sameLetters_first _ _ _ H2) as (d & t3 & -> & Ed).
      rewrite append_assoc. cbn [append].
      rewrite lit_match by (discriminate || assumption).
      rewrite capture_app.
      letter_of Ed d "-"%char.
      apply after_mode_fails; [assumption | |]; now rewrite Ed.
  - do 3 next_by_letter Hl.
    destruct (sameLetters_split "sub" "tasks-of" token Hl)
      as (t1 & t2 & E & H1 & H2).
    destruct (sameLetters_first _ _ _ H2) as (d & t3 & E2 & Ed).
    destruct (sameLetters_split "subtask" "s-of" token Hl)
      as (u1 & u2 & E' & H1' & H2').
    destruct (sameLetters_first _ _ _ H2') as (d' & u3 & E2' & Ed').
    rewrite compile_alt_next.
    + subst token t2. rewrite append_assoc. cbn [append].
      apply (lit_prefix_mismatch "sub" "s" "task"); [exact H1|].
      apply Ascii.eqb_eq in Ed. now rewrite Ed.
    + rewrite E'. subst u2. rewrite append_assoc. cbn [append].
      rewrite lit_match by (discriminate || assumption).
      rewrite capture_app.
      letter_of Ed' d' "s"%char.
      apply after_mode_fails; [assumption | |]; now rewrite Ed'.
Qed.

(** The earlier pattern takes no argument made of "parent", "subtask" or
    "substask", a colon and a query. *)
Lemma IndexJs_argPattern_refuses_later (w token w1 rest : string) :
  In w ["parent"; "subtask"; "substask"] -> sameLetters token w = true ->
  isBlank w1 = true ->
  stringMatch IndexJs.argPattern 3 (token ++ w1 ++ String ":" rest) = None.
Proof.
  intros Hw Hl H1. unfold IndexJs.argPattern. apply stringMatch_none.
  rewrite compile_seq, compile_group.
  destruct (blank_colon_first w1 rest H1) as (d & r & E & Hd).
  destruct Hw as [<-|[<-|[<-|[]]]].
  - do 3 next_by_letter Hl. rewrite E.
    apply (lit_prefix_mismatch "parent" "-" "of"); [exact Hl|].
    destruct Hd as [Hd| ->]; [now apply space_not_dash | reflexivity].
  - do 2 next_by_letter Hl. rewrite compile_alt_next; [first_letter Hl|].
    rewrite E.
    apply (lit_prefix_mismatch "subtask" "s" "-of"); [exact Hl|].
    destruct Hd as [Hd| ->]; [now apply space_not_s | reflexivity].
  - do 2 next_by_letter Hl. rewrite compile_alt_next; [first_letter Hl|].
    destruct (sameLetters_split "sub" "stask" token Hl)
      as (t1 & t2 & -> & H1' & H2).
    destruct (sameLetters_first _ _ _ H2) as (d' & t3 & -> & Ed).
    rewrite append_assoc. cbn [append].
    apply (lit_prefix_mismatch "sub" "t" "asks-of"); [exact H1'|].
    apply Ascii.eqb_eq in Ed. now rewrite Ed.
Qed.

(** X20. The two variants do not read each other's mode words.  The words
    "parent-of" and "subtasks-of" of the earlier variant are no modes of the
    current one: an argument made of one of them, a colon and a query is read
    in the mode "linked", with the whole trimmed text as the inner query.  The
    same holds in the earlier variant for the words "parent", "subtask" and
    "substask". *)
Theorem variants_read_other_words_as_queries
  (w w0 token w1 w2 query w3 : string) :
  sameWord token w = true ->
  isBlank w0 = true -> isBlank w1 = true -> isBlank w2 = true ->
  isBlank w3 = true -> isQuery query = true ->
  (In w ["parent-of"; "subtasks-of"] ->
   parseArg (Some (plainArg w0 token w1 w2 query w3))
   = mkParsedArg "linked" None (plainArg "" token w1 w2 query "")) /\
  (In w ["parent"; "subtask"; "substask"] ->
   IndexJs.parseArg (Some (plainArg w0 token w1 w2 query w3))
   = IndexJs.mkParsedArg "linked" (plainArg "" token w1 w2 query "")).
Proof.
  intros Ht H0 H1 H2 H3 Hq.
  assert (Etext : plainArg "" token w1 w2 query ""
                  = token ++ w1 ++ String ":" (w2 ++ query)).
  { unfold plainArg. cbn [append]. now rewrite append_nil_r. }
  assert (Hall : In w ["parent-of"; "subtasks-of"; "parent"; "subtask";
                       "substask"] ->
                 sameLetters token w = true /\
                 trim (plainArg w0 token w1 w2 query w3)
                 = token ++ w1 ++ String ":" (w2 ++ query) /\
                 token ++ w1 ++ String ":" (w2 ++ query) <> "").
  { intros Hw.
    assert (Hlow : allChars isWordChar w = true).
    { repeat (destruct Hw as [<-|Hw]; [reflexivity|]). destruct Hw. }
    assert (Hne : w <> "").
    { intros ->. repeat (destruct Hw as [Hw|Hw]; [discriminate|]).
      destruct Hw. }
    pose proof (sameWord_letters token w Hlow Ht) as Hl.
    split; [exact Hl|].
    exact (plainArg_trim w0 token w1 w2 query w3 w H0 H3 Hlow Hne Hl Hq). }
  rewrite Etext. split; intros Hw.
  - destruct Hall as (Hl & Etrim & Hs); [simpl in *; tauto|].
    unfold parseArg. cbn [orEmpty]. cbv zeta. rewrite Etrim.
    apply String.eqb_neq in Hs. rewrite Hs.
    now rewrite (argPattern_refuses_earlier w token _ Hw Hl).
  - destruct Hall as (Hl & Etrim & Hs); [simpl in *; tauto|].
    unfold IndexJs.parseArg. cbn [orEmpty]. cbv zeta. rewrite Etrim.
    apply String.eqb_neq in Hs. rewrite Hs.
    now rewrite (IndexJs_argPattern_refuses_later w token w1 _ Hw Hl H1).
Qed.

Lemma variants_read_other_words_as_queries_witness :
  parseArg (Some (plainArg " " "Parent-Of" "" " " "labels = foo" ""))
  = mkParsedArg "linked" None "Parent-Of: labels = foo".
Proof.
  refine (proj1 (variants_read_other_words_as_queries "parent-of" " "
                   "Parent-Of" "" " " "labels = foo" "" _ _ _ _ _ _) _);
    try reflexivity.
  simpl. tauto.
Defined.

(* ================================================================= *)
(** ** From the argument to the fragment *)

(** [operator !== 'in'], on [clause?.operator || 'in']. *)
Lemma negate_of_operator (op : option string) (arglist : option (list string)) :
  negb (operatorOf (Some (mkClause op arglist)) =? "in")
  = match op with
    | Some o => negb (o =? "") && negb (o =? "in")
    | None => false
    end.
Proof.
  unfold operatorOf. cbn [operator]. destruct op as [o|]; [|reflexivity].
  cbn [truthy orEmpty]. destruct (o =? ""); reflexivity.
Qed.

(** X21. From the argument to the fragment, for the forms without a filter:
    when the retriever returns the seed items of the query, the entry point
    returns the fragment built from the first 1000 keys of the extractor of
    the mode ("parent": the parents; "epic-of": the epic parents; "linked":
    both sides of every link; "subtask" and its alias "substask": the
    subtasks), negated when the operator is present, not empty and not "in".
    The earlier variant does the same with its own words ("parent-of" and
    "subtasks-of" for the parents and the subtasks). *)
Theorem resolution_by_mode (svc : Service) (op : option string)
  (w w0 token w1 w2 query w3 : string) (seeds : list Issue)
  (log log' : list Request) :
  let negate := match op with
                | Some o => negb (o =? "") && negb (o =? "in")
                | None => false
                end in
  let args := invoke op (plainArg w0 token w1 w2 query w3) in
  sameWord token w = true ->
  isBlank w0 = true -> isBlank w1 = true -> isBlank w2 = true ->
  isBlank w3 = true -> isQuery query = true ->
  searchSeedIssues svc query
    ["issuelinks"; "parent"; "issuetype"; "subtasks"] (Some 4) (Some 100%Z) log
  = (Ok seeds, log') ->
  (In w ["parent"; "epic-of"; "linked"; "subtask"; "substask"] ->
   issuesWithText svc args log
   = (mkFragment
        (buildIssueKeySetJql
           (Some (firstn 1000
                    (if w =? "parent" then extractParentKeys seeds
                     else if w =? "epic-of" then extractParentEpicKeys seeds
                     else if w =? "linked"
                          then extractLinkedIssueKeys seeds None
                     else extractSubtaskKeys seeds)))
           negate), log')) /\
  (In w ["epic-of"; "linked"; "subtasks-of"; "parent-of"] ->
   IndexJs.issuesWithText svc args log
   = (mkFragment
        (buildIssueKeySetJql
           (Some (firstn 1000
                    (if w =? "parent-of" then extractParentKeys seeds
                     else if w =? "epic-of" then extractParentEpicKeys seeds
                     else if w =? "linked"
                          then IndexJs.extractLinkedIssueKeys seeds
                     else extractSubtaskKeys seeds)))
           negate), log')).
Proof.
  intros negate args Ht H0 H1 H2 H3 Hq Hs.
  assert (Hqne : (query =? "") = false).
  { apply String.eqb_neq. apply isTrimmed_nonempty.
    unfold isQuery in Hq. now apply andb_prop in Hq as [Hq _]. }
  pose proof (negate_of_operator op (Some [plainArg w0 token w1 w2 query w3]))
    as Hneg. fold negate in Hneg.
  split; intros Hw.
  - assert (Hlow : allChars isWordChar w = true) by now apply modeWords_lower.
    assert (Hne : w <> "").
    { intros ->. repeat (destruct Hw as [Hw|Hw]; [discriminate|]).
      destruct Hw. }
    destruct (plainArg_trim w0 token w1 w2 query w3 w H0 H3 Hlow Hne
                (sameWord_letters token w Hlow Ht) Hq) as [Etrim Hs'].
    destruct (argPattern_plain w token w1 w2 query Hw Ht H1 H2 Hq)
      as [whole Em].
    assert (Ep : parseArg (Some (plainArg w0 token w1 w2 query w3))
                 = mkParsedArg (if w =? "substask" then "subtask" else w)
                     None query).
    { unfold parseArg. cbn [orEmpty]. cbv zeta. rewrite Etrim.
      apply String.eqb_neq in Hs'. rewrite Hs', Em.
      cbn [group nth orEmpty].
      pose proof Ht as Ht'. unfold sameWord in Ht'.
      apply String.eqb_eq in Ht'. rewrite Ht'.
      unfold isQuery in Hq. apply andb_prop in Hq as [Hq _].
      rewrite (trim_trimmed query Hq).
      change (trim "") with "". cbn [toLowerCase String.eqb negb orb].
      now rewrite andb_false_r. }
    unfold issuesWithText, resolve, args, invoke.
    cbn [clause arg0Of arguments orNil hd_error]. rewrite Ep.
    cbn [innerJql mode linkFilter]. rewrite Hqne. unfold bind.
    change wantedFields with ["issuelinks"; "parent"; "issuetype"; "subtasks"].
    rewrite Hs. unfold ret. rewrite Hneg.
    match goal with
    | |- context [limitedKeys ?k] =>
        assert (Hk : NoDup k);
        [|destruct (limitedKeys_capped k Hk) as [E _]; rewrite E]
    end.
    + destruct (_ =? "parent"); [apply extractParentKeys_NoDup|].
      destruct (_ =? "epic-of"); [apply extractParentEpicKeys_NoDup|].
      destruct (_ =? "subtask"); [apply extractSubtaskKeys_NoDup|].
      apply extractLinkedIssueKeys_NoDup.
    + destruct Hw as [<-|[<-|[<-|[<-|[<-|[]]]]]]; reflexivity.
  - assert (Hlow : allChars isWordChar w = true)
      by now apply earlierModeWords_lower.
    assert (Hne : w <> "").
    { intros ->. repeat (destruct Hw as [Hw|Hw]; [discriminate|]).
      destruct Hw. }
    destruct (plainArg_trim w0 token w1 w2 query w3 w H0 H3 Hlow Hne
                (sameWord_letters token w Hlow Ht) Hq) as [Etrim Hs'].
    destruct (IndexJs_argPattern_plain w token w1 w2 query Hw Ht H1 H2 Hq)
      as [whole Em].
    assert (Ep : IndexJs.parseArg (Some (plainArg w0 token w1 w2 query w3))
                 = IndexJs.mkParsedArg w query).
    { unfold IndexJs.parseArg. cbn [orEmpty]. cbv zeta. rewrite Etrim.
      apply String.eqb_neq in Hs'. rewrite Hs', Em.
      cbn [group nth orEmpty].
      pose proof Ht as Ht'. unfold sameWord in Ht'.
      apply String.eqb_eq in Ht'. rewrite Ht'.
      unfold isQuery in Hq. apply andb_prop in Hq as [Hq _].
      now rewrite (trim_trimmed query Hq). }
    unfold IndexJs.issuesWithText, IndexJs.resolve, args, invoke.
    cbn [clause arg0Of arguments orNil hd_error]. rewrite Ep.
    cbn [IndexJs.innerJql IndexJs.mode]. rewrite Hqne. unfold bind.
    change wantedFields with ["issuelinks"; "parent"; "issuetype"; "subtasks"].
    rewrite Hs. unfold ret. rewrite Hneg.
    match goal with
    | |- context [limitedKeys ?k] =>
        assert (Hk : NoDup k);
        [|destruct (limitedKeys_capped k Hk) as [E _]; rewrite E]
    end.
    + destruct (_ =? "epic-of"); [apply extractParentEpicKeys_NoDup|].
      destruct (_ =? "subtasks-of"); [apply extractSubtaskKeys_NoDup|].
      destruct (_ =? "parent-of"); [apply extractParentKeys_NoDup|].
      apply IndexJs_extractLinkedIssueKeys_NoDup.
    + destruct Hw as [<-|[<-|[<-|[<-|[]]]]]; reflexivity.
Qed.

Lemma resolution_by_mode_witness :
  issuesWithText serviceOneSeed
    (invoke (Some "not in") (plainArg "" "Linked" "" " " "issuekey = ABC-1" ""))
    []
  = (mkFragment "issuekey not in ('XYZ-9')",
     [PostSearchJql "issuekey = ABC-1" 100
        ["issuelinks"; "parent"; "issuetype"; "subtasks"] None]).
Proof.
  refine (proj1 (resolution_by_mode serviceOneSeed (Some "not in") "linked"
                   "" "Linked" "" " " "issuekey = ABC-1" ""
                   [seedWithLink "ABC-1" "XYZ-9"] []
                   [PostSearchJql "issuekey = ABC-1" 100
                      ["issuelinks"; "parent"; "issuetype"; "subtasks"] None]
                   _ _ _ _ _ _ _) _);
    try reflexivity.
  simpl. tauto.
Defined.

(* ================================================================= *)
(** ** The order of the extracted keys *)

(** A loop that adds the keys of each item is the set of all the keys. *)
Lemma fold_setAdd_flat_map {X : Type} (f : JSet -> X -> JSet)
  (g : X -> list string) :
  (forall out x, f out x = fold_left setAdd (g x) out) ->
  forall l out, fold_left f l out = fold_left setAdd (flat_map g l) out.
Proof.
  intros H l. induction l as [|x l IH]; intros out; simpl; [reflexivity|].
  now rewrite fold_left_app, IH, H.
Qed.

Lemma setAdd_keyOf (out : JSet) (o : option string) :
  (if truthy o then setAdd out (orEmpty o) else out)
  = fold_left setAdd (keyOf o) out.
Proof. unfold keyOf. destruct (truthy o); reflexivity. Qed.

(** X22. The order of the extracted keys.  Each extractor returns the keys
    it meets in the order of their first occurrence: the result is the set
    made of the list of the keys present and not empty, taken seed item by
    seed item and, in a seed item, link by link (the outward issue before the
    inward one) or subtask by subtask.  This is the order in which the cap of
    1000 keys cuts. *)
Theorem extraction_order (issues : list Issue) :
  extractParentKeys issues = newSet (parentCandidates issues) /\
  extractSubtaskKeys issues = newSet (subtaskCandidates issues) /\
  extractLinkedIssueKeys issues None = newSet (linkCandidates issues) /\
  IndexJs.extractLinkedIssueKeys issues = newSet (linkCandidates issues).
Proof.
  unfold newSet. repeat split.
  - unfold extractParentKeys, parentCandidates.
    apply fold_setAdd_flat_map. intros out i. cbv zeta. apply setAdd_keyOf.
  - unfold extractSubtaskKeys, subtaskCandidates.
    apply fold_setAdd_flat_map. intros out i.
    apply fold_setAdd_flat_map. intros out' s. apply setAdd_keyOf.
  - unfold extractLinkedIssueKeys, linkCandidates. cbv zeta.
    apply fold_setAdd_flat_map. intros out i.
    apply fold_setAdd_flat_map. intros out' l.
    cbn [negb orb andb isInward isOutward]. rewrite !andb_true_r.
    now rewrite fold_left_app, <- !setAdd_keyOf.
  - unfold IndexJs.extractLinkedIssueKeys, linkCandidates.
    apply fold_setAdd_flat_map. intros out i.
    apply fold_setAdd_flat_map. intros out' l. cbv zeta.
    now rewrite fold_left_app, <- !setAdd_keyOf.
Qed.

(* ================================================================= *)
(** ** The offsets of the legacy protocol *)

(** The offsets are numbers: their sums are rounded as binary64 has it.  With
    pages of 2^53 - 1 items, the fourth request is at offset
    27021597764222972, the number nearest to 3 * (2^53 - 1). *)
Example offsets_round_as_doubles :
  snd (searchSeedIssues serviceHugePages "q" wantedFields None None []) =
    [PostSearchJql "q" 100 wantedFields None;
     GetSearch "q" (numOfZ 0) 100 wantedFields;
     GetSearch "q" (numOfZ 9007199254740991) 100 wantedFields;
     GetSearch "q" (numOfZ 18014398509481982) 100 wantedFields;
     GetSearch "q" (numOfZ 27021597764222972) 100 wantedFields] /\
  numOfZ 27021597764222972 = numOfZ (3 * 9007199254740991).
Proof. split; vm_compute; reflexivity. Qed.



(* ================================================================= *)
(** ** Failures and the boundary of the entry point *)


Section Outcomes.

Variable svc : Service.
Variable jql : string.
Variable wf : list string.
Variable pageSize : Z.







End Outcomes.



